(** * filesystem-guardian: sandbox enforcement and untrusted-output handling

    A shallow embedding of the security core of the repository:

    - [validatePath], [isPathAllowed], [filterAllowedPaths] and
      [sanitizeErrorMessage] of [src/utils/path-validator.ts];
    - [sanitizeAttributes], [parseSpotlightValue] and [spotlightSearch] of
      [src/services/spotlight-service.ts];
    - [listXattrs] and [decodeXattrValue] of [src/services/xattr-service.ts].

    JavaScript strings are sequences of UTF-16 code units; the platform
    functions the code calls ([decodeURIComponent], [path.resolve],
    [path.normalize], [Number], [Buffer.from(_, 'hex')],
    [Buffer.toString('utf8')]) are written out after ECMA-262 and the Node.js
    posix [path] module.  What depends on the machine the program runs on
    (Unicode tables, the working directory, the file system, child processes,
    [JSON.parse]) is a parameter. *)

From Stdlib Require Import List NArith ZArith QArith Bool Lia String Ascii.
From Stdlib Require Import Permutation.
From Stdlib Require DecimalString HexadecimalString DecimalN.
Import ListNotations.

Local Open Scope N_scope.

(** ** JavaScript strings *)

(** A string is the list of its UTF-16 code units. *)
Definition jsstring := list N.

(** An ASCII literal as a JavaScript string. *)
Definition js (s : string) : jsstring :=
  List.map N_of_ascii (list_ascii_of_string s).

Fixpoint str_eqb (a b : jsstring) : bool :=
  match a, b with
  | [], [] => true
  | x :: a', y :: b' => (x =? y) && str_eqb a' b'
  | _, _ => false
  end.

(** [s.startsWith(p)] *)
Fixpoint startsWith (s p : jsstring) : bool :=
  match p, s with
  | [], _ => true
  | y :: p', x :: s' => (x =? y) && startsWith s' p'
  | _ :: _, [] => false
  end.

(** [s.endsWith(p)] *)
Definition endsWith (s p : jsstring) : bool :=
  startsWith (rev s) (rev p).

(** [s.includes(p)] *)
Fixpoint includes (s p : jsstring) : bool :=
  startsWith s p ||
  match s with
  | [] => false
  | _ :: s' => includes s' p
  end.

(** [s.includes(c)] for a one-unit needle. *)
Definition includesUnit (s : jsstring) (c : N) : bool :=
  existsb (N.eqb c) s.

(** [s.split(sep)] for a one-unit separator: never the empty list. *)
Fixpoint split (sep : N) (s : jsstring) : list jsstring :=
  match s with
  | [] => [[]]
  | c :: r =>
      if c =? sep then [] :: split sep r
      else match split sep r with
           | [] => [[c]]
           | h :: t => (c :: h) :: t
           end
  end.

(** [parts.join(sep)] for a one-unit separator. *)
Fixpoint join (sep : N) (parts : list jsstring) : jsstring :=
  match parts with
  | [] => []
  | [p] => p
  | p :: rest => p ++ sep :: join sep rest
  end.

(** ** Character classes *)

Definition CHAR_NUL : N := 0.
Definition CHAR_DOT : N := 46.
Definition CHAR_FORWARD_SLASH : N := 47.
Definition CHAR_PERCENT : N := 37.
Definition CHAR_REPLACEMENT : N := 65533.

Definition inRange (lo hi c : N) : bool := (lo <=? c) && (c <=? hi).

Definition isDigit (c : N) : bool := inRange 48 57 c.
Definition isLower (c : N) : bool := inRange 97 122 c.
Definition isUpper (c : N) : bool := inRange 65 90 c.
Definition isAlpha (c : N) : bool := isLower c || isUpper c.

(** The regular expression class [\w]: [[A-Za-z0-9_]]. *)
Definition isWord (c : N) : bool := isAlpha c || isDigit c || (c =? 95).

(** [[0-9A-Fa-f]] *)
Definition isHexDigit (c : N) : bool :=
  isDigit c || inRange 97 102 c || inRange 65 70 c.

(** The regular expression class [\s], which is also what [trim] removes
    and what [Number] skips: ECMA-262 WhiteSpace and LineTerminator. *)
Definition isWhiteSpace (c : N) : bool :=
  inRange 9 13 c || (c =? 32) || (c =? 160) || (c =? 5760) ||
  inRange 8192 8202 c || (c =? 8232) || (c =? 8233) || (c =? 8239) ||
  (c =? 8287) || (c =? 12288) || (c =? 65279).

Fixpoint trimStart (s : jsstring) : jsstring :=
  match s with
  | c :: r => if isWhiteSpace c then trimStart r else s
  | [] => []
  end.

Definition trimEnd (s : jsstring) : jsstring := rev (trimStart (rev s)).

(** [s.trim()] *)
Definition trim (s : jsstring) : jsstring := trimEnd (trimStart s).

(** Value of a hexadecimal digit. *)
Definition hexValue (c : N) : option N :=
  if isDigit c then Some (c - 48)
  else if inRange 97 102 c then Some (c - 87)
  else if inRange 65 70 c then Some (c - 55)
  else None.

(** ** JavaScript values *)

(** A number as [Number] reads it from text: the sign, the decimal
    significand and the decimal exponent of the mathematical value.  The
    rounding of that value to a double is not part of the model. *)
Inductive jsnumber :=
| NaN
| Infinity (negative : bool)
| Num (negative : bool) (significand : N) (exp10 : Z).

Definition isNaN (n : jsnumber) : bool :=
  match n with NaN => true | _ => false end.

(** The values a caller can hand to the functions below.  Arrays and plain
    objects are only ever tested for being strings, so one constructor stands
    for all of them. *)
Inductive jsval :=
| JUndefined
| JNull
| JBool (b : bool)
| JNumber (n : jsnumber)
| JString (s : jsstring)
| JObject.

(** [!v] *)
Definition falsy (v : jsval) : bool :=
  match v with
  | JUndefined | JNull => true
  | JBool b => negb b
  | JNumber NaN => true
  | JNumber (Num _ 0 _) => true
  | JNumber _ => false
  | JString s => match s with [] => true | _ => false end
  | JObject => false
  end.

(** [typeof v === 'string'] *)
Definition isString (v : jsval) : bool :=
  match v with JString _ => true | _ => false end.

(** A completion: a returned value or a thrown error. *)
Inductive Completion (A E : Type) :=
| Return (a : A)
| Throw (e : E).
Arguments Return {A E} a.
Arguments Throw {A E} e.

(** ** decodeURIComponent (ECMA-262, Decode with an empty preserve set) *)

(** The input read left to right: a unit other than [%] stands for itself, a
    [%] must be followed by two hexadecimal digits and stands for one octet.
    [None] is the [URIError]. *)
Inductive uriItem :=
| Lit (c : N)
| Octet (b : N).

Fixpoint uriItems (s : jsstring) : option (list uriItem) :=
  match s with
  | [] => Some []
  | c :: r =>
      if c =? CHAR_PERCENT then
        match r with
        | h1 :: h2 :: r' =>
            match hexValue h1, hexValue h2, uriItems r' with
            | Some a, Some b, Some items => Some (Octet (16 * a + b) :: items)
            | _, _, _ => None
            end
        | _ => None
        end
      else
        match uriItems r with
        | Some items => Some (Lit c :: items)
        | None => None
        end
  end.

(** Number of leading one bits of an octet. *)
Definition leadingOnes (b : N) : nat :=
  if b <? 128 then 0
  else if b <? 192 then 1
  else if b <? 224 then 2
  else if b <? 240 then 3
  else if b <? 248 then 4
  else 5.

Definition isContinuation (b : N) : bool := inRange 128 191 b.

(** The values the second octet of a well-formed UTF-8 sequence may take
    (Unicode, table 3-7): no overlong forms, no surrogates, nothing above
    U+10FFFF. *)
Definition secondRange (b1 : N) : N * N :=
  if b1 =? 224 then (160, 191)
  else if b1 =? 237 then (128, 159)
  else if b1 =? 240 then (144, 191)
  else if b1 =? 244 then (128, 143)
  else (128, 191).

Definition inSecondRange (b1 b2 : N) : bool :=
  inRange (fst (secondRange b1)) (snd (secondRange b1)) b2.

Definition low6 (b : N) : N := N.land b 63.

(** The code point of a well-formed multi-octet sequence. *)
Definition utf8CodePoint (octets : list N) : option N :=
  match octets with
  | [b1; b2] =>
      if inRange 194 223 b1 && isContinuation b2
      then Some (N.lor (N.shiftl (N.land b1 31) 6) (low6 b2))
      else None
  | [b1; b2; b3] =>
      if inRange 224 239 b1 && inSecondRange b1 b2 && isContinuation b3
      then Some (N.lor (N.shiftl (N.land b1 15) 12)
                   (N.lor (N.shiftl (low6 b2) 6) (low6 b3)))
      else None
  | [b1; b2; b3; b4] =>
      if inRange 240 244 b1 && inSecondRange b1 b2 && isContinuation b3
         && isContinuation b4
      then Some (N.lor (N.shiftl (N.land b1 7) 18)
                   (N.lor (N.shiftl (low6 b2) 12)
                      (N.lor (N.shiftl (low6 b3) 6) (low6 b4))))
      else None
  | _ => None
  end.

(** UTF16EncodeCodePoint *)
Definition utf16Encode (cp : N) : jsstring :=
  if cp <? 65536 then [cp]
  else [N.shiftr (cp - 65536) 10 + 55296; N.land (cp - 65536) 1023 + 56320].

Definition emit (units : option jsstring) (rest : option jsstring)
  : option jsstring :=
  match units, rest with
  | Some u, Some r => Some (u ++ r)
  | _, _ => None
  end.

(** An octet below 0x80 is its own code unit; a lead octet announcing [n]
    octets must be followed by [n - 1] further escapes, the whole a
    well-formed UTF-8 sequence. *)
Fixpoint decodeItems (items : list uriItem) : option jsstring :=
  match items with
  | [] => Some []
  | Lit c :: r => emit (Some [c]) (decodeItems r)
  | Octet b :: r =>
      match leadingOnes b with
      | 0%nat => emit (Some [b]) (decodeItems r)
      | 2%nat =>
          match r with
          | Octet b2 :: r' =>
              emit (option_map utf16Encode (utf8CodePoint [b; b2]))
                   (decodeItems r')
          | _ => None
          end
      | 3%nat =>
          match r with
          | Octet b2 :: Octet b3 :: r' =>
              emit (option_map utf16Encode (utf8CodePoint [b; b2; b3]))
                   (decodeItems r')
          | _ => None
          end
      | 4%nat =>
          match r with
          | Octet b2 :: Octet b3 :: Octet b4 :: r' =>
              emit (option_map utf16Encode (utf8CodePoint [b; b2; b3; b4]))
                   (decodeItems r')
          | _ => None
          end
      | _ => None
      end
  end.

Definition decodeURIComponent (s : jsstring) : option jsstring :=
  match uriItems s with
  | Some items => decodeItems items
  | None => None
  end.

(** ** The percent-decoding loop of validatePath

<<
  let decoded = sanitized;
  let prev = '';
  while (decoded !== prev) {
    prev = decoded;
    try { decoded = decodeURIComponent(decoded); } catch { break; }
  }
>>

    The loop carries [decoded] and [prev]; [rounds] counts the calls of
    [decodeURIComponent].  The source has no counter and no bound: [fuel]
    only makes the recursion structural, and [decodeLoop_enough_fuel] shows
    that the fuel [decodeRounds] and [percentDecode] give is never used up. *)
Fixpoint decodeLoop (fuel : nat) (decoded prev : jsstring) (rounds : nat)
  : option (jsstring * nat) :=
  if str_eqb decoded prev then Some (decoded, rounds)
  else
    match fuel with
    | O => None
    | S fuel' =>
        match decodeURIComponent decoded with
        | Some decoded' => decodeLoop fuel' decoded' decoded (S rounds)
        | None => Some (decoded, S rounds)
        end
    end.

Definition decodeFuel (s : jsstring) : nat := S (S (List.length s)).

Definition runDecodeLoop (s : jsstring) : option (jsstring * nat) :=
  decodeLoop (decodeFuel s) s [] 0.

(** The value of [decoded] after the loop. *)
Definition percentDecode (s : jsstring) : jsstring :=
  match runDecodeLoop s with
  | Some (decoded, _) => decoded
  | None => s
  end.

(** The number of times the loop called [decodeURIComponent]. *)
Definition decodeRounds (s : jsstring) : nat :=
  match runDecodeLoop s with
  | Some (_, rounds) => rounds
  | None => 0
  end.

(** ** The posix path module of Node.js *)

Definition DOT : jsstring := [CHAR_DOT].
Definition DOTDOT : jsstring := [CHAR_DOT; CHAR_DOT].

(** One step of [normalizeString]: [stack] holds the segments kept so far,
    the last one first.  Empty segments and [.] are skipped; [..] removes the
    segment before it, unless there is none or it is itself [..], in which
    case [..] is kept when [allowAboveRoot] and dropped otherwise. *)
Definition normalizeSegment (allowAboveRoot : bool)
    (stack : list jsstring) (seg : jsstring) : list jsstring :=
  if str_eqb seg [] || str_eqb seg DOT then stack
  else if str_eqb seg DOTDOT then
    match stack with
    | top :: below =>
        if str_eqb top DOTDOT
        then (if allowAboveRoot then seg :: stack else stack)
        else below
    | [] => if allowAboveRoot then [seg] else []
    end
  else seg :: stack.

(** [normalizeString(path, allowAboveRoot, '/', isPosixPathSeparator)]:
    the kept segments joined by [/], with no leading or trailing slash. *)
Definition normalizeString (path : jsstring) (allowAboveRoot : bool)
  : jsstring :=
  join CHAR_FORWARD_SLASH
    (rev (fold_left (normalizeSegment allowAboveRoot)
            (split CHAR_FORWARD_SLASH path) [])).

Definition isAbsolute (path : jsstring) : bool :=
  match path with
  | c :: _ => c =? CHAR_FORWARD_SLASH
  | [] => false
  end.

(** [path.resolve(p)] with one argument, [cwd] being [process.cwd()]: the
    arguments are taken from the right, an empty one is skipped, and the
    working directory is used when no absolute path has been seen. *)
Definition resolve (cwd p : jsstring) : jsstring :=
  let '(resolvedPath, resolvedAbsolute) :=
    match p with
    | [] => ([], false)
    | _ => (p ++ [CHAR_FORWARD_SLASH], isAbsolute p)
    end in
  let '(resolvedPath, resolvedAbsolute) :=
    if resolvedAbsolute then (resolvedPath, resolvedAbsolute)
    else match cwd with
         | [] => (resolvedPath, resolvedAbsolute)
         | _ => (cwd ++ CHAR_FORWARD_SLASH :: resolvedPath, isAbsolute cwd)
         end in
  let resolvedPath := normalizeString resolvedPath (negb resolvedAbsolute) in
  if resolvedAbsolute then CHAR_FORWARD_SLASH :: resolvedPath
  else match resolvedPath with
       | [] => DOT
       | _ => resolvedPath
       end.

(** [path.normalize(p)] *)
Definition normalize (p : jsstring) : jsstring :=
  match p with
  | [] => DOT
  | _ =>
      let trailingSeparator := endsWith p [CHAR_FORWARD_SLASH] in
      let path := normalizeString p (negb (isAbsolute p)) in
      match path with
      | [] =>
          if isAbsolute p then [CHAR_FORWARD_SLASH]
          else if trailingSeparator then DOT ++ [CHAR_FORWARD_SLASH]
          else DOT
      | _ =>
          let path :=
            if trailingSeparator then path ++ [CHAR_FORWARD_SLASH] else path in
          if isAbsolute p then CHAR_FORWARD_SLASH :: path else path
      end
  end.

(** [path.sep] *)
Definition sep : jsstring := [CHAR_FORWARD_SLASH].

(** ** path-validator.ts *)

(** The allow-list of the source. *)
Definition ALLOWED_ROOTS : list jsstring :=
  [ js "/Users/macbook/Documents/BoxOfPrompts-Central";
    js "/Users/macbook/Documents/Dropository";
    js "/Users/macbook/Documents/BoxOfPrompts-Central/Dropository" ].

(** What [lstatSync] does on a path: it returns the stats of the entry,
    of which only [isSymbolicLink()] is read, or throws an error with a
    [code] and a [message]. *)
Inductive LstatOutcome :=
| Stats (isSymbolicLink : bool)
| LstatThrows (code message : jsstring).

(** The errors [validatePath] throws.  [LstatFailure] is an error of
    [lstatSync] thrown again by the [catch] block. *)
Inductive PathError :=
| InvalidInput
| SymlinkRejected
| OutsideSandbox
| LstatFailure (code message : jsstring).

Definition SYMLINK_MARKER : jsstring := js "Symlinks are not allowed".

Definition errorMessage (e : PathError) : jsstring :=
  match e with
  | InvalidInput => js "Invalid path: must be a non-empty string"
  | SymlinkRejected => js "Symlinks are not allowed: potential sandbox escape"
  | OutsideSandbox => js "Path outside allowed directories"
  | LstatFailure _ message => message
  end.

(** [filePath.replace(/\0/g, '')] *)
Definition stripNulls (s : jsstring) : jsstring :=
  filter (fun c => negb (c =? CHAR_NUL)) s.

(** The [try]/[catch] around [lstatSync]: [Some e] when it throws [e] on. *)
Definition symlinkCheck (o : LstatOutcome) : option PathError :=
  match o with
  | Stats true => Some SymlinkRejected
  | Stats false => None
  | LstatThrows code message =>
      if str_eqb code (js "ENOENT") then None
      else if includes message SYMLINK_MARKER
           then Some (LstatFailure code message)
           else None
  end.

(** The callback of [ALLOWED_ROOTS.some]. *)
Definition underRoot (normalized root : jsstring) : bool :=
  let normalizedRoot := normalize root in
  str_eqb normalized normalizedRoot ||
  startsWith normalized (normalizedRoot ++ sep).

Section PathValidator.

(** [String.prototype.normalize('NFC')]. *)
Variable nfc : jsstring -> jsstring.
(** [process.cwd()]. *)
Variable cwd : jsstring.
(** The file system, as [lstatSync] sees it. *)
Variable lstatSync : jsstring -> LstatOutcome.
(** The sandbox roots; the source has [ALLOWED_ROOTS] here. *)
Variable roots : list jsstring.

(** The value of [normalized]: null characters stripped, NFC, percent
    decoding, [path.resolve], [path.normalize]. *)
Definition resolvedPath (filePath : jsstring) : jsstring :=
  let sanitized := stripNulls filePath in
  let sanitized := nfc sanitized in
  let decoded := percentDecode sanitized in
  let absolute := resolve cwd decoded in
  normalize absolute.

Definition validatePath (filePath : jsval)
  : Completion jsstring PathError :=
  if falsy filePath || negb (isString filePath) then Throw InvalidInput
  else
    match filePath with
    | JString s =>
        let normalized := resolvedPath s in
        match symlinkCheck (lstatSync normalized) with
        | Some e => Throw e
        | None =>
            let isAllowed := existsb (underRoot normalized) roots in
            if negb isAllowed then Throw OutsideSandbox
            else Return normalized
        end
    | _ => Throw InvalidInput
    end.

Definition isPathAllowed (filePath : jsval) : bool :=
  match validatePath filePath with
  | Return _ => true
  | Throw _ => false
  end.

Definition filterAllowedPaths (paths : list jsval) : list jsval :=
  filter isPathAllowed paths.

End PathValidator.

(** *** sanitizeErrorMessage *)

(** [text.replace(re, replacement)] for a global regular expression whose
    matches are never empty: [matchLength rest] is the length of the match
    that starts at the head of [rest], [0] when there is none.  The search
    goes on after the end of each match; [skip] counts the units of the
    current match still to be dropped. *)
Fixpoint replaceFrom (matchLength : jsstring -> nat)
    (replacement text : jsstring) (skip : nat) : jsstring :=
  match text with
  | [] => []
  | c :: rest =>
      match skip with
      | S skip' => replaceFrom matchLength replacement rest skip'
      | O =>
          match matchLength text with
          | O => c :: replaceFrom matchLength replacement rest 0
          | S skip' =>
              replacement ++ replaceFrom matchLength replacement rest skip'
          end
      end
  end.

Definition replaceAll (matchLength : jsstring -> nat)
    (replacement text : jsstring) : jsstring :=
  replaceFrom matchLength replacement text 0.

(** Length of the longest prefix made of units of a class. *)
Fixpoint runLength (class : N -> bool) (s : jsstring) : nat :=
  match s with
  | c :: r => if class c then S (runLength class r) else O
  | [] => O
  end.

(** The class [[\w\-._]]. *)
Definition isPathUnit (c : N) : bool :=
  isWord c || (c =? 45) || (c =? CHAR_DOT).

(** The class [[\w\-._/]]. *)
Definition isPathUnitOrSlash (c : N) : bool :=
  isPathUnit c || (c =? CHAR_FORWARD_SLASH).

(** Where a match of [(?:\/[\w\-._]+)+] stands: before a slash, right after
    one, or inside the run that follows it. *)
Inductive groupState := AtSlash | AfterSlash | InRun.

(** Length of the greedy match of [(?:\/[\w\-._]+)+]: a slash counts only
    when a unit of the class follows it. *)
Fixpoint slashGroups (st : groupState) (s : jsstring) : nat :=
  match s with
  | [] => O
  | c :: r =>
      let onSlash :=
        if c =? CHAR_FORWARD_SLASH then
          match slashGroups AfterSlash r with
          | O => O
          | S k => S (S k)
          end
        else O in
      match st with
      | AtSlash => onSlash
      | AfterSlash => if isPathUnit c then S (slashGroups InRun r) else O
      | InRun => if isPathUnit c then S (slashGroups InRun r) else onSlash
      end
  end.

(** Length of the match of [\.\.?\/[\w\-._/]*]. *)
Definition dotPath (s : jsstring) : nat :=
  match s with
  | d1 :: d2 :: sl :: r =>
      if (d1 =? CHAR_DOT) && (d2 =? CHAR_DOT) && (sl =? CHAR_FORWARD_SLASH)
      then 3 + runLength isPathUnitOrSlash r
      else if (d1 =? CHAR_DOT) && (d2 =? CHAR_FORWARD_SLASH)
      then 2 + runLength isPathUnitOrSlash (sl :: r)
      else O
  | [d1; sl] =>
      if (d1 =? CHAR_DOT) && (sl =? CHAR_FORWARD_SLASH) then 2 else O
  | _ => O
  end.

(** [/(?:\/[\w\-._]+)+|\.\.?\/[\w\-._/]*/g] *)
Definition pathPattern (s : jsstring) : nat :=
  match slashGroups AtSlash s with
  | O => dotPath s
  | n => n
  end.

Definition PATH_PLACEHOLDER : jsstring := js "[path]".

(** [/:\s*\[path\]/g] *)
Definition labelPattern (s : jsstring) : nat :=
  match s with
  | c :: r =>
      let w := runLength isWhiteSpace r in
      if (c =? 58) && startsWith (skipn w r) PATH_PLACEHOLDER
      then 1 + w + List.length PATH_PLACEHOLDER
      else O
  | [] => O
  end.

Definition sanitizeErrorMessage (message : jsval) : jsstring :=
  match message with
  | JString ((_ :: _) as m) =>
      let sanitized := replaceAll pathPattern PATH_PLACEHOLDER m in
      replaceAll labelPattern [] sanitized
  | _ => js "Unknown error"
  end.

(** ** spotlight-service.ts *)

(** [VALID_ATTRIBUTE_PATTERN.test(attr)], the pattern being
    [/^[a-zA-Z_][a-zA-Z0-9_]*$/]. *)
Definition VALID_ATTRIBUTE_PATTERN (attr : jsstring) : bool :=
  match attr with
  | c :: r => (isAlpha c || (c =? 95)) && forallb isWord r
  | [] => false
  end.

(** The callback of [attrs.filter] in [sanitizeAttributes]; the warning it
    logs is not part of the result. *)
Definition keepAttribute (attr : jsval) : bool :=
  if falsy attr || negb (isString attr) then false
  else
    match attr with
    | JString s => if negb (VALID_ATTRIBUTE_PATTERN s) then false else true
    | _ => false
    end.

Definition sanitizeAttributes (attrs : list jsval) : list jsval :=
  filter keepAttribute attrs.

(** *** Number(text) (ECMA-262, StringToNumber) *)

(** The longest prefix of units of a class, and what follows it. *)
Fixpoint span (class : N -> bool) (s : jsstring) : jsstring * jsstring :=
  match s with
  | c :: r =>
      if class c then let '(p, q) := span class r in (c :: p, q)
      else ([], s)
  | [] => ([], [])
  end.

(** The value of a non-empty run of digits in a base, [None] when a unit is
    not a digit of that base. *)
Definition digitsValue (base : N) (digits : jsstring) : option N :=
  match digits with
  | [] => None
  | _ =>
      fold_left
        (fun acc c =>
           match acc, hexValue c with
           | Some v, Some d => if d <? base then Some (base * v + d) else None
           | _, _ => None
           end)
        digits (Some 0)
  end.

(** [0x], [0o] and [0b] literals: no sign, at least one digit. *)
Definition nonDecimalLiteral (s : jsstring) : option jsnumber :=
  match s with
  | 48 :: p :: digits =>
      let base :=
        if (p =? 120) || (p =? 88) then Some 16
        else if (p =? 111) || (p =? 79) then Some 8
        else if (p =? 98) || (p =? 66) then Some 2
        else None in
      match base with
      | Some b =>
          match digitsValue b digits with
          | Some v => Some (Num false v 0)
          | None => Some NaN
          end
      | None => None
      end
  | _ => None
  end.

(** An optional sign. *)
Definition signOf (s : jsstring) : bool * jsstring :=
  match s with
  | 43 :: r => (false, r)
  | 45 :: r => (true, r)
  | _ => (false, s)
  end.

(** ExponentPart, or nothing: the exponent, [None] when what is left is
    neither. *)
Definition exponentPart (s : jsstring) : option Z :=
  match s with
  | [] => Some 0%Z
  | e :: r =>
      if (e =? 101) || (e =? 69) then
        let '(negative, digits) := signOf r in
        match digitsValue 10 digits with
        | Some v => Some (if negative then (- Z.of_N v)%Z else Z.of_N v)
        | None => None
        end
      else None
  end.

(** StrDecimalLiteral: [Infinity], or digits with an optional fraction and
    exponent, at least one digit before or after the point. *)
Definition decimalLiteral (s : jsstring) : jsnumber :=
  let '(negative, body) := signOf s in
  if str_eqb body (js "Infinity") then Infinity negative
  else
    let '(intPart, afterInt) := span isDigit body in
    let '(fracPart, afterFrac) :=
      match afterInt with
      | 46 :: r => span isDigit r
      | _ => ([], afterInt)
      end in
    match intPart ++ fracPart with
    | [] => NaN
    | digits =>
        match digitsValue 10 digits, exponentPart afterFrac with
        | Some v, Some e =>
            Num negative v (e - Z.of_nat (List.length fracPart))
        | _, _ => NaN
        end
    end.

(** [Number(text)]: white space is trimmed, the empty text is [+0]. *)
Definition toNumber (text : jsstring) : jsnumber :=
  match trim text with
  | [] => Num false 0 0
  | t =>
      match nonDecimalLiteral t with
      | Some n => n
      | None => decimalLiteral t
      end
  end.

(** *** parseSpotlightValue *)

(** What [parseSpotlightValue] returns: [null], an array of strings, a
    string or a number. *)
Inductive SpotlightValue :=
| SVNull
| SVArray (items : list jsstring)
| SVString (s : jsstring)
| SVNumber (n : jsnumber).

(** [value.slice(1, -1)] *)
Definition sliceInner (value : jsstring) : jsstring := removelast (tl value).

Definition CHAR_QUOTE : N := 34.

(** [v.replace(/^"|"$/g, '')] *)
Definition stripQuotes (v : jsstring) : jsstring :=
  let v := match v with
           | c :: r => if c =? CHAR_QUOTE then r else v
           | [] => []
           end in
  match rev v with
  | c :: r => if c =? CHAR_QUOTE then rev r else v
  | [] => []
  end.

Definition parseSpotlightValue (value : jsstring) : SpotlightValue :=
  if str_eqb value (js "(null)") then SVNull
  else if startsWith value (js "(") && endsWith value (js ")") then
    match trim (sliceInner value) with
    | [] => SVArray []
    | inner => SVArray (List.map (fun v => stripQuotes (trim v)) (split 44 inner))
    end
  else if startsWith value [CHAR_QUOTE] && endsWith value [CHAR_QUOTE] then
    SVString (sliceInner value)
  else
    let num := toNumber value in
    if negb (isNaN num) then SVNumber num
    else SVString value.

(** ** Child processes and the operation log *)

(** What [await exec(file, args)] does: it yields the standard output, or
    throws an error with a message. *)
Inductive ExecOutcome :=
| ExecOk (stdout : jsstring)
| ExecFails (message : jsstring).

(** One call of [db.logXattrOperation(operation, path, attribute, success)]. *)
Record LogEntry := mkLog {
  logOperation : jsstring;
  logPath : jsstring;
  logAttribute : option jsstring;
  logSuccess : bool
}.

(** [stdout.trim().split('\n').filter(Boolean)] *)
Definition outputLines (stdout : jsstring) : list jsstring :=
  filter (fun l => match l with [] => false | _ => true end)
    (split 10 (trim stdout)).

(** *** spotlightSearch *)

Record SpotlightSearchOutput (R : Type) := mkSearchOutput {
  results : list R;
  count : nat;
  truncated : bool
}.
Arguments mkSearchOutput {R}.
Arguments results {R}.
Arguments count {R}.
Arguments truncated {R}.

Section SpotlightService.

Variable nfc : jsstring -> jsstring.
Variable cwd : jsstring.
Variable lstatSync : jsstring -> LstatOutcome.
Variable roots : list jsstring.
Variable exec : jsstring -> list jsstring -> ExecOutcome.
(** [SpotlightResult], and [getFileMetadata], which reads the file system
    and never throws: its body is one [try] whose [catch] returns [null]. *)
Variable SpotlightResult : Type.
Variable getFileMetadata :
  jsstring -> option (list jsval) -> option SpotlightResult.

(** The loop over [scope]: a directory that fails validation is skipped. *)
Fixpoint scopeArgs (scope : list jsval) : list jsstring :=
  match scope with
  | [] => []
  | dir :: rest =>
      match validatePath nfc cwd lstatSync roots dir with
      | Return validatedDir => js "-onlyin" :: validatedDir :: scopeArgs rest
      | Throw _ => scopeArgs rest
      end
  end.

(** Every element of an array that is not [null]. *)
Fixpoint nonNull {A : Type} (l : list (option A)) : list A :=
  match l with
  | [] => []
  | Some a :: r => a :: nonNull r
  | None :: r => nonNull r
  end.

(** The thrown value is the message of the [Error]. *)
Definition spotlightSearch (query : jsstring) (scope : list jsval)
    (limit : nat) (attributes : option (list jsval))
  : Completion (SpotlightSearchOutput SpotlightResult) jsstring :=
  let args := scopeArgs scope ++ [query] in
  match exec (js "mdfind") args with
  | ExecOk stdout =>
      let paths := outputLines stdout in
      let allowedPaths :=
        filter (fun p => isPathAllowed nfc cwd lstatSync roots (JString p))
          paths in
      let truncated := Nat.ltb limit (List.length allowedPaths) in
      let limitedPaths := firstn limit allowedPaths in
      let results :=
        List.map (fun p => getFileMetadata p attributes) limitedPaths in
      Return (mkSearchOutput (nonNull results)
                (List.length (nonNull results)) truncated)
  | ExecFails message =>
      Throw (js "Spotlight search failed: "
               ++ sanitizeErrorMessage (JString message))
  end.

End SpotlightService.

(** ** xattr-service.ts *)

Record ListXattrResult := mkList {
  listPath : jsstring;
  listAttributes : list jsstring;
  listCount : nat
}.

Section XattrService.

Variable nfc : jsstring -> jsstring.
Variable cwd : jsstring.
Variable lstatSync : jsstring -> LstatOutcome.
Variable roots : list jsstring.
Variable exec : jsstring -> list jsstring -> ExecOutcome.

(** [listXattrs]: the entries it writes to the operation log, and what it
    returns or the message of the error it throws. *)
Definition listXattrs (filePath : jsval)
  : list LogEntry * Completion ListXattrResult jsstring :=
  match validatePath nfc cwd lstatSync roots filePath with
  | Throw e => ([], Throw (errorMessage e))
  | Return validatedPath =>
      match exec (js "xattr") [validatedPath] with
      | ExecOk stdout =>
          let attributes := outputLines stdout in
          ([mkLog (js "list") validatedPath None true],
           Return (mkList validatedPath attributes (List.length attributes)))
      | ExecFails message =>
          ([mkLog (js "list") validatedPath None false],
           if includes message (js "No such xattr")
           then Return (mkList validatedPath [] 0)
           else Throw (js "Failed to list xattrs: " ++ message))
      end
  end.

End XattrService.

(** *** decodeXattrValue *)

(** [Buffer.from(text, 'hex')]: two digits make a byte; decoding stops at
    the first pair that is not hexadecimal, and a last digit without a partner
    is dropped. *)
Fixpoint bufferFromHex (text : jsstring) : list N :=
  match text with
  | a :: b :: r =>
      match hexValue a, hexValue b with
      | Some x, Some y => (16 * x + y) :: bufferFromHex r
      | _, _ => []
      end
  | _ => []
  end.

(** The state of the UTF-8 decoder between two bytes: the bits read so far,
    the number of continuation bytes still missing, and the range the next
    byte must lie in. *)
Record Utf8State := mkUtf8 {
  codePoint : N;
  needed : nat;
  lower : N;
  upper : N
}.

Definition utf8Idle : Utf8State := mkUtf8 0 0 128 191.

(** A byte read when no sequence is open. *)
Definition utf8Lead (b : N) : jsstring * Utf8State :=
  if b <? 128 then ([b], utf8Idle)
  else if inRange 194 223 b then ([], mkUtf8 (N.land b 31) 1 128 191)
  else if inRange 224 239 b
  then ([], mkUtf8 (N.land b 15) 2 (fst (secondRange b)) (snd (secondRange b)))
  else if inRange 240 244 b
  then ([], mkUtf8 (N.land b 7) 3 (fst (secondRange b)) (snd (secondRange b)))
  else ([CHAR_REPLACEMENT], utf8Idle).

(** [buffer.toString('utf8')]: every ill-formed sequence becomes one U+FFFD,
    and the byte that ended it is read again as the start of the next. *)
Fixpoint utf8Decode (st : Utf8State) (bytes : list N) : jsstring :=
  match bytes with
  | [] => match needed st with O => [] | S _ => [CHAR_REPLACEMENT] end
  | b :: r =>
      match needed st with
      | O => let '(out, st') := utf8Lead b in out ++ utf8Decode st' r
      | S k =>
          if inRange (lower st) (upper st) b then
            let cp := N.lor (N.shiftl (codePoint st) 6) (low6 b) in
            match k with
            | O => utf16Encode cp ++ utf8Decode utf8Idle r
            | S _ => utf8Decode (mkUtf8 cp k 128 191) r
            end
          else
            let '(out, st') := utf8Lead b in
            CHAR_REPLACEMENT :: out ++ utf8Decode st' r
      end
  end.

Definition bufferToString (bytes : list N) : jsstring :=
  utf8Decode utf8Idle bytes.

Definition isSurrogateHigh (c : N) : bool := inRange 55296 56319 c.
Definition isSurrogateLow (c : N) : bool := inRange 56320 57343 c.

(** [Buffer.byteLength(text, 'utf8')] *)
Fixpoint byteLength (text : jsstring) : nat :=
  match text with
  | [] => 0
  | c :: r =>
      if c <? 128 then 1 + byteLength r
      else if c <? 2048 then 2 + byteLength r
      else
        match r with
        | d :: r' =>
            if isSurrogateHigh c && isSurrogateLow d then 4 + byteLength r'
            else 3 + byteLength r
        | [] => 3
        end
  end.

(** Modelled from the spec: the type [XattrEncoding] is declared in
    [src/types.ts], which is not among the sources; the spec names the tags
    [utf8], [hex] and [json]. *)
Inductive XattrEncoding := utf8 | hex | json.

(** The [value] of an [XattrValue]: what [JSON.parse] returned, or text. *)
Inductive XattrData (J : Type) :=
| Parsed (j : J)
| Text (s : jsstring).
Arguments Parsed {J} j.
Arguments Text {J} s.

Record XattrValue (J : Type) := mkXattr {
  value : XattrData J;
  size : Q;
  encoding : XattrEncoding
}.
Arguments mkXattr {J}.
Arguments value {J}.
Arguments size {J}.
Arguments encoding {J}.

(** [/^[0-9A-Fa-f\s]+$/.test(rawValue)] *)
Definition looksHex (rawValue : jsstring) : bool :=
  match rawValue with
  | [] => false
  | _ => forallb (fun c => isHexDigit c || isWhiteSpace c) rawValue
  end.

(** [rawValue.replace(/\s/g, '')] *)
Definition stripWhiteSpace (rawValue : jsstring) : jsstring :=
  filter (fun c => negb (isWhiteSpace c)) rawValue.

Definition sizeOfNat (n : nat) : Q := inject_Z (Z.of_nat n).

Section DecodeXattrValue.

(** The values of [JSON.parse], and [JSON.parse] itself: [None] when it
    throws. *)
Variable J : Type.
Variable JSON_parse : jsstring -> option J.

Definition decodeXattrValue (rawValue : jsstring) (decodePlist : bool)
  : XattrValue J :=
  if looksHex rawValue then
    let bytes := stripWhiteSpace rawValue in
    let buffer := bufferFromHex bytes in
    let decoded := bufferToString buffer in
    if negb (str_eqb decoded [])
       && negb (includesUnit decoded CHAR_REPLACEMENT) then
      match JSON_parse decoded with
      | Some parsed => mkXattr (Parsed parsed) (sizeOfNat (List.length buffer)) utf8
      | None => mkXattr (Text decoded) (sizeOfNat (List.length buffer)) utf8
      end
    else
      mkXattr (Text bytes) (Z.of_nat (List.length bytes) # 2) hex
  else
    match JSON_parse rawValue with
    | Some parsed => mkXattr (Parsed parsed) (sizeOfNat (byteLength rawValue)) utf8
    | None => mkXattr (Text rawValue) (sizeOfNat (byteLength rawValue)) utf8
    end.

End DecodeXattrValue.

(** *** spotlightReindex *)

(** What [spotlightReindex] returns; [path] is the value the caller passed
    when validation failed, and the validated path otherwise. *)
Record ReindexResult := mkReindex {
  reindexPath : jsval;
  queued : bool;
  reindexMessage : jsstring
}.

Section SpotlightReindex.

Variable nfc : jsstring -> jsstring.
Variable cwd : jsstring.
Variable lstatSync : jsstring -> LstatOutcome.
Variable roots : list jsstring.
Variable exec : jsstring -> list jsstring -> ExecOutcome.

Definition spotlightReindex (filePath : jsval) : ReindexResult :=
  match validatePath nfc cwd lstatSync roots filePath with
  | Throw error =>
      mkReindex filePath false
        (js "Path validation failed: " ++ errorMessage error)
  | Return validatedPath =>
      match exec (js "mdimport") [validatedPath] with
      | ExecOk _ =>
          mkReindex (JString validatedPath) true
            (js "Reindex queued successfully")
      | ExecFails message =>
          mkReindex (JString validatedPath) false
            (js "Reindex failed: " ++ sanitizeErrorMessage (JString message))
      end
  end.

End SpotlightReindex.

(** *** getSpotlightAttributes *)

(** The units the regular expression dot does not match: the line
    terminators of ECMA-262. *)
Definition isLineTerminator (c : N) : bool :=
  (c =? 10) || (c =? 13) || (c =? 8232) || (c =? 8233).

(** The text captured by [\s+(.+)$] at the end of a line: the white space
    is taken as far as it goes, and what is left, which must hold no line
    terminator, is the value; when nothing is left, the last unit of the white
    space is given back and becomes the value. *)
Definition captureValue (afterEquals : jsstring) : option jsstring :=
  let '(space, rest) := span isWhiteSpace afterEquals in
  match rest with
  | _ :: _ =>
      match space with
      | [] => None
      | _ => if existsb isLineTerminator rest then None else Some rest
      end
  | [] =>
      match rev space with
      | last :: _ :: _ => if isLineTerminator last then None else Some [last]
      | _ => None
      end
  end.

(** [line.match(/^(\w+)\s+=\s+(.+)$/)]: the name and the value. *)
Definition matchAttributeLine (line : jsstring) : option (jsstring * jsstring) :=
  let '(name, afterName) := span isWord line in
  let '(space, afterSpace) := span isWhiteSpace afterName in
  match name, space, afterSpace with
  | _ :: _, _ :: _, 61 :: afterEquals =>
      match captureValue afterEquals with
      | Some value => Some (name, value)
      | None => None
      end
  | _, _, _ => None
  end.

Definition PROTO : jsstring := js "__proto__".

(** The object [result] while it is filled: its own properties in the order
    they were created, and whether its prototype has been set to [null]. *)
Record AttributeObject := mkObject {
  ownProperties : list (jsstring * SpotlightValue);
  nullPrototype : bool
}.

(** Creating or overwriting an own property. *)
Fixpoint defineProperty {V : Type} (props : list (jsstring * V))
    (name : jsstring) (value : V) : list (jsstring * V) :=
  match props with
  | [] => [(name, value)]
  | (k, v) :: rest =>
      if str_eqb k name then (k, value) :: rest
      else (k, v) :: defineProperty rest name value
  end.

(** [result[name] = value].  As long as [Object.prototype] is on the
    prototype chain, assigning to [__proto__] runs its setter and creates no
    property: [null] becomes the prototype, an array becomes the prototype
    (and leaves [Object.prototype] on the chain), anything else is ignored. *)
Definition assign (result : AttributeObject) (name : jsstring)
    (value : SpotlightValue) : AttributeObject :=
  if str_eqb name PROTO && negb (nullPrototype result) then
    match value with
    | SVNull => mkObject (ownProperties result) true
    | _ => result
    end
  else
    mkObject (defineProperty (ownProperties result) name value)
      (nullPrototype result).

(** [safeAttrs.includes(name)] *)
Definition includesString (values : list jsval) (name : jsstring) : bool :=
  existsb (fun v => match v with
                    | JString s => str_eqb s name
                    | _ => false
                    end) values.

(** The strings of an array of strings. *)
Fixpoint stringsOf (values : list jsval) : list jsstring :=
  match values with
  | [] => []
  | JString s :: rest => s :: stringsOf rest
  | _ :: rest => stringsOf rest
  end.

Section SpotlightAttributes.

Variable exec : jsstring -> list jsstring -> ExecOutcome.

(** The loop over the lines of the output of [mdls]. *)
Definition readAttributeLine (safeAttrs : list jsval)
    (result : AttributeObject) (line : jsstring) : AttributeObject :=
  match matchAttributeLine line with
  | Some (name, value) =>
      if includesString safeAttrs name
      then assign result name (parseSpotlightValue (trim value))
      else result
  | None => result
  end.

(** The object returned, with the properties [Object.keys] lists. *)
Definition getSpotlightAttributes (path : jsstring) (attrs : list jsval)
  : AttributeObject :=
  let result := mkObject [] false in
  let safeAttrs := sanitizeAttributes attrs in
  match safeAttrs with
  | [] => result
  | _ =>
      let args := js "--name" :: stringsOf safeAttrs ++ [path] in
      match exec (js "mdls") args with
      | ExecOk stdout =>
          fold_left (readAttributeLine safeAttrs) (split 10 stdout) result
      | ExecFails _ => result
      end
  end.

End SpotlightAttributes.

(** *** getXattrs and setXattrs *)

Record XattrResult (J : Type) := mkXattrResult {
  xattrPath : jsstring;
  xattrAttributes : list (jsstring * XattrValue J);
  xattrCount : nat
}.
Arguments mkXattrResult {J}.
Arguments xattrPath {J}.
Arguments xattrAttributes {J}.
Arguments xattrCount {J}.

(** A value of the [attrs] argument of [setXattrs]: [null], a string, or an
    object. *)
Inductive AttrValue (O : Type) :=
| AttrNull
| AttrText (s : jsstring)
| AttrObject (o : O).
Arguments AttrNull {O}.
Arguments AttrText {O} s.
Arguments AttrObject {O} o.

Record SetXattrResult := mkSetResult {
  setPath : jsstring;
  setNames : list jsstring;
  deletedNames : list jsstring;
  failedNames : list (jsstring * jsstring)
}.

Section XattrReadWrite.

Variable nfc : jsstring -> jsstring.
Variable cwd : jsstring.
Variable lstatSync : jsstring -> LstatOutcome.
Variable roots : list jsstring.
Variable exec : jsstring -> list jsstring -> ExecOutcome.
Variable J : Type.
Variable JSON_parse : jsstring -> option J.
(** The objects a caller may store, and [JSON.stringify] on them, which
    returns the text or throws an error with a message. *)
Variable O : Type.
Variable JSON_stringify : O -> Completion jsstring jsstring.

(** [attribute && attrName !== attribute] *)
Definition skipAttribute (attribute : option jsstring) (attrName : jsstring)
  : bool :=
  match attribute with
  | Some ((_ :: _) as a) => negb (str_eqb attrName a)
  | _ => false
  end.

(** [attributes[attrName] = decoded] on a plain object: [decoded] is an
    object, so assigning it to [__proto__] changes the prototype and creates
    no property. *)
Definition setAttribute (attributes : list (jsstring * XattrValue J))
    (attrName : jsstring) (decoded : XattrValue J)
  : list (jsstring * XattrValue J) :=
  if str_eqb attrName PROTO then attributes
  else defineProperty attributes attrName decoded.

(** The body of the loop of [getXattrs] for one attribute name: the log
    entries written and the object so far.  The own properties of the object
    are listed in the order they were created. *)
Definition readAttribute (validatedPath : jsstring)
    (attribute : option jsstring) (decodePlist : bool)
    (state : list LogEntry * list (jsstring * XattrValue J))
    (attrName : jsstring)
  : list LogEntry * list (jsstring * XattrValue J) :=
  let '(log, attributes) := state in
  if skipAttribute attribute attrName then state
  else
    match exec (js "xattr") [js "-p"; attrName; validatedPath] with
    | ExecOk stdout =>
        let rawValue := trim stdout in
        let decoded := decodeXattrValue J JSON_parse rawValue decodePlist in
        (log ++ [mkLog (js "get") validatedPath (Some attrName) true],
         setAttribute attributes attrName decoded)
    | ExecFails _ => state
    end.

Definition getXattrs (filePath : jsval) (attribute : option jsstring)
    (decodePlist : bool)
  : list LogEntry * Completion (XattrResult J) jsstring :=
  match validatePath nfc cwd lstatSync roots filePath with
  | Throw e => ([], Throw (errorMessage e))
  | Return validatedPath =>
      match listXattrs nfc cwd lstatSync roots exec (JString validatedPath) with
      | (listLog, Throw error) =>
          (listLog ++ [mkLog (js "get") validatedPath attribute false],
           Throw error)
      | (listLog, Return listed) =>
          let '(log, attributes) :=
            fold_left (readAttribute validatedPath attribute decodePlist)
              (listAttributes listed) (listLog, []) in
          (log,
           Return (mkXattrResult validatedPath attributes
                     (List.length attributes)))
      end
  end.

(** What the loop of [setXattrs] carries: the log and the three lists. *)
Record SetState := mkSetState {
  stateLog : list LogEntry;
  stateSet : list jsstring;
  stateDeleted : list jsstring;
  stateFailed : list (jsstring * jsstring)
}.

(** [typeof value === 'object' ? JSON.stringify(value) : String(value)] for
    a value that is not [null]. *)
Definition valueText (value : AttrValue O) : Completion jsstring jsstring :=
  match value with
  | AttrNull => Return (js "null")
  | AttrText s => Return s
  | AttrObject o => JSON_stringify o
  end.

Definition failed (validatedPath name error : jsstring) (st : SetState)
  : SetState :=
  mkSetState (stateLog st ++ [mkLog (js "set") validatedPath (Some name) false])
    (stateSet st) (stateDeleted st) (stateFailed st ++ [(name, error)]).

(** The body of the loop of [setXattrs] for one entry of [attrs]. *)
Definition writeAttribute (validatedPath : jsstring) (createOnly : bool)
    (existingAttrs : list jsstring) (st : SetState)
    (entry : jsstring * AttrValue O) : SetState :=
  let '(name, value) := entry in
  match value with
  | AttrNull =>
      match exec (js "xattr") [js "-d"; name; validatedPath] with
      | ExecOk _ =>
          mkSetState
            (stateLog st ++ [mkLog (js "delete") validatedPath (Some name) true])
            (stateSet st) (stateDeleted st ++ [name]) (stateFailed st)
      | ExecFails message => failed validatedPath name message st
      end
  | _ =>
      if createOnly && existsb (str_eqb name) existingAttrs then
        mkSetState (stateLog st) (stateSet st) (stateDeleted st)
          (stateFailed st ++ [(name, js "Attribute already exists")])
      else
        match valueText value with
        | Throw message => failed validatedPath name message st
        | Return valueStr =>
            match exec (js "xattr") [js "-w"; name; valueStr; validatedPath] with
            | ExecOk _ =>
                mkSetState
                  (stateLog st ++ [mkLog (js "set") validatedPath (Some name) true])
                  (stateSet st ++ [name]) (stateDeleted st) (stateFailed st)
            | ExecFails message => failed validatedPath name message st
            end
        end
  end.

(** [setXattrs], [attrs] being given by its entries, in the order of
    [Object.entries]. *)
Definition setXattrs (filePath : jsval)
    (attrs : list (jsstring * AttrValue O)) (createOnly : bool)
  : list LogEntry * Completion SetXattrResult jsstring :=
  match validatePath nfc cwd lstatSync roots filePath with
  | Throw e => ([], Throw (errorMessage e))
  | Return validatedPath =>
      let listing :=
        if createOnly
        then listXattrs nfc cwd lstatSync roots exec (JString validatedPath)
        else ([], Return (mkList validatedPath [] 0)) in
      match listing with
      | (listLog, Throw error) => (listLog, Throw error)
      | (listLog, Return listed) =>
          let st :=
            fold_left
              (writeAttribute validatedPath createOnly (listAttributes listed))
              attrs (mkSetState listLog [] [] []) in
          (stateLog st,
           Return (mkSetResult validatedPath (stateSet st) (stateDeleted st)
                     (stateFailed st)))
      end
  end.

End XattrReadWrite.

(** * The HTTP server: [src/http/server.ts]

    [handleRequest] sets the response headers, answers an [OPTIONS] request
    with 204, counts every other request whose URL does not start with
    [/health] against its client address in [rateLimitMap], and then
    dispatches to the routes.  The embedding runs it up to the dispatch: it
    has no [await] before that point, so the steps of two requests do not
    interleave there, and [rateLimitMap] is threaded as the state.  The
    request carries what the function reads: [req.method], [req.url],
    [req.socket.remoteAddress] (each possibly undefined) and the value
    [Date.now()] has when the request is handled, an integer number of
    milliseconds. *)

Definition RATE_LIMIT_WINDOW : Z := 60000.
Definition RATE_LIMIT_MAX : Z := 100.

(** The values of [rateLimitMap]: [{ count, resetTime }]. *)
Record RateEntry := mkEntry {
  entryCount : Z;
  resetTime : Z
}.

(** [rateLimitMap]: a [Map] from client address to entry, with its [get]
    and [set]. *)
Definition RateLimitMap := jsstring -> option RateEntry.

Definition emptyMap : RateLimitMap := fun _ => None.

Definition mapSet (key : jsstring) (value : RateEntry) (m : RateLimitMap)
  : RateLimitMap :=
  fun k => if str_eqb k key then Some value else m k.

Record Request := mkRequest {
  method : option jsstring;
  url : option jsstring;
  remoteAddress : option jsstring;
  now : Z
}.

(** [x || d] on a string that may be undefined: the empty string is falsy
    as well. *)
Definition orDefault (x : option jsstring) (d : jsstring) : jsstring :=
  match x with
  | Some ((_ :: _) as s) => s
  | _ => d
  end.

(** [Math.ceil(a / 1000)] on an integer [a]. *)
Definition ceilSeconds (a : Z) : Z := (- ((- a) / 1000))%Z.

(** How far a request gets: answered 204 as a pre-flight, answered 429 with
    [retryAfter], or passed on to the routes. *)
Inductive Gate :=
| Preflight
| TooManyRequests (retryAfter : Z)
| Dispatch.

Definition handleRequest (req : Request) (rateLimitMap : RateLimitMap)
  : Gate * RateLimitMap :=
  let method := orDefault (method req) (js "GET") in
  let url := orDefault (url req) (js "/") in
  if str_eqb method (js "OPTIONS") then (Preflight, rateLimitMap)
  else if negb (startsWith url (js "/health")) then
    let clientIp := orDefault (remoteAddress req) (js "unknown") in
    let now := now req in
    match rateLimitMap clientIp with
    | None =>
        (Dispatch,
         mapSet clientIp (mkEntry 1 (now + RATE_LIMIT_WINDOW)) rateLimitMap)
    | Some entry =>
        if (now >? resetTime entry)%Z then
          (Dispatch,
           mapSet clientIp (mkEntry 1 (now + RATE_LIMIT_WINDOW)) rateLimitMap)
        else if (entryCount entry >=? RATE_LIMIT_MAX)%Z then
          (TooManyRequests (ceilSeconds (resetTime entry - now)), rateLimitMap)
        else
          (Dispatch,
           mapSet clientIp (mkEntry (entryCount entry + 1) (resetTime entry))
             rateLimitMap)
    end
  else (Dispatch, rateLimitMap).

(** * Signal types: [src/interlock/signal-types.ts]

    Signal types are natural numbers that JavaScript prints in decimal
    digits.  The five the file takes from [SignalTypes] of the package
    [@bop/interlock] are parameters. *)

Module FG_SIGNALS.
Definition XATTR_QUERY : N := 0x70.
Definition XATTR_LIST : N := 0x71.
Definition XATTR_QUERY_RESPONSE : N := 0x72.
Definition XATTR_LIST_RESPONSE : N := 0x73.
Definition SPOTLIGHT_QUERY : N := 0x74.
Definition SPOTLIGHT_QUERY_RESPONSE : N := 0x75.
Definition SPOTLIGHT_INDEXED : N := 0x76.
Definition WATCH_LIST : N := 0x77.
Definition WATCH_LIST_RESPONSE : N := 0x78.
Definition FS_WATCH_EVENT : N := 0x79.
Definition FILE_METADATA_REQUEST : N := 0x7A.
Definition FILE_METADATA_RESPONSE : N := 0x7B.
Definition STATUS_REQUEST : N := 0x7C.
Definition STATUS_RESPONSE : N := 0x7D.
Definition FS_XATTR_UPDATED : N := 0x7E.
End FG_SIGNALS.

(** The members of [SignalTypes] that are used. *)
Record SignalTypesOf := mkSignalTypes {
  PING : N;
  PONG : N;
  HEARTBEAT : N;
  DOCK_REQUEST : N;
  DISCONNECT : N
}.

(** An own property of an object, by name. *)
Fixpoint getOwnProperty {V : Type} (props : list (jsstring * V))
    (name : jsstring) : option V :=
  match props with
  | [] => None
  | (k, v) :: rest =>
      if str_eqb k name then Some v else getOwnProperty rest name
  end.

(** The properties an object literal inherits from [Object.prototype]; none
    of them is [null] or [undefined]. *)
Definition objectPrototypeKeys : list jsstring :=
  [js "constructor"; js "__defineGetter__"; js "__defineSetter__";
   js "hasOwnProperty"; js "__lookupGetter__"; js "__lookupSetter__";
   js "isPrototypeOf"; js "propertyIsEnumerable"; js "toString";
   js "valueOf"; js "__proto__"; js "toLocaleString"].

(** [Object.fromEntries]: the properties are defined one after the other, a
    later entry overwriting an earlier one of the same key. *)
Definition fromEntries {V : Type} (entries : list (jsstring * V))
  : list (jsstring * V) :=
  fold_left (fun o entry => defineProperty o (fst entry) (snd entry))
    entries [].

(** The property key of a number. *)
Definition numberKey (n : N) : jsstring :=
  js (DecimalString.NilEmpty.string_of_uint (N.to_uint n)).

(** [n.toString(16)] *)
Definition toString16 (n : N) : jsstring :=
  js (HexadecimalString.NilEmpty.string_of_uint (N.to_hex_uint n)).

(** What [STRING_TO_NUMERIC[stringType] ?? SignalTypes.PING] evaluates to: a
    number, or the member of [Object.prototype] of that name. *)
Inductive SignalType :=
| Numeric (n : N)
| Inherited (name : jsstring).

Section SignalTypes.

Variable SignalTypes : SignalTypesOf.

Definition STRING_TO_NUMERIC : list (jsstring * N) :=
  [(js "ping", PING SignalTypes);
   (js "pong", PONG SignalTypes);
   (js "heartbeat", HEARTBEAT SignalTypes);
   (js "announce", DOCK_REQUEST SignalTypes);
   (js "departure", DISCONNECT SignalTypes);
   (js "status_request", FG_SIGNALS.STATUS_REQUEST);
   (js "xattr_query", FG_SIGNALS.XATTR_QUERY);
   (js "xattr_list", FG_SIGNALS.XATTR_LIST);
   (js "spotlight_query", FG_SIGNALS.SPOTLIGHT_QUERY);
   (js "watch_list", FG_SIGNALS.WATCH_LIST);
   (js "file_metadata_request", FG_SIGNALS.FILE_METADATA_REQUEST)].

Definition NUMERIC_TO_STRING : list (jsstring * jsstring) :=
  fromEntries
    (List.map (fun entry => (numberKey (snd entry), fst entry))
       STRING_TO_NUMERIC).

Definition getSignalType (stringType : jsstring) : SignalType :=
  match getOwnProperty STRING_TO_NUMERIC stringType with
  | Some n => Numeric n
  | None =>
      if existsb (str_eqb stringType) objectPrototypeKeys
      then Inherited stringType
      else Numeric (PING SignalTypes)
  end.

Definition getSignalName (numericType : N) : jsstring :=
  match getOwnProperty NUMERIC_TO_STRING (numberKey numericType) with
  | Some name => name
  | None => js "unknown_0x" ++ toString16 numericType
  end.

End SignalTypes.

(** * Vocabulary of the properties

    The predicates the statements below are written with, and the inputs
    and environments they are evaluated on. *)

(** The identifier grammar, [^[A-Za-z_][A-Za-z0-9_]*$], in words: a letter
    or an underscore, then letters, digits and underscores. *)
Definition IdentifierStart (c : N) : Prop :=
  (65 <= c <= 90) \/ (97 <= c <= 122) \/ c = 95.

Definition IdentifierPart (c : N) : Prop :=
  IdentifierStart c \/ (48 <= c <= 57).

Inductive Identifier : jsstring -> Prop :=
| Identifier_intro (c : N) (rest : jsstring) :
    IdentifierStart c -> Forall IdentifierPart rest -> Identifier (c :: rest).

(** A token that may be kept: a non-empty string of the grammar. *)
Definition GoodToken (v : jsval) : Prop :=
  exists s, v = JString s /\ s <> [] /\ Identifier s.

(** A token that must go: not a string, the empty string, or a string
    outside the grammar. *)
Definition BadToken (v : jsval) : Prop :=
  (forall s, v <> JString s) \/ v = JString []
  \/ (exists s, v = JString s /\ ~ Identifier s).

(** [sub] is [l] with some elements left out, the others in their order. *)
Inductive Subsequence {A : Type} : list A -> list A -> Prop :=
| Subsequence_nil : Subsequence [] []
| Subsequence_keep (x : A) (sub l : list A) :
    Subsequence sub l -> Subsequence (x :: sub) (x :: l)
| Subsequence_drop (x : A) (sub l : list A) :
    Subsequence sub l -> Subsequence sub (x :: l).

(** A string in double quotes. *)
Definition quoted (s : jsstring) : jsstring := CHAR_QUOTE :: s ++ [CHAR_QUOTE].

(** The text the hexadecimal digits of [rawValue] stand for. *)
Definition hexText (rawValue : jsstring) : jsstring :=
  bufferToString (bufferFromHex (stripWhiteSpace rawValue)).

(** The number of bytes the digits give. *)
Definition hexByteCount (rawValue : jsstring) : nat :=
  List.length (bufferFromHex (stripWhiteSpace rawValue)).

(** The test [decoded && !decoded.includes(U+FFFD)]. *)
Definition cleanText (decoded : jsstring) : Prop :=
  decoded <> [] /\ ~ In CHAR_REPLACEMENT decoded.

(** The number of escapes among the items. *)
Fixpoint octetCount (items : list uriItem) : nat :=
  match items with
  | [] => 0%nat
  | Lit _ :: r => octetCount r
  | Octet _ :: r => S (octetCount r)
  end.

(** [t] comes from [s] by successful calls of [decodeURIComponent]. *)
Inductive DecodeChain : jsstring -> jsstring -> Prop :=
| DecodeChain_here (s : jsstring) : DecodeChain s s
| DecodeChain_step (s t u : jsstring) :
    decodeURIComponent s = Some t -> DecodeChain t u -> DecodeChain s u.

(** Where the loop stops: on a string [decodeURIComponent] leaves as it is,
    or on one it rejects. *)
Definition DecodeStops (d : jsstring) : Prop :=
  decodeURIComponent d = Some d \/ decodeURIComponent d = None.

(** A letter under [n + 1] layers of percent-encoding: [%41] is [A], and
    each layer writes the [%] before it as [%25]. *)
Definition layerDigits (n : nat) : jsstring :=
  List.concat (repeat (js "25") n) ++ js "41".

Definition layered (n : nat) : jsstring := CHAR_PERCENT :: layerDigits n.

(** What is assumed of [String.prototype.normalize('NFC')]: a string whose
    code units all lie below U+0300, the first character that takes part in
    a composition, is already in normal form. *)
Definition NfcFixesLatin (nfc : jsstring -> jsstring) : Prop :=
  forall s, forallb (fun c => c <? 768) s = true -> nfc s = s.

(** [p] is [root] or lies below it: it starts with [root] followed by the
    separator. *)
Definition Under (p root : jsstring) : Prop :=
  p = root \/ exists rest, p = root ++ sep ++ rest.

Definition traversalInput : jsstring := js "/root/allowed/../../../etc/passwd".

(** A file system with no entry at all. *)
Definition emptyFileSystem (p : jsstring) : LstatOutcome :=
  LstatThrows (js "ENOENT") (js "ENOENT: no such file or directory, lstat").

(** A file system in which [/tmp] is a symbolic link, as it is on macOS,
    and nothing else exists. *)
Definition tmpIsSymlink (p : jsstring) : LstatOutcome :=
  if str_eqb p (js "/tmp") then Stats true else emptyFileSystem p.

(** A path under the second root of [ALLOWED_ROOTS] with a null character
    and, after it, a percent-encoded one. *)
Definition nullInput : jsstring :=
  js "/Users/macbook/Documents/Dropository/a" ++ [CHAR_NUL] ++ js "%00b".

Definition nullOutput : jsstring :=
  js "/Users/macbook/Documents/Dropository/a" ++ [CHAR_NUL] ++ js "b".

(** What [lstatSync] does with a path that holds a null character. *)
Definition refusesNullBytes (p : jsstring) : LstatOutcome :=
  if includesUnit p CHAR_NUL
  then LstatThrows (js "ERR_INVALID_ARG_VALUE")
         (js "The argument 'path' must be a string without null bytes")
  else emptyFileSystem p.

Definition secretFile : jsstring :=
  js "/Users/macbook/Documents/Dropository/private/notes.txt".

(** A child process that fails the way [execFile] reports it, the command
    line in the message. *)
Definition failingExec (file : jsstring) (args : list jsstring) : ExecOutcome :=
  ExecFails (js "Command failed: " ++ file ++ js " " ++ join 32 args).

(** A segment [normalizeString] keeps when it may not climb above the
    root: not empty, neither [.] nor [..], and free of slashes. *)
Definition CleanSegment (seg : jsstring) : Prop :=
  seg <> [] /\ seg <> DOT /\ seg <> DOTDOT /\ ~ In CHAR_FORWARD_SLASH seg.

(** An absolute path in normal form: a slash, then clean segments with one
    slash between them. *)
Definition absolutePath (segs : list jsstring) : jsstring :=
  CHAR_FORWARD_SLASH :: join CHAR_FORWARD_SLASH segs.

(** What else is assumed of NFC where it matters: normalizing does not
    bring in a null character or a percent sign that was not there (no
    character decomposes into either). *)
Definition NfcAddsNoNullOrPercent (nfc : jsstring -> jsstring) : Prop :=
  forall s c, c = CHAR_NUL \/ c = CHAR_PERCENT -> In c (nfc s) -> In c s.

(** Whether a text still shows the beginning of an absolute path: a slash
    followed by a unit of [[\w\-._]]. *)
Fixpoint hasSlashPath (t : jsstring) : bool :=
  match t with
  | [] => false
  | a :: r =>
      match r with
      | b :: _ => (a =? CHAR_FORWARD_SLASH) && isPathUnit b
      | [] => false
      end || hasSlashPath r
  end.

(** The text is empty or starts with a unit outside [[\w\-._]]. *)
Definition headPlain (t : jsstring) : Prop :=
  match t with
  | [] => True
  | c :: _ => isPathUnit c = false
  end.

Definition CHAR_BRACKET : N := 91.

(** A text in which an opening bracket only ever starts a placeholder, and
    every placeholder is followed by a unit outside [[\w\-._]] or by the end
    of the text. *)
Inductive WellMarked : jsstring -> Prop :=
| WellMarked_end : WellMarked []
| WellMarked_unit (c : N) (t : jsstring) :
    c <> CHAR_BRACKET -> WellMarked t -> WellMarked (c :: t)
| WellMarked_placeholder (t : jsstring) :
    headPlain t -> WellMarked t -> WellMarked (PATH_PLACEHOLDER ++ t).

(** The directories [spotlightSearch] hands to [mdfind]. *)
Fixpoint validatedScope (nfc : jsstring -> jsstring) (cwd : jsstring)
    (lstatSync : jsstring -> LstatOutcome) (roots : list jsstring)
    (scope : list jsval) : list jsstring :=
  match scope with
  | [] => []
  | dir :: rest =>
      match validatePath nfc cwd lstatSync roots dir with
      | Return validatedDir =>
          validatedDir :: validatedScope nfc cwd lstatSync roots rest
      | Throw _ => validatedScope nfc cwd lstatSync roots rest
      end
  end.

(** Two child-process behaviours that cannot be told apart by running
    [xattr] with a path under a sandbox root as its last argument. *)
Definition AgreeOnValidated (roots : list jsstring)
    (exec1 exec2 : jsstring -> list jsstring -> ExecOutcome) : Prop :=
  forall args p root,
    In root roots -> Under p (normalize root) ->
    exec1 (js "xattr") (args ++ [p]) = exec2 (js "xattr") (args ++ [p]).

(** A child process that gives the content of [/etc/passwd] away when it is
    asked about that file, and finds nothing elsewhere. *)
Definition leakyExec (file : jsstring) (args : list jsstring) : ExecOutcome :=
  if str_eqb (last args []) (js "/etc/passwd")
  then ExecOk (js "root:*:0:0")
  else ExecOk [].

(** The lower-case hexadecimal digit of a value below sixteen. *)
Definition hexDigitOf (n : N) : N := if n <? 10 then 48 + n else 87 + n.

(** Bytes written as hexadecimal digits, two for each byte. *)
Definition toHex (bytes : list N) : jsstring :=
  flat_map (fun b => [hexDigitOf (b / 16); hexDigitOf (b mod 16)]) bytes.

(** ** Runs of the server

    A run handles the requests of a list one after the other, each on the
    map the one before left. *)

(** The map after the requests. *)
Definition serve (reqs : list Request) (m : RateLimitMap) : RateLimitMap :=
  fold_left (fun m req => snd (handleRequest req m)) reqs m.

(** How far each request got. *)
Fixpoint outcomes (reqs : list Request) (m : RateLimitMap) : list Gate :=
  match reqs with
  | [] => []
  | req :: rest =>
      fst (handleRequest req m) :: outcomes rest (snd (handleRequest req m))
  end.

(** The address a request is counted against. *)
Definition clientOf (req : Request) : jsstring :=
  orDefault (remoteAddress req) (js "unknown").

(** The requests the limiter counts: not [OPTIONS], URL not starting with
    [/health]. *)
Definition limited (req : Request) : bool :=
  negb (str_eqb (orDefault (method req) (js "GET")) (js "OPTIONS"))
  && negb (startsWith (orDefault (url req) (js "/")) (js "/health")).

Definition isDispatch (g : Gate) : bool :=
  match g with Dispatch => true | _ => false end.

(** The number of the counted requests of [clientIp] that reach the routes. *)
Fixpoint dispatched (clientIp : jsstring) (reqs : list Request)
  (m : RateLimitMap) : nat :=
  match reqs with
  | [] => 0
  | req :: rest =>
      ((if limited req && str_eqb (clientOf req) clientIp
           && isDispatch (fst (handleRequest req m))
        then 1 else 0)
       + dispatched clientIp rest (snd (handleRequest req m)))%nat
  end.

(** The request starts a window of its client: the map has no entry for it,
    or one whose [resetTime] has passed. *)
Definition opensWindow (req : Request) (m : RateLimitMap) : bool :=
  match m (clientOf req) with
  | None => true
  | Some entry => (now req >? resetTime entry)%Z
  end.

(** The clock readings of the requests do not go back, starting at [t]. *)
Fixpoint clockFrom (t : Z) (reqs : list Request) : Prop :=
  match reqs with
  | [] => True
  | req :: rest => (t <= now req)%Z /\ clockFrom (now req) rest
  end.

Definition monotoneClock (reqs : list Request) : Prop :=
  match reqs with
  | [] => True
  | req :: rest => clockFrom (now req) rest
  end.

Definition apiRequest (address : string) (t : Z) : Request :=
  mkRequest (Some (js "GET")) (Some (js "/api/watches")) (Some (js address)) t.

(** Every entry of a map the server reaches has counted one request at
    least. *)
Definition Counted (m : RateLimitMap) : Prop :=
  forall clientIp entry, m clientIp = Some entry -> (1 <= entryCount entry)%Z.

(** No entry's [resetTime] lies more than a window after [t]. *)
Definition WithinWindow (m : RateLimitMap) (t : Z) : Prop :=
  forall clientIp entry,
    m clientIp = Some entry -> (resetTime entry <= t + RATE_LIMIT_WINDOW)%Z.

(** A 429 answer tells the client to retry after 0 to 60 seconds. *)
Definition retryWithinMinute (g : Gate) : Prop :=
  match g with
  | TooManyRequests retryAfter => (0 <= retryAfter <= 60)%Z
  | _ => True
  end.

(** [n] requests of one client at one clock reading. *)
Definition burst (address : string) (t : Z) (n : nat) : list Request :=
  repeat (apiRequest address t) n.

(** ** What the loops keep true *)

(** What the loop over the lines keeps true of the object. *)
Definition KeysAmong (safeAttrs : list jsval) (result : AttributeObject) : Prop :=
  NoDup (List.map fst (ownProperties result))
  /\ forall k, In k (List.map fst (ownProperties result)) ->
               In (JString k) safeAttrs.

(** The names reported so far are the names handled so far. *)
Definition Accounted (st : SetState) (handled : list jsstring) : Prop :=
  Permutation handled
    (stateSet st ++ stateDeleted st ++ List.map fst (stateFailed st))
  /\ Subsequence (stateSet st) handled
  /\ Subsequence (stateDeleted st) handled
  /\ Subsequence (List.map fst (stateFailed st)) handled.

(** Where the names of the three lists come from. *)
Definition Sourced (O : Type) (createOnly : bool)
    (existingAttrs : list jsstring)
    (attrs : list (jsstring * AttrValue O)) (st : SetState) : Prop :=
  (forall name, In name (stateSet st) ->
     (createOnly = true -> ~ In name existingAttrs)
     /\ exists value, In (name, value) attrs /\ value <> AttrNull)
  /\ (forall name, In name (stateDeleted st) -> In (name, AttrNull) attrs).

(** What the loop of [getXattrs] keeps true of the object it fills. *)
Definition ReadKeys (J : Type) (attribute : option jsstring)
    (listed : list jsstring)
    (attributes : list (jsstring * XattrValue J)) : Prop :=
  NoDup (List.map fst attributes)
  /\ forall k, In k (List.map fst attributes) ->
       k <> PROTO /\ skipAttribute attribute k = false /\ In k listed.

(** A path under a root that validates to one outside every root when it
    is validated a second time. *)
Definition escapedTraversal : jsstring :=
  js "/Users/macbook/Documents/Dropository/%zz/../%2e%2e/%2e%2e/%2e%2e/etc".

(** * Properties *)

(** ** Strings *)

Lemma str_eqb_eq (a b : jsstring) : str_eqb a b = true <-> a = b.
Proof.
  revert b; induction a as [|x a IH]; intros [|y b]; simpl;
    try (split; (reflexivity || discriminate)).
  rewrite andb_true_iff, N.eqb_eq, IH.
  split; [intros [-> ->]; reflexivity | intros [= -> ->]; auto].
Qed.

Lemma str_eqb_refl (a : jsstring) : str_eqb a a = true.
Proof. apply str_eqb_eq; reflexivity. Qed.

Lemma str_eqb_neq (a b : jsstring) : str_eqb a b = false <-> a <> b.
Proof.
  rewrite <- str_eqb_eq. destruct (str_eqb a b); split; congruence.
Qed.

Lemma startsWith_prefix (s p : jsstring) :
  startsWith s p = true <-> exists rest, s = p ++ rest.
Proof.
  revert s; induction p as [|y p IH]; intros s; simpl.
  - split; [exists s; reflexivity | destruct s; reflexivity].
  - destruct s as [|x s].
    + simpl. split; [discriminate | intros [rest H]; discriminate].
    + simpl. rewrite andb_true_iff, N.eqb_eq, IH. split.
      * intros [-> [rest ->]]; exists rest; reflexivity.
      * intros [rest [= -> ->]]; split; [reflexivity | exists rest; reflexivity].
Qed.

(** ** sanitizeAttributes *)

Lemma inRange_spec (lo hi c : N) : inRange lo hi c = true <-> lo <= c <= hi.
Proof.
  unfold inRange. rewrite andb_true_iff, !N.leb_le. reflexivity.
Qed.

Lemma isAlpha_start (c : N) :
  isAlpha c || (c =? 95) = true <-> IdentifierStart c.
Proof.
  unfold isAlpha, isLower, isUpper, IdentifierStart.
  rewrite !orb_true_iff, !inRange_spec, N.eqb_eq. tauto.
Qed.

Lemma isWord_part (c : N) : isWord c = true <-> IdentifierPart c.
Proof.
  unfold isWord, IdentifierPart, isDigit.
  rewrite orb_true_iff, <- isAlpha_start, !orb_true_iff, inRange_spec, N.eqb_eq.
  tauto.
Qed.

Lemma VALID_ATTRIBUTE_PATTERN_spec (s : jsstring) :
  VALID_ATTRIBUTE_PATTERN s = true <-> Identifier s.
Proof.
  destruct s as [|c r]; simpl.
  - split; [discriminate | inversion 1].
  - rewrite andb_true_iff, isAlpha_start, forallb_forall.
    split.
    + intros [Hc Hr]. constructor; [exact Hc |].
      apply Forall_forall. intros x Hx. apply isWord_part, Hr, Hx.
    + inversion 1 as [c' r' Hc Hr]; subst. split; [exact Hc |].
      intros x Hx. apply isWord_part.
      rewrite Forall_forall in Hr. apply Hr, Hx.
Qed.

Lemma keepAttribute_spec (v : jsval) : keepAttribute v = true <-> GoodToken v.
Proof.
  unfold GoodToken.
  destruct v as [| |b|n|s|]; simpl;
    try (split; [discriminate | intros (s' & H & _); discriminate]).
  - destruct b; simpl; (split; [discriminate | intros (s' & H & _); discriminate]).
  - destruct n as [|neg|neg [|p] e]; simpl;
      (split; [discriminate | intros (s' & H & _); discriminate]).
  - destruct s as [|c r].
    + simpl. split; [discriminate | intros (s' & [= <-] & Hne & _); congruence].
    + unfold keepAttribute. cbn [orb negb isString falsy].
      destruct (VALID_ATTRIBUTE_PATTERN (c :: r)) eqn:E; cbn [negb].
      * split; [| reflexivity]. intros _. exists (c :: r).
        split; [reflexivity |]. split; [discriminate |].
        apply VALID_ATTRIBUTE_PATTERN_spec, E.
      * split; [discriminate |]. intros (s' & [= <-] & _ & Hid).
        apply VALID_ATTRIBUTE_PATTERN_spec in Hid. congruence.
Qed.

Lemma keepAttribute_false (v : jsval) : keepAttribute v = false -> BadToken v.
Proof.
  intros H. destruct v as [| |b|n|s|];
    try (left; intros s'; discriminate).
  destruct s as [|c r]; [right; left; reflexivity |].
  right; right. exists (c :: r). split; [reflexivity |].
  intros Hid. apply VALID_ATTRIBUTE_PATTERN_spec in Hid.
  unfold keepAttribute in H. cbn [orb negb isString falsy] in H.
  rewrite Hid in H. discriminate H.
Qed.

Lemma filter_subsequence {A : Type} (f : A -> bool) (l : list A) :
  Subsequence (filter f l) l.
Proof.
  induction l as [|x l IH]; simpl.
  - constructor.
  - destruct (f x); constructor; exact IH.
Qed.

(** C6. [sanitizeAttributes] returns a subsequence of its input, in the
    input's order; every element it keeps is a non-empty string of the
    identifier grammar; an element, at whatever position, is kept when it is
    such a string and dropped when it is not a string, is empty or violates
    the grammar; and the three tokens of the specification give the two
    expected ones. *)
Theorem sanitizeAttributes_subsequence :
  (forall attrs, Subsequence (sanitizeAttributes attrs) attrs)
  /\ (forall attrs, Forall GoodToken (sanitizeAttributes attrs))
  /\ (forall before v after,
         (GoodToken v /\
          sanitizeAttributes (before ++ v :: after) =
            sanitizeAttributes before ++ v :: sanitizeAttributes after)
         \/ (BadToken v /\ ~ GoodToken v /\
             sanitizeAttributes (before ++ v :: after) =
               sanitizeAttributes before ++ sanitizeAttributes after))
  /\ sanitizeAttributes
       [JString (js "kMDItemDisplayName"); JString (js "kMDItem; rm -rf /");
        JString (js "_ok1")]
     = [JString (js "kMDItemDisplayName"); JString (js "_ok1")].
Proof.
  repeat split.
  - intros attrs. apply filter_subsequence.
  - intros attrs. apply Forall_forall. intros v Hv.
    apply filter_In in Hv. apply keepAttribute_spec, Hv.
  - intros before v after. unfold sanitizeAttributes.
    rewrite filter_app. simpl.
    destruct (keepAttribute v) eqn:E.
    + left. split; [apply keepAttribute_spec, E | reflexivity].
    + right. split; [apply keepAttribute_false, E |]. split; [| reflexivity].
      intros H. apply keepAttribute_spec in H. congruence.
Qed.

(** ** parseSpotlightValue *)

(** C7. [parseSpotlightValue] on the literals of the specification:
    [(null)] is null, a parenthesised list of quoted words is the list of the
    words, a quoted word is the word, [42] is the number 42 and [42abc] stays
    the string it is. *)
Theorem parseSpotlightValue_literals :
  parseSpotlightValue (js "(null)") = SVNull
  /\ parseSpotlightValue
       (js "(" ++ quoted (js "Red") ++ js ", " ++ quoted (js "Blue") ++ js ")")
     = SVArray [js "Red"; js "Blue"]
  /\ parseSpotlightValue (quoted (js "hello")) = SVString (js "hello")
  /\ parseSpotlightValue (js "42") = SVNumber (Num false 42 0)
  /\ parseSpotlightValue (js "42abc") = SVString (js "42abc").
Proof.
  repeat split; vm_compute; reflexivity.
Qed.

Lemma trimStart_whitespace (s : jsstring) :
  forallb isWhiteSpace s = true -> trimStart s = [].
Proof.
  induction s as [|c r IH]; simpl; [reflexivity |].
  intros H. apply andb_true_iff in H as [Hc Hr].
  rewrite Hc. apply IH, Hr.
Qed.

Lemma trim_whitespace (s : jsstring) :
  forallb isWhiteSpace s = true -> trim s = [].
Proof.
  intros H. unfold trim. rewrite (trimStart_whitespace s H). reflexivity.
Qed.

Lemma whitespace_not_delimiter (c : N) :
  isWhiteSpace c = true -> (c =? 40) = false /\ (c =? CHAR_QUOTE) = false.
Proof.
  intros H. split.
  - destruct (N.eqb_spec c 40) as [->|]; [discriminate H | reflexivity].
  - destruct (N.eqb_spec c CHAR_QUOTE) as [->|]; [discriminate H | reflexivity].
Qed.

(** C10. On the empty string, and on any value made of white space only,
    [parseSpotlightValue] returns the number 0: [Number] reads a blank text as
    zero, so the numeric branch takes it. *)
Theorem parseSpotlightValue_blank_is_zero (value : jsstring) :
  forallb isWhiteSpace value = true ->
  parseSpotlightValue value = SVNumber (Num false 0 0).
Proof.
  intros H. unfold parseSpotlightValue.
  assert (Hnum : toNumber value = Num false 0 0).
  { unfold toNumber. rewrite (trim_whitespace value H). reflexivity. }
  destruct value as [|c r].
  - reflexivity.
  - simpl in H. apply andb_true_iff in H as [Hc _].
    destruct (whitespace_not_delimiter c Hc) as [Hparen Hquote].
    assert (E1 : str_eqb (c :: r) (js "(null)") = false).
    { change (js "(null)") with (40 :: js "null)"). simpl. rewrite Hparen.
      reflexivity. }
    assert (E2 : startsWith (c :: r) (js "(") = false).
    { change (js "(") with [40]. simpl. rewrite Hparen. reflexivity. }
    assert (E3 : startsWith (c :: r) [CHAR_QUOTE] = false).
    { simpl. rewrite Hquote. reflexivity. }
    rewrite E1, E2, E3, Hnum. reflexivity.
Qed.

Lemma parseSpotlightValue_blank_is_zero_witness :
  parseSpotlightValue [] = SVNumber (Num false 0 0)
  /\ parseSpotlightValue (js "   ") = SVNumber (Num false 0 0).
Proof.
  split.
  - apply (parseSpotlightValue_blank_is_zero []). reflexivity.
  - apply (parseSpotlightValue_blank_is_zero (js "   ")). reflexivity.
Defined.

(** ** decodeXattrValue *)

Section DecodeXattrValueProperties.

Variable J : Type.
Variable JSON_parse : jsstring -> option J.

Lemma includesUnit_In (s : jsstring) (c : N) :
  includesUnit s c = true <-> In c s.
Proof.
  unfold includesUnit. rewrite existsb_exists. split.
  - intros (x & Hx & E). apply N.eqb_eq in E. subst. exact Hx.
  - intros H. exists c. split; [exact H | apply N.eqb_refl].
Qed.

Lemma cleanText_test (decoded : jsstring) :
  negb (str_eqb decoded []) && negb (includesUnit decoded CHAR_REPLACEMENT)
  = true <-> cleanText decoded.
Proof.
  unfold cleanText.
  rewrite andb_true_iff, !negb_true_iff, str_eqb_neq.
  rewrite <- includesUnit_In.
  destruct (includesUnit decoded CHAR_REPLACEMENT); intuition congruence.
Qed.

(** The three outcomes of the hexadecimal branch. *)
Lemma decodeXattrValue_hex_branch (rawValue : jsstring) (decodePlist : bool) :
  looksHex rawValue = true ->
  (cleanText (hexText rawValue) ->
   forall parsed, JSON_parse (hexText rawValue) = Some parsed ->
     decodeXattrValue J JSON_parse rawValue decodePlist
     = mkXattr (Parsed parsed) (sizeOfNat (hexByteCount rawValue)) utf8)
  /\ (cleanText (hexText rawValue) ->
      JSON_parse (hexText rawValue) = None ->
      decodeXattrValue J JSON_parse rawValue decodePlist
      = mkXattr (Text (hexText rawValue))
          (sizeOfNat (hexByteCount rawValue)) utf8)
  /\ (~ cleanText (hexText rawValue) ->
      decodeXattrValue J JSON_parse rawValue decodePlist
      = mkXattr (Text (stripWhiteSpace rawValue))
          (Z.of_nat (List.length (stripWhiteSpace rawValue)) # 2) hex).
Proof.
  intros Hhex. unfold decodeXattrValue. rewrite Hhex.
  fold (hexText rawValue). fold (hexByteCount rawValue).
  pose proof (cleanText_test (hexText rawValue)) as Htest.
  destruct (negb (str_eqb (hexText rawValue) [])
            && negb (includesUnit (hexText rawValue) CHAR_REPLACEMENT)).
  - repeat split.
    + intros _ parsed ->. reflexivity.
    + intros _ ->. reflexivity.
    + intros Hn. exfalso. apply Hn, Htest. reflexivity.
  - assert (Hn : ~ cleanText (hexText rawValue)).
    { intros Hc. apply Htest in Hc. discriminate. }
    repeat split; intros; tauto || reflexivity.
Qed.

End DecodeXattrValueProperties.

(** C8 (amended). For a raw value made of hexadecimal digits and white
    space only: when the bytes decode to a non-empty text with no replacement
    character and [JSON.parse] accepts the text, the parsed value is returned
    tagged [utf8] (the code has no [json] tag), with the number of bytes as
    size; when [JSON.parse] rejects it, the text is returned tagged [utf8];
    and when the text is empty or holds a replacement character, the digits
    with the white space removed are returned tagged [hex], the size being
    half their number. *)
Theorem decodeXattrValue_hex_tags (J : Type) (JSON_parse : jsstring -> option J)
    (rawValue : jsstring) (decodePlist : bool) :
  looksHex rawValue = true ->
  (cleanText (hexText rawValue) ->
   forall parsed, JSON_parse (hexText rawValue) = Some parsed ->
     decodeXattrValue J JSON_parse rawValue decodePlist
     = mkXattr (Parsed parsed) (sizeOfNat (hexByteCount rawValue)) utf8)
  /\ (cleanText (hexText rawValue) ->
      JSON_parse (hexText rawValue) = None ->
      decodeXattrValue J JSON_parse rawValue decodePlist
      = mkXattr (Text (hexText rawValue))
          (sizeOfNat (hexByteCount rawValue)) utf8)
  /\ (~ cleanText (hexText rawValue) ->
      decodeXattrValue J JSON_parse rawValue decodePlist
      = mkXattr (Text (stripWhiteSpace rawValue))
          (Z.of_nat (List.length (stripWhiteSpace rawValue)) # 2) hex).
Proof.
  apply decodeXattrValue_hex_branch.
Qed.

Lemma cleanText_braces : cleanText (hexText (js "7b 7d")).
Proof.
  split; vm_compute; [discriminate | intros [H | [H | []]]; discriminate H].
Qed.

Lemma decodeXattrValue_hex_tags_witness :
  decodeXattrValue nat (fun _ => Some 7%nat) (js "7b 7d") true
  = mkXattr (Parsed 7%nat) (sizeOfNat 2) utf8.
Proof.
  apply (proj1 (decodeXattrValue_hex_tags nat (fun _ => Some 7%nat)
                  (js "7b 7d") true eq_refl) cleanText_braces 7%nat eq_refl).
Defined.

(** The digits [7b7d] are the text of an empty JSON object; whatever
    [JSON.parse] makes of it, the value comes back tagged [utf8], not
    [json]. *)
Lemma decodeXattrValue_never_json :
  exists rawValue,
    looksHex rawValue = true
    /\ hexText rawValue = js "{}"
    /\ cleanText (hexText rawValue)
    /\ forall (J : Type) (JSON_parse : jsstring -> option J) decodePlist parsed,
         JSON_parse (hexText rawValue) = Some parsed ->
         encoding (decodeXattrValue J JSON_parse rawValue decodePlist) = utf8
         /\ encoding (decodeXattrValue J JSON_parse rawValue decodePlist)
            <> json.
Proof.
  exists (js "7b7d"). repeat split.
  - vm_compute. discriminate.
  - vm_compute. intros [H | [H | []]]; discriminate H.
  - unfold decodeXattrValue.
    change (looksHex (js "7b7d")) with true. cbv iota.
    change (bufferToString (bufferFromHex (stripWhiteSpace (js "7b7d"))))
      with (hexText (js "7b7d")).
    change (negb (str_eqb (hexText (js "7b7d")) [])
            && negb (includesUnit (hexText (js "7b7d")) CHAR_REPLACEMENT))
      with true.
    cbv iota. rewrite H. reflexivity.
  - unfold decodeXattrValue.
    change (looksHex (js "7b7d")) with true. cbv iota.
    change (bufferToString (bufferFromHex (stripWhiteSpace (js "7b7d"))))
      with (hexText (js "7b7d")).
    change (negb (str_eqb (hexText (js "7b7d")) [])
            && negb (includesUnit (hexText (js "7b7d")) CHAR_REPLACEMENT))
      with true.
    cbv iota. rewrite H. discriminate.
Qed.

Lemma half_of_odd_not_integer (n : nat) :
  Nat.odd n = true -> forall k : Z, ~ (Z.of_nat n # 2 == inject_Z k)%Q.
Proof.
  intros Hodd k Heq. unfold Qeq, inject_Z in Heq. simpl in Heq.
  apply Nat.odd_spec in Hodd. destruct Hodd as [m ->]. lia.
Qed.

(** C9. A raw value with an odd number of hexadecimal digits, white space
    aside, whose bytes (the last digit dropped) do not decode to a non-empty
    text free of replacement characters, is not rejected: the digits without
    the white space are returned, tagged [hex], with half the number of
    digits as size, which is not an integer. *)
Theorem decodeXattrValue_odd_hex (J : Type) (JSON_parse : jsstring -> option J)
    (rawValue : jsstring) (decodePlist : bool) :
  looksHex rawValue = true ->
  Nat.odd (List.length (stripWhiteSpace rawValue)) = true ->
  ~ cleanText (hexText rawValue) ->
  decodeXattrValue J JSON_parse rawValue decodePlist
  = mkXattr (Text (stripWhiteSpace rawValue))
      (Z.of_nat (List.length (stripWhiteSpace rawValue)) # 2) hex
  /\ forall k : Z,
       ~ (size (decodeXattrValue J JSON_parse rawValue decodePlist)
          == inject_Z k)%Q.
Proof.
  intros Hhex Hodd Hdirty.
  destruct (decodeXattrValue_hex_branch J JSON_parse rawValue decodePlist Hhex)
    as (_ & _ & Hbranch).
  rewrite (Hbranch Hdirty). split; [reflexivity |].
  simpl. apply half_of_odd_not_integer, Hodd.
Qed.

Lemma dirtyText_fff : ~ cleanText (hexText (js "f f f")).
Proof.
  intros [_ H]. apply H. vm_compute. left. reflexivity.
Qed.

Lemma decodeXattrValue_odd_hex_witness :
  decodeXattrValue nat (fun _ => None) (js "f f f") true
  = mkXattr (Text (js "fff")) (3 # 2) hex
  /\ forall k : Z,
       ~ (size (decodeXattrValue nat (fun _ => None) (js "f f f") true)
          == inject_Z k)%Q.
Proof.
  apply (decodeXattrValue_odd_hex nat (fun _ => None) (js "f f f") true
           eq_refl eq_refl dirtyText_fff).
Defined.

(** ** The percent-decoding loop *)

Local Open Scope nat_scope.

Lemma uriItems_length (n : nat) :
  forall s items,
    List.length s <= n -> uriItems s = Some items ->
    List.length s = List.length items + 2 * octetCount items.
Proof.
  induction n as [|n IH]; intros s items Hlen H.
  - destruct s; [| simpl in Hlen; lia].
    injection H as <-. reflexivity.
  - destruct s as [|c r]; [injection H as <-; reflexivity |].
    simpl in H, Hlen. destruct (N.eqb c CHAR_PERCENT).
    + destruct r as [|h1 [|h2 r']]; try discriminate.
      destruct (hexValue h1); try discriminate.
      destruct (hexValue h2); try discriminate.
      destruct (uriItems r') as [items'|] eqn:E; try discriminate.
      injection H as <-. simpl in Hlen.
      apply IH in E; [| lia]. simpl. lia.
    + destruct (uriItems r) as [items'|] eqn:E; try discriminate.
      injection H as <-. apply IH in E; [| lia]. simpl. lia.
Qed.

Lemma uriItems_no_escape (n : nat) :
  forall s items,
    List.length s <= n -> uriItems s = Some items -> octetCount items = 0 ->
    decodeItems items = Some s.
Proof.
  induction n as [|n IH]; intros s items Hlen H Hzero.
  - destruct s; [| simpl in Hlen; lia].
    injection H as <-. reflexivity.
  - destruct s as [|c r]; [injection H as <-; reflexivity |].
    simpl in H, Hlen. destruct (N.eqb c CHAR_PERCENT).
    + destruct r as [|h1 [|h2 r']]; try discriminate.
      destruct (hexValue h1); try discriminate.
      destruct (hexValue h2); try discriminate.
      destruct (uriItems r'); try discriminate.
      injection H as <-. discriminate Hzero.
    + destruct (uriItems r) as [items'|] eqn:E; try discriminate.
      injection H as <-. simpl in Hzero.
      simpl. unfold emit.
      rewrite (IH r items'); [reflexivity | lia | exact E | exact Hzero].
Qed.

Arguments emit : simpl never.

Lemma emit_Some (units rest : option jsstring) (t : jsstring) :
  emit units rest = Some t ->
  exists u r, units = Some u /\ rest = Some r /\ t = u ++ r.
Proof.
  destruct units as [u|], rest as [r|]; unfold emit; try discriminate.
  intros [= <-]. exists u, r. auto.
Qed.

Lemma utf16Encode_length (cp : N) : List.length (utf16Encode cp) <= 2.
Proof.
  unfold utf16Encode. destruct (N.ltb cp 65536); simpl; lia.
Qed.

Lemma utf16Encode_nonempty (cp : N) : utf16Encode cp <> [].
Proof.
  unfold utf16Encode. destruct (N.ltb cp 65536); discriminate.
Qed.

Lemma encoded_length (cp : option N) (u : jsstring) :
  option_map utf16Encode cp = Some u -> List.length u <= 2.
Proof.
  destruct cp; simpl; [intros [= <-]; apply utf16Encode_length | discriminate].
Qed.

(** Every item gives at most one code unit. *)
Lemma decodeItems_length (n : nat) :
  forall items t,
    List.length items <= n -> decodeItems items = Some t ->
    List.length t <= List.length items.
Proof.
  induction n as [|n IH]; intros items t Hlen H.
  - destruct items; [| simpl in Hlen; lia].
    injection H as <-. simpl. lia.
  - destruct items as [|[c|b] r]; [injection H as <-; simpl; lia | |];
      simpl in H, Hlen.
    + apply emit_Some in H as (u & t' & [= <-] & Hr & ->).
      apply IH in Hr; [| lia]. simpl. lia.
    + destruct (leadingOnes b) as [|[|[|[|[|k]]]]]; try discriminate.
      * apply emit_Some in H as (u & t' & [= <-] & Hr & ->).
        apply IH in Hr; [| lia]. simpl. lia.
      * destruct r as [|[c2|b2] r']; try discriminate.
        apply emit_Some in H as (u & t' & Hu & Hr & ->).
        apply encoded_length in Hu. simpl in Hlen.
        apply IH in Hr; [| lia]. rewrite length_app. simpl. lia.
      * destruct r as [|[c2|b2] [|[c3|b3] r']]; try discriminate.
        apply emit_Some in H as (u & t' & Hu & Hr & ->).
        apply encoded_length in Hu. simpl in Hlen.
        apply IH in Hr; [| lia]. rewrite length_app. simpl. lia.
      * destruct r as [|[c2|b2] [|[c3|b3] [|[c4|b4] r']]]; try discriminate.
        apply emit_Some in H as (u & t' & Hu & Hr & ->).
        apply encoded_length in Hu. simpl in Hlen.
        apply IH in Hr; [| lia]. rewrite length_app. simpl. lia.
Qed.

(** A successful decoding returns its argument or a shorter string. *)
Lemma decodeURIComponent_shrinks (s t : jsstring) :
  decodeURIComponent s = Some t -> t = s \/ List.length t < List.length s.
Proof.
  unfold decodeURIComponent.
  destruct (uriItems s) as [items|] eqn:E; [| discriminate].
  intros H.
  pose proof (uriItems_length _ s items (le_n _) E) as Hs.
  pose proof (decodeItems_length _ items t (le_n _) H) as Ht.
  destruct (octetCount items) as [|k] eqn:Ek.
  - left. pose proof (uriItems_no_escape _ s items (le_n _) E Ek). congruence.
  - right. lia.
Qed.

Lemma decodeLoop_same (fuel : nat) (d : jsstring) (rounds : nat) :
  decodeLoop fuel d d rounds = Some (d, rounds).
Proof.
  destruct fuel; simpl; rewrite str_eqb_refl; reflexivity.
Qed.

Lemma decodeLoop_terminates (n : nat) :
  forall fuel decoded prev rounds,
    List.length decoded <= n -> n < fuel -> decoded <> prev ->
    exists d k,
      decodeLoop fuel decoded prev rounds = Some (d, rounds + k)
      /\ 1 <= k <= S (List.length decoded)
      /\ DecodeChain decoded d
      /\ DecodeStops d.
Proof.
  induction n as [|n IH]; intros fuel decoded prev rounds Hlen Hfuel Hneq;
    (destruct fuel as [|fuel]; [lia |]);
    simpl; apply str_eqb_neq in Hneq; rewrite Hneq;
    destruct (decodeURIComponent decoded) as [d'|] eqn:E.
  - destruct (decodeURIComponent_shrinks _ _ E) as [-> | Hlt]; [| lia].
    rewrite decodeLoop_same. exists decoded, 1.
    repeat split; [f_equal; f_equal; lia | lia | lia | constructor | left; exact E].
  - exists decoded, 1.
    repeat split; [f_equal; f_equal; lia | lia | lia | constructor | right; exact E].
  - destruct (decodeURIComponent_shrinks _ _ E) as [-> | Hlt].
    + rewrite decodeLoop_same. exists decoded, 1.
      repeat split; [f_equal; f_equal; lia | lia | lia | constructor | left; exact E].
    + destruct (IH fuel d' decoded (S rounds)) as (d & k & Hrun & Hk & Hchain & Hstop);
        [lia | lia | intros ->; lia |].
      exists d, (S k). rewrite Hrun.
      repeat split; [f_equal; f_equal; lia | lia | lia | | exact Hstop].
      econstructor; eassumption.
  - exists decoded, 1.
    repeat split; [f_equal; f_equal; lia | lia | lia | constructor | right; exact E].
Qed.

(** The loop of [validatePath] always ends, within the fuel it is given. *)
Lemma decodeLoop_enough_fuel (s : jsstring) :
  exists d rounds,
    runDecodeLoop s = Some (d, rounds)
    /\ rounds <= S (List.length s)
    /\ DecodeChain s d
    /\ DecodeStops d.
Proof.
  unfold runDecodeLoop, decodeFuel.
  destruct s as [|c r].
  - exists [], 0. repeat split; [lia | constructor | left; reflexivity].
  - destruct (decodeLoop_terminates (List.length (c :: r))
                (S (S (List.length (c :: r)))) (c :: r) [] 0)
      as (d & k & Hrun & Hk & Hchain & Hstop); [lia | lia | discriminate |].
    exists d, k. repeat split; [exact Hrun | lia | exact Hchain | exact Hstop].
Qed.

Lemma uriItems_literal (s : jsstring) :
  Forall (fun c => c <> CHAR_PERCENT) s -> uriItems s = Some (List.map Lit s).
Proof.
  induction 1 as [|c r Hc _ IH]; simpl; [reflexivity |].
  apply N.eqb_neq in Hc. rewrite Hc, IH. reflexivity.
Qed.

Lemma decodeItems_literal (s : jsstring) :
  decodeItems (List.map Lit s) = Some s.
Proof.
  induction s as [|c r IH]; simpl; [reflexivity |].
  rewrite IH. reflexivity.
Qed.

Lemma layerDigits_literal (n : nat) :
  Forall (fun c => c <> CHAR_PERCENT) (layerDigits n).
Proof.
  unfold layerDigits. apply Forall_app. split.
  - induction n as [|n IH]; simpl; [constructor |].
    repeat (constructor; [discriminate |]). exact IH.
  - repeat (constructor; [discriminate |]). constructor.
Qed.

Lemma decode_layer (n : nat) :
  decodeURIComponent (layered (S n)) = Some (layered n).
Proof.
  unfold decodeURIComponent, layered.
  change (layerDigits (S n)) with (50%N :: 53%N :: layerDigits n).
  cbn [uriItems].
  change (N.eqb CHAR_PERCENT CHAR_PERCENT) with true. cbv iota.
  change (hexValue 50) with (Some 2%N). change (hexValue 53) with (Some 5%N).
  rewrite (uriItems_literal _ (layerDigits_literal n)).
  cbv iota. change (16 * 2 + 5)%N with CHAR_PERCENT.
  cbn [decodeItems]. change (leadingOnes CHAR_PERCENT) with 0.
  cbv iota. rewrite decodeItems_literal. reflexivity.
Qed.

Lemma layered_length (n : nat) : List.length (layered n) = 2 * n + 3.
Proof.
  unfold layered, layerDigits. simpl. rewrite length_app. simpl.
  induction n as [|n IH]; simpl; [reflexivity |]. lia.
Qed.

Lemma decodeLoop_layers (n : nat) :
  forall fuel prev rounds,
    n + 2 <= fuel -> prev <> layered n ->
    decodeLoop fuel (layered n) prev rounds = Some (js "A", rounds + n + 2).
Proof.
  induction n as [|n IH]; intros fuel prev rounds Hfuel Hneq.
  - destruct fuel as [|[|fuel]]; try lia.
    assert (E : str_eqb (layered 0) prev = false)
      by (apply str_eqb_neq; congruence).
    cbn [decodeLoop]. rewrite E.
    change (decodeURIComponent (layered 0)) with (Some (js "A")). cbv iota.
    change (str_eqb (js "A") (layered 0)) with false. cbv iota.
    change (decodeURIComponent (js "A")) with (Some (js "A")). cbv iota.
    rewrite decodeLoop_same. f_equal. f_equal. lia.
  - destruct fuel as [|fuel]; try lia.
    assert (E : str_eqb (layered (S n)) prev = false)
      by (apply str_eqb_neq; congruence).
    cbn [decodeLoop]. rewrite E, decode_layer.
    rewrite IH; [f_equal; f_equal; lia | lia |].
    intros H. apply (f_equal (@List.length N)) in H.
    rewrite !layered_length in H. lia.
Qed.

Lemma decodeRounds_layered (n : nat) : decodeRounds (layered n) = n + 2.
Proof.
  unfold decodeRounds, runDecodeLoop, decodeFuel.
  rewrite decodeLoop_layers; [reflexivity | rewrite layered_length; lia |].
  discriminate.
Qed.

(** C3 (amended). On every input the percent-decoding loop of
    [validatePath] ends: it calls [decodeURIComponent] at most once more than
    the input has code units, each call but the last turns the string into
    its decoding, and the string kept is one that [decodeURIComponent] leaves
    unchanged or rejects.  No constant bounds the number of rounds: for every
    bound there is an input that takes more. *)
Theorem percentDecode_rounds :
  (forall s,
      exists d rounds,
        runDecodeLoop s = Some (d, rounds)
        /\ percentDecode s = d
        /\ decodeRounds s = rounds
        /\ rounds <= S (List.length s)
        /\ DecodeChain s d
        /\ DecodeStops d)
  /\ (forall bound, exists s, bound < decodeRounds s).
Proof.
  split.
  - intros s.
    destruct (decodeLoop_enough_fuel s) as (d & k & Hrun & Hk & Hchain & Hstop).
    exists d, k. unfold percentDecode, decodeRounds. rewrite Hrun.
    repeat split; assumption.
  - intros bound. exists (layered bound). rewrite decodeRounds_layered. lia.
Qed.

(** Twelve layers of encoding take fourteen rounds, more than ten. *)
Lemma percentDecode_more_than_ten_rounds :
  decodeRounds (js "%25252525252525252525252541") = 14
  /\ 10 < decodeRounds (js "%25252525252525252525252541")
  /\ percentDecode (js "%25252525252525252525252541") = js "A".
Proof.
  vm_compute. repeat split; lia.
Qed.

(** ** validatePath *)

Local Open Scope N_scope.

Lemma underRoot_spec (p root : jsstring) :
  underRoot p root = true <-> Under p (normalize root).
Proof.
  unfold underRoot, Under.
  rewrite orb_true_iff, str_eqb_eq, startsWith_prefix.
  split; (intros [H | [rest H]]; [left; exact H | right; exists rest]).
  - rewrite H, <- app_assoc. reflexivity.
  - rewrite H, <- app_assoc. reflexivity.
Qed.

Section PathValidatorProperties.

Variable nfc : jsstring -> jsstring.
Variable cwd : jsstring.
Variable lstatSync : jsstring -> LstatOutcome.
Variable roots : list jsstring.

Local Abbreviation validate := (validatePath nfc cwd lstatSync roots).
Local Abbreviation resolved := (resolvedPath nfc cwd).

(** What a successful call went through. *)
Lemma validatePath_Return (filePath : jsval) (p : jsstring) :
  validate filePath = Return p ->
  exists s,
    filePath = JString s /\ s <> [] /\ p = resolved s
    /\ symlinkCheck (lstatSync p) = None
    /\ existsb (underRoot p) roots = true.
Proof.
  unfold validatePath.
  destruct filePath as [| |b|n|s|]; simpl; try discriminate.
  - destruct b; discriminate.
  - destruct n as [|neg|neg [|q] e]; discriminate.
  - destruct s as [|c r]; [discriminate |]. cbn [orb].
    destruct (symlinkCheck (lstatSync (resolved (c :: r)))) eqn:Hs;
      [discriminate |].
    destruct (existsb (underRoot (resolved (c :: r))) roots) eqn:Hu;
      [| discriminate].
    intros [= <-]. exists (c :: r).
    repeat split; [discriminate | exact Hs | exact Hu].
Qed.

(** A string that is not empty reaches the symbolic-link check and then
    the sandbox check. *)
Lemma validatePath_string (s : jsstring) :
  s <> [] ->
  validate (JString s) =
    match symlinkCheck (lstatSync (resolved s)) with
    | Some e => Throw e
    | None =>
        if existsb (underRoot (resolved s)) roots
        then Return (resolved s)
        else Throw OutsideSandbox
    end.
Proof.
  intros Hne. unfold validatePath.
  destruct s as [|c r]; [congruence |]. cbn [falsy isString negb orb].
  destruct (symlinkCheck _); [reflexivity |].
  destruct (existsb _ _); reflexivity.
Qed.

Lemma validatePath_under_root (filePath : jsval) (p : jsstring) :
  validate filePath = Return p ->
  exists root, In root roots /\ Under p (normalize root).
Proof.
  intros H. apply validatePath_Return in H as (s & _ & _ & _ & _ & Hu).
  apply existsb_exists in Hu as (root & Hin & Hroot).
  exists root. split; [exact Hin | apply underRoot_spec, Hroot].
Qed.

Lemma validatePath_outside (s : jsstring) :
  s <> [] ->
  (forall root, In root roots -> ~ Under (resolved s) (normalize root)) ->
  (exists e, validate (JString s) = Throw e)
  /\ (symlinkCheck (lstatSync (resolved s)) = None ->
      validate (JString s) = Throw OutsideSandbox).
Proof.
  intros Hne Hout. rewrite (validatePath_string s Hne).
  assert (E : existsb (underRoot (resolved s)) roots = false).
  { destruct (existsb _ _) eqn:E; [| reflexivity].
    apply existsb_exists in E as (root & Hin & Hroot).
    apply underRoot_spec in Hroot. destruct (Hout root Hin Hroot). }
  rewrite E.
  destruct (symlinkCheck _) as [e|].
  - split; [exists e; reflexivity | discriminate].
  - split; [exists OutsideSandbox; reflexivity | reflexivity].
Qed.

End PathValidatorProperties.

Lemma resolvedPath_traversal (nfc : jsstring -> jsstring) (cwd : jsstring) :
  NfcFixesLatin nfc -> resolvedPath nfc cwd traversalInput = js "/etc/passwd".
Proof.
  intros Hnfc. unfold resolvedPath.
  change (stripNulls traversalInput) with traversalInput.
  rewrite (Hnfc traversalInput eq_refl).
  vm_compute. reflexivity.
Qed.

(** C1 (amended). With sandbox roots that [path.normalize] leaves as they
    are: a path [validatePath] returns is one of the roots or starts with a
    root followed by the separator; a non-empty input whose resolved path
    (null characters stripped, NFC, percent-decoded, [.] and [..] resolved)
    lies under no root is always refused, and with [OutsideSandbox] whenever
    the symbolic-link check that runs first does not throw on that path; so
    [/root/allowed/../../../etc/passwd], with [/root/allowed] the only root
    and [/etc/passwd] not a symbolic link, fails with [OutsideSandbox]. *)
Theorem validatePath_sandbox_gate (nfc : jsstring -> jsstring) (cwd : jsstring)
    (lstatSync : jsstring -> LstatOutcome) (roots : list jsstring) :
  Forall (fun root => normalize root = root) roots ->
  (forall filePath p,
      validatePath nfc cwd lstatSync roots filePath = Return p ->
      exists root, In root roots /\ Under p root)
  /\ (forall s,
         s <> [] ->
         (forall root, In root roots -> ~ Under (resolvedPath nfc cwd s) root) ->
         (exists e, validatePath nfc cwd lstatSync roots (JString s) = Throw e)
         /\ (symlinkCheck (lstatSync (resolvedPath nfc cwd s)) = None ->
             validatePath nfc cwd lstatSync roots (JString s)
             = Throw OutsideSandbox))
  /\ (NfcFixesLatin nfc ->
      symlinkCheck (lstatSync (js "/etc/passwd")) = None ->
      validatePath nfc cwd lstatSync [js "/root/allowed"] (JString traversalInput)
      = Throw OutsideSandbox).
Proof.
  intros Hroots. rewrite Forall_forall in Hroots. repeat split.
  - intros filePath p H.
    destruct (validatePath_under_root _ _ _ _ _ _ H) as (root & Hin & Hu).
    exists root. rewrite (Hroots root Hin) in Hu. auto.
  - apply validatePath_outside; [assumption |].
    intros root Hin. rewrite (Hroots root Hin). auto.
  - apply validatePath_outside; [assumption |].
    intros root Hin. rewrite (Hroots root Hin). auto.
  - intros Hnfc Hlstat.
    rewrite validatePath_string by discriminate.
    rewrite (resolvedPath_traversal nfc cwd Hnfc), Hlstat.
    vm_compute. reflexivity.
Qed.

Lemma validatePath_sandbox_gate_witness :
  validatePath (fun s => s) (js "/home/user") emptyFileSystem
    [js "/root/allowed"] (JString traversalInput)
  = Throw OutsideSandbox.
Proof.
  refine (proj2 (proj2 (validatePath_sandbox_gate (fun s => s)
                          (js "/home/user") emptyFileSystem
                          [js "/root/allowed"] _)) _ _).
  - repeat constructor.
  - intros s _. reflexivity.
  - reflexivity.
Defined.

(** [/tmp] lies outside the sandbox, and [validatePath] refuses it, but as a
    symbolic link: the check of step 7 throws before the sandbox check of
    step 8 is reached. *)
Lemma validatePath_symlink_outside_sandbox :
  exists s,
    s <> []
    /\ forall nfc cwd,
         NfcFixesLatin nfc ->
         (forall root, In root [js "/root/allowed"] ->
                       ~ Under (resolvedPath nfc cwd s) root)
         /\ validatePath nfc cwd tmpIsSymlink [js "/root/allowed"] (JString s)
            = Throw SymlinkRejected
         /\ validatePath nfc cwd tmpIsSymlink [js "/root/allowed"] (JString s)
            <> Throw OutsideSandbox.
Proof.
  exists (js "/tmp"). split; [discriminate |].
  intros nfc cwd Hnfc.
  assert (Hres : resolvedPath nfc cwd (js "/tmp") = js "/tmp").
  { unfold resolvedPath. change (stripNulls (js "/tmp")) with (js "/tmp").
    rewrite (Hnfc (js "/tmp") eq_refl). vm_compute. reflexivity. }
  assert (Hrun : validatePath nfc cwd tmpIsSymlink [js "/root/allowed"]
                   (JString (js "/tmp")) = Throw SymlinkRejected).
  { rewrite validatePath_string by discriminate. rewrite Hres. reflexivity. }
  repeat split.
  - intros root [<- | []]. rewrite Hres.
    intros [H | [rest H]]; vm_compute in H; discriminate H.
  - exact Hrun.
  - rewrite Hrun. discriminate.
Qed.

(** *** A percent-encoded null character *)

(** C5 (the code departs from it). [nullInput] holds a null character;
    the null character is stripped, but the escape [%00] is decoded after the
    stripping, so [validatePath] accepts the input and returns a path with a
    null character in it. *)
Theorem validatePath_returns_null (nfc : jsstring -> jsstring) (cwd : jsstring)
    (lstatSync : jsstring -> LstatOutcome) :
  NfcFixesLatin nfc ->
  symlinkCheck (lstatSync nullOutput) = None ->
  In CHAR_NUL nullInput
  /\ validatePath nfc cwd lstatSync ALLOWED_ROOTS (JString nullInput)
     = Return nullOutput
  /\ In CHAR_NUL nullOutput.
Proof.
  intros Hnfc Hlstat.
  assert (Hres : resolvedPath nfc cwd nullInput = nullOutput).
  { unfold resolvedPath.
    change (stripNulls nullInput)
      with (js "/Users/macbook/Documents/Dropository/a%00b").
    rewrite (Hnfc (js "/Users/macbook/Documents/Dropository/a%00b") eq_refl).
    vm_compute. reflexivity. }
  repeat split.
  - apply includesUnit_In. reflexivity.
  - rewrite validatePath_string by discriminate.
    rewrite Hres, Hlstat. reflexivity.
  - apply includesUnit_In. reflexivity.
Qed.

Lemma validatePath_returns_null_witness :
  validatePath (fun s => s) (js "/home/user") refusesNullBytes ALLOWED_ROOTS
    (JString nullInput)
  = Return nullOutput.
Proof.
  refine (proj1 (proj2 (validatePath_returns_null (fun s => s)
                          (js "/home/user") refusesNullBytes _ _))).
  - intros s _. reflexivity.
  - reflexivity.
Defined.

(** ** Error messages that leave the service *)

(** C2 (the code departs from it). When [xattr] fails with a message that
    does not say [No such xattr], [listXattrs] throws that message as it is,
    after a fixed prefix: it does not pass through [sanitizeErrorMessage].
    [spotlightSearch], on the same failure of [mdfind], throws the sanitized
    message. *)
Theorem listXattrs_throws_raw_message (nfc : jsstring -> jsstring)
    (cwd : jsstring) (lstatSync : jsstring -> LstatOutcome)
    (roots : list jsstring) (exec : jsstring -> list jsstring -> ExecOutcome)
    (filePath : jsval) (validatedPath message : jsstring) :
  validatePath nfc cwd lstatSync roots filePath = Return validatedPath ->
  exec (js "xattr") [validatedPath] = ExecFails message ->
  includes message (js "No such xattr") = false ->
  snd (listXattrs nfc cwd lstatSync roots exec filePath)
  = Throw (js "Failed to list xattrs: " ++ message)
  /\ forall (SpotlightResult : Type) getFileMetadata query scope limit attributes,
       exec (js "mdfind")
         (scopeArgs nfc cwd lstatSync roots scope ++ [query])
       = ExecFails message ->
       spotlightSearch nfc cwd lstatSync roots exec SpotlightResult
         getFileMetadata query scope limit attributes
       = Throw (js "Spotlight search failed: "
                  ++ sanitizeErrorMessage (JString message)).
Proof.
  intros Hpath Hexec Hmsg. split.
  - unfold listXattrs. rewrite Hpath, Hexec. simpl. rewrite Hmsg. reflexivity.
  - intros SR gfm query scope limit attributes Hfind.
    unfold spotlightSearch. rewrite Hfind. reflexivity.
Qed.

Lemma listXattrs_throws_raw_message_witness :
  snd (listXattrs (fun s => s) (js "/home/user") emptyFileSystem ALLOWED_ROOTS
         failingExec (JString secretFile))
  = Throw (js "Failed to list xattrs: Command failed: xattr " ++ secretFile)
  /\ sanitizeErrorMessage (JString (js "Command failed: xattr " ++ secretFile))
     = js "Command failed: xattr [path]"
  /\ spotlightSearch (fun s => s) (js "/home/user") emptyFileSystem
       ALLOWED_ROOTS failingExec unit (fun _ _ => None)
       (js "notes") [JString secretFile] 100 None
     = Throw (js "Spotlight search failed: Command failed: mdfind -onlyin [path] notes").
Proof.
  pose proof (listXattrs_throws_raw_message (fun s => s) (js "/home/user")
                emptyFileSystem ALLOWED_ROOTS failingExec (JString secretFile)
                secretFile (js "Command failed: xattr " ++ secretFile)
                eq_refl eq_refl eq_refl) as [Hlist _].
  split; [exact Hlist | split; vm_compute; reflexivity].
Defined.

(** ** Paths in normal form *)

Lemma split_nonempty (sp : N) (s : jsstring) : split sp s <> [].
Proof.
  destruct s as [|c r]; simpl; [discriminate |].
  destruct (c =? sp); [discriminate |].
  destruct (split sp r); discriminate.
Qed.

Lemma split_cons_sep (sp : N) (s : jsstring) :
  split sp (sp :: s) = [] :: split sp s.
Proof. simpl. rewrite N.eqb_refl. reflexivity. Qed.

Lemma split_snoc_sep (sp : N) (s : jsstring) :
  split sp (s ++ [sp]) = split sp s ++ [[]].
Proof.
  induction s as [|c r IH]; simpl.
  - rewrite N.eqb_refl. reflexivity.
  - destruct (c =? sp).
    + rewrite IH. reflexivity.
    + rewrite IH. pose proof (split_nonempty sp r) as Hne.
      destruct (split sp r) as [|h t]; [congruence | reflexivity].
Qed.

Lemma split_app_segment (sp : N) (p rest : jsstring) :
  ~ In sp p -> split sp (p ++ sp :: rest) = p :: split sp rest.
Proof.
  induction p as [|c r IH]; intros Hp.
  - apply split_cons_sep.
  - simpl. destruct (N.eqb_spec c sp) as [-> | Hc].
    + destruct Hp. left. reflexivity.
    + rewrite IH; [reflexivity |]. intros H. apply Hp. right. exact H.
Qed.

Lemma split_segment (sp : N) (p : jsstring) : ~ In sp p -> split sp p = [p].
Proof.
  induction p as [|c r IH]; intros Hp; [reflexivity |].
  simpl. destruct (N.eqb_spec c sp) as [-> | Hc].
  - destruct Hp. left. reflexivity.
  - rewrite IH; [reflexivity |]. intros H. apply Hp. right. exact H.
Qed.

Lemma split_free_of_sep (sp : N) (s : jsstring) :
  Forall (fun seg => ~ In sp seg) (split sp s).
Proof.
  induction s as [|c r IH]; simpl.
  - constructor; [intros [] | constructor].
  - destruct (N.eqb_spec c sp) as [-> | Hc].
    + constructor; [intros [] | exact IH].
    + pose proof (split_nonempty sp r) as Hne.
      destruct (split sp r) as [|h t]; [congruence |].
      inversion IH as [|? ? Hh Ht]; subst.
      constructor; [| exact Ht].
      intros [H | H]; [congruence | exact (Hh H)].
Qed.

Lemma split_join (sp : N) (segs : list jsstring) :
  Forall (fun seg => ~ In sp seg) segs -> segs <> [] ->
  split sp (join sp segs) = segs.
Proof.
  induction 1 as [|p rest Hp Hrest IH]; intros Hne;
    [destruct Hne; reflexivity |].
  destruct rest as [|p' rest'].
  - simpl. apply split_segment, Hp.
  - change (join sp (p :: p' :: rest')) with (p ++ sp :: join sp (p' :: rest')).
    rewrite split_app_segment by exact Hp.
    rewrite IH by discriminate. reflexivity.
Qed.

Lemma normalizeSegment_clean (stack : list jsstring) (seg : jsstring) :
  CleanSegment seg -> normalizeSegment false stack seg = seg :: stack.
Proof.
  intros (H1 & H2 & H3 & _). unfold normalizeSegment.
  apply str_eqb_neq in H1, H2, H3. rewrite H1, H2, H3. reflexivity.
Qed.

Lemma fold_clean_segments (segs stack : list jsstring) :
  Forall CleanSegment segs ->
  fold_left (normalizeSegment false) segs stack = rev segs ++ stack.
Proof.
  intros H. revert stack.
  induction H as [|seg rest Hseg _ IH]; intros stack; [reflexivity |].
  simpl. rewrite (normalizeSegment_clean stack seg Hseg), IH, <- app_assoc.
  reflexivity.
Qed.

Lemma normalizeSegment_keeps_clean (stack : list jsstring) (seg : jsstring) :
  Forall CleanSegment stack -> ~ In CHAR_FORWARD_SLASH seg ->
  Forall CleanSegment (normalizeSegment false stack seg).
Proof.
  intros Hstack Hseg. unfold normalizeSegment.
  destruct (str_eqb seg []) eqn:E1; [exact Hstack |].
  destruct (str_eqb seg DOT) eqn:E2; [exact Hstack |]. cbn [orb].
  destruct (str_eqb seg DOTDOT) eqn:E3.
  - destruct stack as [|top below]; [constructor |].
    destruct (str_eqb top DOTDOT); [exact Hstack |].
    inversion Hstack; assumption.
  - constructor; [| exact Hstack].
    apply str_eqb_neq in E1, E2, E3. repeat split; assumption.
Qed.

Lemma fold_keeps_clean (segs stack : list jsstring) :
  Forall (fun seg => ~ In CHAR_FORWARD_SLASH seg) segs ->
  Forall CleanSegment stack ->
  Forall CleanSegment (fold_left (normalizeSegment false) segs stack).
Proof.
  intros H. revert stack.
  induction H as [|seg rest Hseg _ IH]; intros stack Hstack; [exact Hstack |].
  simpl. apply IH, normalizeSegment_keeps_clean; assumption.
Qed.

(** Below the root, [normalizeString] yields clean segments. *)
Lemma normalizeString_clean (path : jsstring) :
  exists segs,
    Forall CleanSegment segs
    /\ normalizeString path false = join CHAR_FORWARD_SLASH segs.
Proof.
  exists (rev (fold_left (normalizeSegment false)
                 (split CHAR_FORWARD_SLASH path) [])).
  split; [| reflexivity].
  apply Forall_rev, fold_keeps_clean; [apply split_free_of_sep | constructor].
Qed.

Lemma clean_free_of_sep (segs : list jsstring) :
  Forall CleanSegment segs ->
  Forall (fun seg => ~ In CHAR_FORWARD_SLASH seg) segs.
Proof.
  intros H. eapply Forall_impl; [| exact H]. intros seg (_ & _ & _ & Hs).
  exact Hs.
Qed.

Lemma fold_leading_empty (segs : list jsstring) :
  fold_left (normalizeSegment false) ([] :: segs) []
  = fold_left (normalizeSegment false) segs [].
Proof. reflexivity. Qed.

Lemma fold_skips_empty (segs : list jsstring) :
  Forall CleanSegment segs ->
  fold_left (normalizeSegment false) ([] :: segs ++ [[]]) [] = rev segs.
Proof.
  intros H. cbn [fold_left]. rewrite fold_left_app.
  change (normalizeSegment false [] []) with (@nil jsstring).
  rewrite (fold_clean_segments segs [] H), app_nil_r. reflexivity.
Qed.

(** [normalizeString] on a normal form, with or without a slash at its
    end, gives the segments back. *)
Lemma normalizeString_absolutePath (segs : list jsstring) :
  Forall CleanSegment segs ->
  normalizeString (absolutePath segs) false = join CHAR_FORWARD_SLASH segs
  /\ normalizeString (absolutePath segs ++ [CHAR_FORWARD_SLASH]) false
     = join CHAR_FORWARD_SLASH segs.
Proof.
  intros H. unfold normalizeString, absolutePath.
  destruct segs as [|seg rest]; [split; reflexivity |].
  assert (Hsplit : split CHAR_FORWARD_SLASH
                     (join CHAR_FORWARD_SLASH (seg :: rest)) = seg :: rest)
    by (apply split_join; [apply clean_free_of_sep, H | discriminate]).
  split.
  - rewrite split_cons_sep, Hsplit, fold_leading_empty.
    rewrite (fold_clean_segments _ [] H), app_nil_r, rev_involutive.
    reflexivity.
  - change ((CHAR_FORWARD_SLASH :: join CHAR_FORWARD_SLASH (seg :: rest))
            ++ [CHAR_FORWARD_SLASH])
      with (CHAR_FORWARD_SLASH
              :: (join CHAR_FORWARD_SLASH (seg :: rest) ++ [CHAR_FORWARD_SLASH])).
    rewrite split_cons_sep, split_snoc_sep, Hsplit.
    rewrite (fold_skips_empty _ H), rev_involutive. reflexivity.
Qed.

Lemma join_last_unit (segs : list jsstring) :
  Forall CleanSegment segs -> segs <> [] ->
  exists body c,
    join CHAR_FORWARD_SLASH segs = body ++ [c] /\ c <> CHAR_FORWARD_SLASH.
Proof.
  induction 1 as [|p rest Hp Hrest IH]; intros Hne;
    [destruct Hne; reflexivity |].
  destruct rest as [|p' rest'].
  - destruct Hp as (Hp & _ & _ & Hslash).
    destruct (exists_last Hp) as (body & c & ->).
    exists body, c. split; [reflexivity |].
    intros ->. apply Hslash, in_or_app. right. left. reflexivity.
  - destruct IH as (body & c & Hj & Hc); [discriminate |].
    exists (p ++ CHAR_FORWARD_SLASH :: body), c. split; [| exact Hc].
    change (join CHAR_FORWARD_SLASH (p :: p' :: rest'))
      with (p ++ CHAR_FORWARD_SLASH :: join CHAR_FORWARD_SLASH (p' :: rest')).
    rewrite Hj, <- app_assoc. reflexivity.
Qed.

Lemma endsWith_snoc (body : jsstring) (c sp : N) :
  c <> sp -> endsWith (body ++ [c]) [sp] = false.
Proof.
  intros Hc. unfold endsWith. rewrite rev_app_distr. simpl.
  apply N.eqb_neq in Hc. rewrite Hc. reflexivity.
Qed.

(** [path.normalize] leaves a normal form as it is. *)
Lemma normalize_absolutePath (segs : list jsstring) :
  Forall CleanSegment segs -> normalize (absolutePath segs) = absolutePath segs.
Proof.
  intros H. destruct segs as [|seg rest]; [reflexivity |].
  destruct (normalizeString_absolutePath _ H) as [Hnorm _].
  destruct (join_last_unit _ H) as (body & c & Hj & Hc); [discriminate |].
  unfold normalize.
  change (absolutePath (seg :: rest))
    with (CHAR_FORWARD_SLASH :: join CHAR_FORWARD_SLASH (seg :: rest)) in *.
  cbv beta iota zeta.
  change (isAbsolute (CHAR_FORWARD_SLASH :: join CHAR_FORWARD_SLASH (seg :: rest)))
    with true.
  cbn [negb]. rewrite Hnorm.
  replace (endsWith (CHAR_FORWARD_SLASH :: join CHAR_FORWARD_SLASH (seg :: rest))
             [CHAR_FORWARD_SLASH]) with false.
  - rewrite Hj. destruct body; reflexivity.
  - rewrite Hj. symmetry.
    apply (endsWith_snoc (CHAR_FORWARD_SLASH :: body) c CHAR_FORWARD_SLASH Hc).
Qed.

(** So does [path.resolve], whatever the working directory. *)
Lemma resolve_absolutePath (cwd : jsstring) (segs : list jsstring) :
  Forall CleanSegment segs ->
  resolve cwd (absolutePath segs) = absolutePath segs.
Proof.
  intros H. destruct (normalizeString_absolutePath _ H) as [_ Hnorm].
  unfold resolve.
  change (absolutePath segs)
    with (CHAR_FORWARD_SLASH :: join CHAR_FORWARD_SLASH segs) in *.
  cbv beta iota zeta.
  change (isAbsolute (CHAR_FORWARD_SLASH :: join CHAR_FORWARD_SLASH segs))
    with true.
  cbv beta iota zeta. cbn [negb]. rewrite Hnorm. reflexivity.
Qed.

(** From an absolute working directory, [path.resolve] returns a normal
    form. *)
Lemma resolve_normal_form (cwd p : jsstring) :
  isAbsolute cwd = true ->
  exists segs, Forall CleanSegment segs /\ resolve cwd p = absolutePath segs.
Proof.
  intros Hcwd. unfold resolve, absolutePath.
  destruct cwd as [|c0 cwd']; [discriminate |].
  destruct p as [|c r].
  - cbv beta iota zeta. rewrite Hcwd. cbn [negb].
    destruct (normalizeString_clean
                ((c0 :: cwd') ++ [CHAR_FORWARD_SLASH])) as (segs & Hc & Hn).
    exists segs. rewrite Hn. auto.
  - cbv beta iota zeta. destruct (isAbsolute (c :: r)).
    + cbn [negb].
      destruct (normalizeString_clean
                  ((c :: r) ++ [CHAR_FORWARD_SLASH])) as (segs & Hc & Hn).
      exists segs. rewrite Hn. auto.
    + cbv beta iota zeta. rewrite Hcwd. cbn [negb].
      destruct (normalizeString_clean
                  ((c0 :: cwd') ++ CHAR_FORWARD_SLASH
                     :: (c :: r) ++ [CHAR_FORWARD_SLASH])) as (segs & Hc & Hn).
      exists segs. rewrite Hn. auto.
Qed.

(** What [validatePath] computes from an absolute working directory is a
    fixed point of [path.resolve] and of [path.normalize]. *)
Lemma resolvedPath_normal_form (nfc : jsstring -> jsstring) (cwd s : jsstring) :
  isAbsolute cwd = true ->
  exists segs,
    Forall CleanSegment segs /\ resolvedPath nfc cwd s = absolutePath segs.
Proof.
  intros Hcwd. unfold resolvedPath. cbv zeta.
  destruct (resolve_normal_form cwd (percentDecode (nfc (stripNulls s))) Hcwd)
    as (segs & Hc & ->).
  exists segs. split; [exact Hc | apply normalize_absolutePath, Hc].
Qed.

(** C4 (amended). When [validatePath] accepts an input and returns [q],
    and [q] is left as it is by the first three steps (it holds no null
    character, is in NFC, and the percent-decoding loop does not change it),
    then [validatePath] accepts [q] and returns [q].  The working directory
    is absolute, as [process.cwd()] is. *)
Theorem validatePath_fixed_point (nfc : jsstring -> jsstring) (cwd : jsstring)
    (lstatSync : jsstring -> LstatOutcome) (roots : list jsstring)
    (filePath : jsval) (q : jsstring) :
  isAbsolute cwd = true ->
  validatePath nfc cwd lstatSync roots filePath = Return q ->
  stripNulls q = q ->
  nfc q = q ->
  percentDecode q = q ->
  validatePath nfc cwd lstatSync roots (JString q) = Return q.
Proof.
  intros Hcwd Hfirst Hnull Hnfc Hdecode.
  apply validatePath_Return in Hfirst as (s & _ & _ & Hq & Hlink & Hroot).
  destruct (resolvedPath_normal_form nfc cwd s Hcwd) as (segs & Hclean & Hs).
  assert (Hagain : resolvedPath nfc cwd q = q).
  { unfold resolvedPath. cbv zeta. rewrite Hnull, Hnfc, Hdecode.
    rewrite Hq, Hs.
    rewrite (resolve_absolutePath cwd segs Hclean).
    apply normalize_absolutePath, Hclean. }
  rewrite validatePath_string.
  - rewrite Hagain, Hlink, Hroot. reflexivity.
  - rewrite Hq, Hs. discriminate.
Qed.

Lemma validatePath_fixed_point_witness :
  validatePath (fun s => s) (js "/home/user") emptyFileSystem ALLOWED_ROOTS
    (JString (js "/Users/macbook/Documents/Dropository/file name.txt"))
  = Return (js "/Users/macbook/Documents/Dropository/file name.txt").
Proof.
  apply (validatePath_fixed_point (fun s => s) (js "/home/user")
           emptyFileSystem ALLOWED_ROOTS
           (JString (js "/Users/macbook/Documents/Dropository/sub/../file%20name.txt"))
           (js "/Users/macbook/Documents/Dropository/file name.txt"));
    vm_compute; reflexivity.
Defined.

(** The value of [validatePath] on a concrete ASCII input, whatever the NFC
    function and the working directory. *)
Lemma validatePath_ascii (nfc : jsstring -> jsstring) (cwd : jsstring)
    (lstatSync : jsstring -> LstatOutcome) (roots : list jsstring)
    (s q : jsstring) :
  NfcFixesLatin nfc ->
  s <> [] ->
  forallb (fun c => c <? 768) (stripNulls s) = true ->
  normalize (resolve [] (percentDecode (stripNulls s))) = q ->
  isAbsolute (percentDecode (stripNulls s)) = true ->
  symlinkCheck (lstatSync q) = None ->
  existsb (underRoot q) roots = true ->
  validatePath nfc cwd lstatSync roots (JString s) = Return q.
Proof.
  intros Hnfc Hne Hlatin Hq Habs Hlink Hroot.
  rewrite validatePath_string by exact Hne.
  assert (Hres : resolvedPath nfc cwd s = q).
  { unfold resolvedPath. cbv zeta. rewrite (Hnfc _ Hlatin). rewrite <- Hq.
    f_equal. unfold resolve.
    destruct (percentDecode (stripNulls s)) as [|c r]; [discriminate |].
    cbv beta iota zeta. rewrite Habs. reflexivity. }
  rewrite Hres, Hlink, Hroot. reflexivity.
Qed.

(** An escape that cannot be decoded stops the decoding of the whole
    string; when [..] then removes the segment it stands in, the path returned
    still holds an escape, and validating it again decodes that escape. *)
Lemma validatePath_not_idempotent :
  exists p q q',
    q' <> q
    /\ forall nfc cwd,
         NfcFixesLatin nfc ->
         validatePath nfc cwd emptyFileSystem [js "/root/allowed"] (JString p)
         = Return q
         /\ validatePath nfc cwd emptyFileSystem [js "/root/allowed"] (JString q)
            = Return q'.
Proof.
  exists (js "/root/allowed/%zz/../%2541"), (js "/root/allowed/%2541"),
         (js "/root/allowed/A").
  split; [discriminate |].
  intros nfc cwd Hnfc.
  split; apply validatePath_ascii;
    try exact Hnfc; try discriminate; vm_compute; reflexivity.
Qed.

(** The same with a returned path that holds a null character: the null
    character is stripped when the path is validated again. *)
Lemma validatePath_not_idempotent_null :
  forall nfc cwd,
    NfcFixesLatin nfc ->
    validatePath nfc cwd refusesNullBytes ALLOWED_ROOTS (JString nullOutput)
    = Return (js "/Users/macbook/Documents/Dropository/ab").
Proof.
  intros nfc cwd Hnfc.
  apply validatePath_ascii;
    try exact Hnfc; try discriminate; vm_compute; reflexivity.
Qed.

(** ** More on validatePath *)

(** X1. [validatePath] throws [InvalidInput] exactly on the values that
    are not a non-empty string: on [undefined], [null], booleans, numbers,
    objects and the empty string, and on nothing else. *)
Theorem validatePath_invalid_input (nfc : jsstring -> jsstring) (cwd : jsstring)
    (lstatSync : jsstring -> LstatOutcome) (roots : list jsstring)
    (filePath : jsval) :
  validatePath nfc cwd lstatSync roots filePath = Throw InvalidInput
  <-> (forall s, filePath = JString s -> s = []).
Proof.
  split.
  - intros H s ->. destruct s as [|c r]; [reflexivity |].
    rewrite validatePath_string in H by discriminate.
    destruct (lstatSync _) as [[|]|code message]; simpl in H;
      try discriminate H.
    + destruct (existsb _ _); discriminate H.
    + destruct (str_eqb code (js "ENOENT")).
      * destruct (existsb _ _); discriminate H.
      * destruct (includes message SYMLINK_MARKER); [discriminate H |].
        destruct (existsb _ _); discriminate H.
  - intros H. destruct filePath as [| |b|n|s|]; try reflexivity.
    + unfold validatePath. destruct (falsy (JBool b) || _); reflexivity.
    + unfold validatePath. destruct (falsy (JNumber n) || _); reflexivity.
    + rewrite (H s eq_refl). reflexivity.
Qed.

(** X2. From an absolute working directory, every path [validatePath]
    returns is absolute and lexically normalized: a slash followed by
    segments, one slash between two of them and none at the end, no segment
    empty, [.] or [..]; [path.normalize] and [path.resolve] leave it as it
    is. *)
Theorem validatePath_normal_form (nfc : jsstring -> jsstring) (cwd : jsstring)
    (lstatSync : jsstring -> LstatOutcome) (roots : list jsstring)
    (filePath : jsval) (q : jsstring) :
  isAbsolute cwd = true ->
  validatePath nfc cwd lstatSync roots filePath = Return q ->
  (exists segs, Forall CleanSegment segs /\ q = absolutePath segs)
  /\ normalize q = q
  /\ resolve cwd q = q.
Proof.
  intros Hcwd H.
  apply validatePath_Return in H as (s & _ & _ & -> & _ & _).
  destruct (resolvedPath_normal_form nfc cwd s Hcwd) as (segs & Hclean & ->).
  split; [exists segs; auto |].
  split; [apply normalize_absolutePath | apply resolve_absolutePath]; exact Hclean.
Qed.

Lemma validatePath_normal_form_witness :
  normalize (js "/Users/macbook/Documents/Dropository/b") =
    js "/Users/macbook/Documents/Dropository/b"
  /\ resolve (js "/home/user") (js "/Users/macbook/Documents/Dropository/b") =
       js "/Users/macbook/Documents/Dropository/b".
Proof.
  apply (validatePath_normal_form (fun s => s) (js "/home/user")
           emptyFileSystem ALLOWED_ROOTS
           (JString (js "/Users/macbook/Documents/Dropository/a/.././/b/"))
           (js "/Users/macbook/Documents/Dropository/b") eq_refl eq_refl).
Defined.

Lemma isPathAllowed_spec (nfc : jsstring -> jsstring) (cwd : jsstring)
    (lstatSync : jsstring -> LstatOutcome) (roots : list jsstring)
    (filePath : jsval) :
  isPathAllowed nfc cwd lstatSync roots filePath = true <->
  exists q, validatePath nfc cwd lstatSync roots filePath = Return q.
Proof.
  unfold isPathAllowed.
  destruct (validatePath nfc cwd lstatSync roots filePath) as [q|e].
  - split; [exists q; reflexivity | reflexivity].
  - split; [discriminate | intros [q H]; discriminate H].
Qed.

(** X3. [filterAllowedPaths] keeps the order of its input and drops
    elements without failing; what it keeps are exactly the elements
    [validatePath] accepts, each a non-empty string whose validated path lies
    under a sandbox root, and what it drops are the elements [validatePath]
    throws on. *)
Theorem filterAllowedPaths_sound (nfc : jsstring -> jsstring) (cwd : jsstring)
    (lstatSync : jsstring -> LstatOutcome) (roots : list jsstring)
    (paths : list jsval) :
  Subsequence (filterAllowedPaths nfc cwd lstatSync roots paths) paths
  /\ (forall v,
         In v (filterAllowedPaths nfc cwd lstatSync roots paths) <->
         In v paths /\
         exists q, validatePath nfc cwd lstatSync roots v = Return q)
  /\ (forall v,
         In v (filterAllowedPaths nfc cwd lstatSync roots paths) ->
         exists s q root,
           v = JString s /\ s <> []
           /\ validatePath nfc cwd lstatSync roots v = Return q
           /\ In root roots /\ Under q (normalize root)).
Proof.
  unfold filterAllowedPaths. split; [apply filter_subsequence |]. split.
  - intros v. rewrite filter_In, isPathAllowed_spec. reflexivity.
  - intros v H. apply filter_In in H as [_ H].
    apply isPathAllowed_spec in H as [q Hq].
    destruct (validatePath_under_root _ _ _ _ _ _ Hq) as (root & Hin & Hu).
    destruct (validatePath_Return _ _ _ _ _ _ Hq) as (s & -> & Hne & _).
    exists s, q, root. auto.
Qed.

(** X4. The percent-decoding loop is idempotent: run on its own result it
    calls [decodeURIComponent] at most once and changes nothing. *)
Theorem percentDecode_idempotent (s : jsstring) :
  percentDecode (percentDecode s) = percentDecode s
  /\ (decodeRounds (percentDecode s) <= 1)%nat.
Proof.
  destruct (decodeLoop_enough_fuel s) as (d & k & Hrun & _ & _ & Hstop).
  assert (Hd : percentDecode s = d) by (unfold percentDecode; rewrite Hrun; reflexivity).
  rewrite Hd. unfold percentDecode, decodeRounds, runDecodeLoop, decodeFuel.
  destruct d as [|c r]; [simpl; split; [reflexivity | lia] |].
  cbn [decodeLoop]. change (str_eqb (c :: r) []) with false. cbv iota.
  destruct Hstop as [E | E]; rewrite E.
  - rewrite str_eqb_refl. split; [reflexivity | lia].
  - split; [reflexivity | lia].
Qed.

(** *** Where the code units of a validated path come from *)

Section Provenance.

(** A property of code units that the slash and the dot have. *)
Variable P : N -> Prop.
Hypothesis P_slash : P CHAR_FORWARD_SLASH.
Hypothesis P_dot : P CHAR_DOT.

Lemma split_units (sp : N) (s : jsstring) :
  Forall P s -> Forall (Forall P) (split sp s).
Proof.
  induction 1 as [|c r Hc Hr IH]; simpl.
  - repeat constructor.
  - destruct (c =? sp); [constructor; [constructor | exact IH] |].
    destruct (split sp r) as [|h t]; [repeat constructor; exact Hc |].
    inversion IH; subst. constructor; [constructor |]; assumption.
Qed.

Lemma join_units (segs : list jsstring) :
  Forall (Forall P) segs -> Forall P (join CHAR_FORWARD_SLASH segs).
Proof.
  induction 1 as [|p rest Hp Hrest IH]; [constructor |].
  destruct rest as [|p' rest']; [exact Hp |].
  change (join CHAR_FORWARD_SLASH (p :: p' :: rest'))
    with (p ++ CHAR_FORWARD_SLASH :: join CHAR_FORWARD_SLASH (p' :: rest')).
  apply Forall_app. split; [exact Hp |]. constructor; [exact P_slash | exact IH].
Qed.

Lemma normalizeSegment_units (allow : bool) (stack : list jsstring)
    (seg : jsstring) :
  Forall (Forall P) stack -> Forall P seg ->
  Forall (Forall P) (normalizeSegment allow stack seg).
Proof.
  intros Hstack Hseg. unfold normalizeSegment.
  destruct (str_eqb seg [] || str_eqb seg DOT); [exact Hstack |].
  destruct (str_eqb seg DOTDOT).
  - destruct stack as [|top below].
    + destruct allow; repeat constructor; exact Hseg.
    + destruct (str_eqb top DOTDOT).
      * destruct allow; [constructor |]; assumption.
      * inversion Hstack; assumption.
  - constructor; assumption.
Qed.

Lemma normalizeString_units (path : jsstring) (allow : bool) :
  Forall P path -> Forall P (normalizeString path allow).
Proof.
  intros H. unfold normalizeString. apply join_units, Forall_rev.
  assert (Hfold : forall segs stack,
             Forall (Forall P) segs -> Forall (Forall P) stack ->
             Forall (Forall P) (fold_left (normalizeSegment allow) segs stack)).
  { induction segs as [|seg rest IH]; intros stack Hsegs Hstack; [exact Hstack |].
    inversion Hsegs; subst. simpl.
    apply IH; [assumption | apply normalizeSegment_units; assumption]. }
  apply Hfold; [apply split_units, H | constructor].
Qed.

Lemma resolve_units (cwd p : jsstring) :
  Forall P cwd -> Forall P p -> Forall P (resolve cwd p).
Proof.
  intros Hcwd Hp. unfold resolve.
  assert (Hslash : Forall P [CHAR_FORWARD_SLASH]) by (repeat constructor; exact P_slash).
  assert (Hout : forall path abs,
             Forall P path ->
             Forall P (if abs : bool
                       then CHAR_FORWARD_SLASH :: normalizeString path (negb abs)
                       else match normalizeString path (negb abs) with
                            | [] => DOT
                            | _ => normalizeString path (negb abs)
                            end)).
  { intros path abs Hpath.
    pose proof (normalizeString_units path (negb abs) Hpath) as Hn.
    destruct abs; [constructor; [exact P_slash | exact Hn] |].
    destruct (normalizeString path (negb false));
      [repeat constructor; exact P_dot | exact Hn]. }
  destruct p as [|c r].
  - cbv beta iota zeta. destruct cwd as [|c0 cwd'].
    + apply (Hout [] false). constructor.
    + apply (Hout ((c0 :: cwd') ++ [CHAR_FORWARD_SLASH]) (isAbsolute (c0 :: cwd'))).
      apply Forall_app; auto.
  - cbv beta iota zeta. destruct (isAbsolute (c :: r)) eqn:E.
    + apply (Hout ((c :: r) ++ [CHAR_FORWARD_SLASH]) true).
      apply Forall_app; auto.
    + destruct cwd as [|c0 cwd'].
      * apply (Hout ((c :: r) ++ [CHAR_FORWARD_SLASH]) false).
        apply Forall_app; auto.
      * apply (Hout ((c0 :: cwd') ++ CHAR_FORWARD_SLASH
                       :: (c :: r) ++ [CHAR_FORWARD_SLASH])
                 (isAbsolute (c0 :: cwd'))).
        apply Forall_app. split; [exact Hcwd |].
        constructor; [exact P_slash |]. apply Forall_app; auto.
Qed.

Lemma normalize_units (p : jsstring) : Forall P p -> Forall P (normalize p).
Proof.
  intros Hp. unfold normalize.
  assert (Hdot : Forall P DOT) by (repeat constructor; exact P_dot).
  destruct p as [|c r]; [exact Hdot |].
  cbv beta iota zeta.
  pose proof (normalizeString_units (c :: r) (negb (isAbsolute (c :: r))) Hp) as Hn.
  destruct (normalizeString (c :: r) (negb (isAbsolute (c :: r)))) as [|c' r'].
  - destruct (isAbsolute (c :: r)); [repeat constructor; exact P_slash |].
    destruct (endsWith (c :: r) [CHAR_FORWARD_SLASH]); [| exact Hdot].
    repeat constructor; [exact P_dot | exact P_slash].
  - assert (Hpath : Forall P (if endsWith (c :: r) [CHAR_FORWARD_SLASH]
                              then (c' :: r') ++ [CHAR_FORWARD_SLASH]
                              else c' :: r')).
    { destruct (endsWith _ _); [| exact Hn].
      apply Forall_app. split; [exact Hn | repeat constructor; exact P_slash]. }
    destruct (isAbsolute (c :: r)); [constructor; [exact P_slash |] |]; exact Hpath.
Qed.

End Provenance.

Lemma percentDecode_no_escape (s : jsstring) :
  ~ In CHAR_PERCENT s -> percentDecode s = s.
Proof.
  intros H.
  assert (E : decodeURIComponent s = Some s).
  { unfold decodeURIComponent. rewrite uriItems_literal.
    - apply decodeItems_literal.
    - apply Forall_forall. intros c Hc ->. exact (H Hc). }
  unfold percentDecode, runDecodeLoop, decodeFuel.
  destruct s as [|c r]; [reflexivity |].
  cbn [decodeLoop]. change (str_eqb (c :: r) []) with false. cbv iota.
  rewrite E, str_eqb_refl. reflexivity.
Qed.

(** X5. An input without a percent sign never gives a path with a null
    character: the null characters of the input are stripped, and nothing
    after that step brings one in.  The working directory holds no null
    character, and NFC adds neither a null character nor a percent sign. *)
Theorem validatePath_no_escape_no_null (nfc : jsstring -> jsstring)
    (cwd : jsstring) (lstatSync : jsstring -> LstatOutcome)
    (roots : list jsstring) (s q : jsstring) :
  NfcAddsNoNullOrPercent nfc ->
  ~ In CHAR_NUL cwd ->
  ~ In CHAR_PERCENT s ->
  validatePath nfc cwd lstatSync roots (JString s) = Return q ->
  ~ In CHAR_NUL q.
Proof.
  intros Hnfc Hcwd Hs H.
  apply validatePath_Return in H as (s' & [= <-] & _ & -> & _ & _).
  unfold resolvedPath. cbv zeta.
  assert (Hstrip0 : ~ In CHAR_NUL (stripNulls s)).
  { unfold stripNulls. intros Hin. apply filter_In in Hin as [_ Hin].
    discriminate Hin. }
  assert (Hstrip37 : ~ In CHAR_PERCENT (stripNulls s)).
  { unfold stripNulls. intros Hin. apply filter_In in Hin as [Hin _].
    exact (Hs Hin). }
  assert (Hnfc0 : ~ In CHAR_NUL (nfc (stripNulls s)))
    by (intros Hin; apply Hstrip0, (Hnfc _ CHAR_NUL); auto).
  assert (Hnfc37 : ~ In CHAR_PERCENT (nfc (stripNulls s)))
    by (intros Hin; apply Hstrip37, (Hnfc _ CHAR_PERCENT); auto).
  rewrite (percentDecode_no_escape _ Hnfc37).
  set (P := fun c : N => c <> CHAR_NUL).
  assert (Hall : forall t, ~ In CHAR_NUL t -> Forall P t).
  { intros t Ht. apply Forall_forall. intros c Hc ->. exact (Ht Hc). }
  assert (Hq : Forall P (normalize (resolve cwd (nfc (stripNulls s))))).
  { apply normalize_units; try discriminate.
    apply resolve_units; try discriminate; apply Hall; assumption. }
  rewrite Forall_forall in Hq. intros Hin. exact (Hq _ Hin eq_refl).
Qed.

Lemma validatePath_no_escape_no_null_witness :
  ~ In CHAR_NUL (js "/Users/macbook/Documents/Dropository/ab").
Proof.
  apply (validatePath_no_escape_no_null (fun s => s) (js "/home/user")
           emptyFileSystem ALLOWED_ROOTS
           (js "/Users/macbook/Documents/Dropository/a" ++ [CHAR_NUL] ++ js "b")
           (js "/Users/macbook/Documents/Dropository/ab")).
  - intros s c _ H. exact H.
  - vm_compute. intuition discriminate.
  - vm_compute. intuition discriminate.
  - reflexivity.
Defined.

(** ** sanitizeErrorMessage *)

Lemma replaceFrom_skip (matchLength : jsstring -> nat)
    (replacement text : jsstring) (skip : nat) :
  replaceFrom matchLength replacement text skip
  = replaceFrom matchLength replacement (skipn skip text) 0.
Proof.
  revert skip. induction text as [|c r IH]; intros [|k]; try reflexivity.
  simpl. apply IH.
Qed.

Lemma replaceFrom_step (matchLength : jsstring -> nat)
    (replacement : jsstring) (c : N) (r : jsstring) :
  replaceFrom matchLength replacement (c :: r) 0
  = match matchLength (c :: r) with
    | O => c :: replaceFrom matchLength replacement r 0
    | S k => replacement ++ replaceFrom matchLength replacement (skipn k r) 0
    end.
Proof.
  cbn [replaceFrom]. destruct (matchLength (c :: r)); [reflexivity |].
  rewrite replaceFrom_skip. reflexivity.
Qed.

Lemma runLength_stop (class : N -> bool) (s : jsstring) :
  match skipn (runLength class s) s with
  | [] => True
  | c :: _ => class c = false
  end.
Proof.
  induction s as [|c r IH]; simpl; [exact I |].
  destruct (class c) eqn:E; simpl; [exact IH | exact E].
Qed.

Lemma pathRun_stop (s : jsstring) :
  headPlain (skipn (runLength isPathUnitOrSlash s) s).
Proof.
  pose proof (runLength_stop isPathUnitOrSlash s) as H.
  destruct (skipn _ s) as [|c t]; [exact I |]. simpl.
  unfold isPathUnitOrSlash in H. apply orb_false_iff in H. apply H.
Qed.

(** A match of [(?:\/[\w\-._]+)+] is followed by a unit outside the
    class, or by the end of the text. *)
Lemma slashGroups_stop (s : jsstring) :
  (slashGroups AtSlash s = O
   \/ headPlain (skipn (slashGroups AtSlash s) s))
  /\ headPlain (skipn (slashGroups AfterSlash s) s)
  /\ headPlain (skipn (slashGroups InRun s) s).
Proof.
  induction s as [|c r (IHat & IHafter & IHrun)];
    [simpl; repeat split; auto |].
  assert (Hslash : forall n,
             (if c =? CHAR_FORWARD_SLASH
              then match slashGroups AfterSlash r with
                   | O => O
                   | S k => S (S k)
                   end
              else O) = n ->
             n = O \/ headPlain (skipn n (c :: r))).
  { intros n <-. destruct (c =? CHAR_FORWARD_SLASH); [| left; reflexivity].
    destruct (slashGroups AfterSlash r) as [|k]; [left; reflexivity |].
    right. exact IHafter. }
  cbn [slashGroups]. repeat split.
  - apply Hslash. reflexivity.
  - destruct (isPathUnit c) eqn:E; [exact IHrun | exact E].
  - destruct (isPathUnit c) eqn:E; [exact IHrun |].
    destruct (Hslash _ eq_refl) as [-> | H]; [exact E | exact H].
Qed.

Lemma dotPath_stop (s : jsstring) : headPlain (skipn (dotPath s) s) \/ dotPath s = O.
Proof.
  unfold dotPath.
  destruct s as [|d1 [|d2 [|sl r]]]; auto.
  - destruct ((d1 =? CHAR_DOT) && (d2 =? CHAR_FORWARD_SLASH)); [left; exact I | auto].
  - destruct ((d1 =? CHAR_DOT) && (d2 =? CHAR_DOT) && (sl =? CHAR_FORWARD_SLASH)).
    + left. apply (pathRun_stop r).
    + destruct ((d1 =? CHAR_DOT) && (d2 =? CHAR_FORWARD_SLASH)); [| auto].
      left. apply (pathRun_stop (sl :: r)).
Qed.

(** After a match of the path pattern comes a unit outside [[\w\-._]]. *)
Lemma pathPattern_stop (s : jsstring) (k : nat) :
  pathPattern s = S k -> headPlain (skipn (S k) s).
Proof.
  unfold pathPattern. intros H.
  destruct (slashGroups_stop s) as ([E | Hstop] & _ & _).
  - rewrite E in H. destruct (dotPath_stop s) as [Hd | Hd]; [| congruence].
    rewrite H in Hd. exact Hd.
  - destruct (slashGroups AtSlash s) as [|n] eqn:E.
    + destruct (dotPath_stop s) as [Hd | Hd]; [| congruence].
      rewrite H in Hd. exact Hd.
    + rewrite <- H. exact Hstop.
Qed.

(** A slash the path pattern does not match is followed by a unit outside
    the class. *)
Lemma pathPattern_slash (r : jsstring) :
  pathPattern (CHAR_FORWARD_SLASH :: r) = O -> headPlain r.
Proof.
  unfold pathPattern. cbn [slashGroups].
  change (CHAR_FORWARD_SLASH =? CHAR_FORWARD_SLASH) with true. cbv iota.
  destruct r as [|c t]; [intros _; exact I |].
  cbn [slashGroups headPlain]. destruct (isPathUnit c); [discriminate | reflexivity].
Qed.

Lemma hasSlashPath_placeholder (t : jsstring) :
  hasSlashPath (PATH_PLACEHOLDER ++ t) = hasSlashPath t.
Proof. destruct t; reflexivity. Qed.

Lemma hasSlashPath_cons (c : N) (t : jsstring) :
  (c = CHAR_FORWARD_SLASH -> headPlain t) ->
  hasSlashPath t = false -> hasSlashPath (c :: t) = false.
Proof.
  intros Hc Ht. cbn [hasSlashPath]. rewrite Ht, orb_false_r.
  destruct t as [|b t']; [reflexivity |].
  destruct (N.eqb_spec c CHAR_FORWARD_SLASH) as [E | E]; [| reflexivity].
  simpl. apply (Hc E).
Qed.

Lemma hasSlashPath_tail (c : N) (t : jsstring) :
  hasSlashPath (c :: t) = false ->
  (c = CHAR_FORWARD_SLASH -> headPlain t) /\ hasSlashPath t = false.
Proof.
  cbn [hasSlashPath]. intros H. apply orb_false_iff in H as [H1 H2].
  split; [| exact H2]. intros ->. destruct t as [|b t']; [exact I |].
  simpl in H1. exact H1.
Qed.

Lemma hasSlashPath_skipn (n : nat) (t : jsstring) :
  hasSlashPath t = false -> hasSlashPath (skipn n t) = false.
Proof.
  revert t. induction n as [|n IH]; intros [|c t] H; try exact H.
  simpl. apply IH. apply (hasSlashPath_tail c t H).
Qed.

Section PathReplacement.

Local Abbreviation pass1 := (replaceFrom pathPattern PATH_PLACEHOLDER).

Lemma pass1_head (t : jsstring) : headPlain t -> headPlain (pass1 t O).
Proof.
  destruct t as [|c r]; [intros _; exact I |]. intros H.
  rewrite replaceFrom_step. destruct (pathPattern (c :: r)); [exact H | reflexivity].
Qed.

Lemma pass1_shape (n : nat) :
  forall t,
    (List.length t <= n)%nat ->
    hasSlashPath (pass1 t O) = false
    /\ (~ In CHAR_BRACKET t -> WellMarked (pass1 t O)).
Proof.
  induction n as [|n IH]; intros t Hlen.
  - destruct t; [split; [reflexivity | constructor] | simpl in Hlen; lia].
  - destruct t as [|c r]; [split; [reflexivity | constructor] |].
    simpl in Hlen. rewrite replaceFrom_step.
    destruct (pathPattern (c :: r)) as [|k] eqn:E.
    + destruct (IH r) as [Hp Hw]; [lia |]. split.
      * apply hasSlashPath_cons; [| exact Hp].
        intros ->. apply pass1_head, pathPattern_slash, E.
      * intros Hb. apply WellMarked_unit.
        -- intros ->. apply Hb. left. reflexivity.
        -- apply Hw. intros Hin. apply Hb. right. exact Hin.
    + assert (Hk : (List.length (skipn k r) <= n)%nat)
        by (rewrite length_skipn; lia).
      destruct (IH (skipn k r) Hk) as [Hp Hw]. split.
      * rewrite hasSlashPath_placeholder. exact Hp.
      * intros Hb. apply WellMarked_placeholder.
        -- apply pass1_head. apply (pathPattern_stop _ _ E).
        -- apply Hw. intros Hin. apply Hb. right.
           rewrite <- (firstn_skipn k r). apply in_or_app. right. exact Hin.
Qed.

End PathReplacement.

Lemma WellMarked_tail (c : N) (t : jsstring) :
  WellMarked (c :: t) -> WellMarked t.
Proof.
  intros H. remember (c :: t) as x eqn:Ex.
  destruct H as [|c' t' Hc Ht|t' Hp Ht]; [discriminate | |].
  - injection Ex as _ <-. exact Ht.
  - injection Ex as _ <-.
    repeat (apply WellMarked_unit; [discriminate |]). exact Ht.
Qed.

Lemma WellMarked_skipn (n : nat) (t : jsstring) :
  WellMarked t -> WellMarked (skipn n t).
Proof.
  revert t. induction n as [|n IH]; intros [|c t] H; try exact H.
  simpl. apply IH, (WellMarked_tail c t H).
Qed.

(** In a well-marked text, what follows a placeholder does not start with
    a unit of the class. *)
Lemma WellMarked_after_placeholder (y : jsstring) :
  WellMarked (PATH_PLACEHOLDER ++ y) -> headPlain y /\ WellMarked y.
Proof.
  intros H. remember (PATH_PLACEHOLDER ++ y) as x eqn:Ex.
  destruct H as [|c' t' Hc Ht|t' Hp Ht]; [discriminate | |].
  - injection Ex as -> _. destruct Hc. reflexivity.
  - apply app_inv_head in Ex. subst. auto.
Qed.

(** What a match of the label pattern consists of. *)
Lemma labelPattern_match (c : N) (r : jsstring) (k : nat) :
  labelPattern (c :: r) = S k ->
  exists y,
    skipn (runLength isWhiteSpace r) r = PATH_PLACEHOLDER ++ y
    /\ skipn k r = y.
Proof.
  unfold labelPattern.
  destruct ((c =? 58)%N
            && startsWith (skipn (runLength isWhiteSpace r) r) PATH_PLACEHOLDER)
    eqn:E; [| discriminate].
  apply andb_true_iff in E as [_ E].
  apply startsWith_prefix in E as [y Hy].
  intros [= <-]. exists y. split; [exact Hy |].
  rewrite Nat.add_comm, <- skipn_skipn, Hy. reflexivity.
Qed.

Section LabelRemoval.

Local Abbreviation pass2 := (replaceFrom labelPattern []).

Lemma pass2_shape (n : nat) :
  forall t,
    (List.length t <= n)%nat ->
    WellMarked t -> hasSlashPath t = false ->
    hasSlashPath (pass2 t O) = false
    /\ (headPlain t -> headPlain (pass2 t O)).
Proof.
  induction n as [|n IH]; intros t Hlen Hw Hp.
  - destruct t; [split; [reflexivity | auto] | simpl in Hlen; lia].
  - destruct t as [|c r]; [split; [reflexivity | auto] |].
    simpl in Hlen. rewrite replaceFrom_step.
    destruct (labelPattern (c :: r)) as [|k] eqn:E.
    + destruct (hasSlashPath_tail c r Hp) as [Hc Hr].
      destruct (IH r) as [Hout Hhead];
        [lia | apply (WellMarked_tail c r Hw) | exact Hr |].
      split; [| intros H; exact H].
      apply hasSlashPath_cons; [| exact Hout].
      intros Ec. apply Hhead, Hc, Ec.
    + destruct (labelPattern_match c r k E) as (y & Hy & Hk).
      assert (Hmark : WellMarked (PATH_PLACEHOLDER ++ y)).
      { rewrite <- Hy. apply WellMarked_skipn, (WellMarked_tail c r Hw). }
      apply WellMarked_after_placeholder in Hmark as [Hplain Hwy].
      rewrite Hk. cbn [app].
      destruct (IH y) as [Hout Hhead].
      * rewrite <- Hk, length_skipn. lia.
      * exact Hwy.
      * rewrite <- Hk. apply hasSlashPath_skipn.
        apply (hasSlashPath_tail c r Hp).
      * split; [exact Hout | intros _; apply Hhead, Hplain].
Qed.

End LabelRemoval.

Lemma sanitize_string_clean (m : jsstring) :
  ~ In CHAR_BRACKET m ->
  hasSlashPath (sanitizeErrorMessage (JString m)) = false.
Proof.
  intros Hb. destruct m as [|c r]; [reflexivity |].
  unfold sanitizeErrorMessage, replaceAll.
  destruct (pass1_shape _ (c :: r) (le_n _)) as [Hp Hw].
  apply (pass2_shape _ _ (le_n _)); [apply Hw, Hb | exact Hp].
Qed.

(** X6. A message that holds no opening bracket comes out of
    [sanitizeErrorMessage] without the beginning of an absolute path: no
    slash in the result is followed by a letter, a digit, an underscore, a
    hyphen or a dot.  A value that is not a string, or the empty string, gives
    the fixed text [Unknown error]. *)
Theorem sanitizeErrorMessage_no_absolute_path (message : jsval) :
  (forall m, message = JString m -> ~ In CHAR_BRACKET m) ->
  hasSlashPath (sanitizeErrorMessage message) = false
  /\ ((forall m, message = JString m -> m = []) ->
      sanitizeErrorMessage message = js "Unknown error").
Proof.
  intros Hb. split.
  - destruct message as [| |b|n|m|]; try reflexivity.
    apply sanitize_string_clean, (Hb m eq_refl).
  - intros H. destruct message as [| |b|n|[|c r]|]; try reflexivity.
    discriminate (H _ eq_refl).
Qed.

Lemma sanitizeErrorMessage_no_absolute_path_witness :
  hasSlashPath
    (sanitizeErrorMessage
       (JString (js "ENOENT: no such file or directory, open '/secret/file.txt'")))
  = false.
Proof.
  refine (proj1 (sanitizeErrorMessage_no_absolute_path
                   (JString (js "ENOENT: no such file or directory, open '/secret/file.txt'"))
                   _)).
  intros m [= <-]. vm_compute. intuition discriminate.
Defined.

(** Why the bracket matters: the second replacement removes a label and a
    placeholder that were in the message from the start, and joins what
    stands around them. *)
Lemma sanitizeErrorMessage_joins_around_placeholder :
  sanitizeErrorMessage (JString (js "/:[path]secret")) = js "/secret".
Proof. vm_compute. reflexivity. Qed.

(** ** spotlight-service.ts *)






(** X8. The arguments of [mdfind] are one [-onlyin] and a directory for
    each scope element [validatePath] accepts, in order, then the query; each
    of these directories is the validated form of a scope element and lies
    under a sandbox root.  Scope elements that fail validation are left out,
    so when all of them fail [mdfind] is run on the query alone, without any
    scope. *)
Theorem spotlightSearch_scope (nfc : jsstring -> jsstring) (cwd : jsstring)
    (lstatSync : jsstring -> LstatOutcome) (roots : list jsstring)
    (scope : list jsval) (query : jsstring) :
  scopeArgs nfc cwd lstatSync roots scope ++ [query]
  = flat_map (fun dir => [js "-onlyin"; dir])
      (validatedScope nfc cwd lstatSync roots scope) ++ [query]
  /\ Forall
       (fun dir =>
          exists v root,
            In v scope
            /\ validatePath nfc cwd lstatSync roots v = Return dir
            /\ In root roots /\ Under dir (normalize root))
       (validatedScope nfc cwd lstatSync roots scope)
  /\ ((forall v, In v scope ->
                 isPathAllowed nfc cwd lstatSync roots v = false) ->
      scopeArgs nfc cwd lstatSync roots scope ++ [query] = [query]).
Proof.
  repeat split.
  - f_equal. induction scope as [|dir rest IH]; [reflexivity |].
    simpl. destruct (validatePath nfc cwd lstatSync roots dir); [| exact IH].
    simpl. rewrite IH. reflexivity.
  - induction scope as [|dir rest IH]; [constructor |].
    simpl. destruct (validatePath nfc cwd lstatSync roots dir) as [q|e] eqn:E.
    + constructor.
      * destruct (validatePath_under_root _ _ _ _ _ _ E) as (root & Hin & Hu).
        exists dir, root. simpl. auto.
      * eapply Forall_impl; [| exact IH].
        intros d (v & root & Hv & H). exists v, root. simpl. tauto.
    + eapply Forall_impl; [| exact IH].
      intros d (v & root & Hv & H). exists v, root. simpl. tauto.
  - intros Hall.
    assert (E : scopeArgs nfc cwd lstatSync roots scope = []).
    { induction scope as [|dir rest IH]; [reflexivity |]. simpl.
      pose proof (Hall dir (or_introl eq_refl)) as Hdir.
      unfold isPathAllowed in Hdir.
      destruct (validatePath nfc cwd lstatSync roots dir); [discriminate |].
      apply IH. intros v Hv. apply Hall. right. exact Hv. }
    rewrite E. reflexivity.
Qed.

(** X9. [spotlightReindex] never runs [mdimport] on a path that was not
    validated: the result says [queued] only when [validatePath] accepted the
    input, the path reported lies under a sandbox root and [mdimport]
    succeeded on exactly that path.  A validation failure is reported, not
    thrown, with the caller's own value as path; a failure of [mdimport] is
    reported with its message sanitized. *)
Theorem spotlightReindex_outcomes (nfc : jsstring -> jsstring) (cwd : jsstring)
    (lstatSync : jsstring -> LstatOutcome) (roots : list jsstring)
    (exec : jsstring -> list jsstring -> ExecOutcome) (filePath : jsval) :
  (queued (spotlightReindex nfc cwd lstatSync roots exec filePath) = true ->
   exists p root stdout,
     validatePath nfc cwd lstatSync roots filePath = Return p
     /\ reindexPath (spotlightReindex nfc cwd lstatSync roots exec filePath)
        = JString p
     /\ In root roots /\ Under p (normalize root)
     /\ exec (js "mdimport") [p] = ExecOk stdout)
  /\ (forall e,
         validatePath nfc cwd lstatSync roots filePath = Throw e ->
         spotlightReindex nfc cwd lstatSync roots exec filePath
         = mkReindex filePath false
             (js "Path validation failed: " ++ errorMessage e))
  /\ (forall p message,
         validatePath nfc cwd lstatSync roots filePath = Return p ->
         exec (js "mdimport") [p] = ExecFails message ->
         spotlightReindex nfc cwd lstatSync roots exec filePath
         = mkReindex (JString p) false
             (js "Reindex failed: " ++ sanitizeErrorMessage (JString message))
         /\ (~ In CHAR_BRACKET message ->
             hasSlashPath
               (reindexMessage
                  (spotlightReindex nfc cwd lstatSync roots exec filePath))
             = false)).
Proof.
  unfold spotlightReindex. split; [| split].
  - destruct (validatePath nfc cwd lstatSync roots filePath) as [p|e] eqn:E;
      [| discriminate].
    destruct (exec (js "mdimport") [p]) as [stdout|message] eqn:Ex;
      [| discriminate].
    intros _.
    destruct (validatePath_under_root _ _ _ _ _ _ E) as (root & Hin & Hu).
    exists p, root, stdout. auto.
  - intros e ->. reflexivity.
  - intros p message -> ->. split; [reflexivity |].
    intros Hb. cbn [reindexMessage].
    pose proof (sanitize_string_clean message Hb) as Hclean.
    change (js "Reindex failed: ")
      with (js "Reindex failed:" ++ [32%N]).
    rewrite <- app_assoc.
    generalize (sanitizeErrorMessage (JString message)) Hclean.
    intros t Ht. simpl. rewrite Ht. destruct t; reflexivity.
Qed.

(** *** parseSpotlightValue, in general *)

Lemma endsWith_last (s : jsstring) (c : N) : endsWith (s ++ [c]) [c] = true.
Proof.
  unfold endsWith. rewrite rev_app_distr. simpl. rewrite N.eqb_refl.
  destruct (rev s); reflexivity.
Qed.

(** X10. A value in double quotes is returned as the text between the
    quotes, unchanged and as a string, whatever that text is: a quoted number,
    a quoted [(null)] or a quoted list stays text. *)
Theorem parseSpotlightValue_quoted (s : jsstring) :
  parseSpotlightValue (quoted s) = SVString s.
Proof.
  unfold parseSpotlightValue, quoted.
  change (str_eqb (CHAR_QUOTE :: s ++ [CHAR_QUOTE]) (js "(null)")) with false.
  cbv iota.
  change (startsWith (CHAR_QUOTE :: s ++ [CHAR_QUOTE]) (js "(")) with false.
  cbn [andb].
  replace (startsWith (CHAR_QUOTE :: s ++ [CHAR_QUOTE]) [CHAR_QUOTE]) with true
    by (simpl; destruct (s ++ [CHAR_QUOTE]); reflexivity).
  change (CHAR_QUOTE :: s ++ [CHAR_QUOTE]) with ((CHAR_QUOTE :: s) ++ [CHAR_QUOTE]).
  rewrite (endsWith_last (CHAR_QUOTE :: s) CHAR_QUOTE). cbn [andb].
  unfold sliceInner. change (tl ((CHAR_QUOTE :: s) ++ [CHAR_QUOTE])) with (s ++ [CHAR_QUOTE]).
  rewrite removelast_last. reflexivity.
Qed.

Lemma split_length (sp : N) (s : jsstring) :
  List.length (split sp s) = S (count_occ N.eq_dec s sp).
Proof.
  induction s as [|c r IH]; [reflexivity |].
  simpl. destruct (N.eqb_spec c sp) as [-> | Hc].
  - destruct (N.eq_dec sp sp); [| congruence]. simpl. rewrite IH. reflexivity.
  - destruct (N.eq_dec c sp); [congruence |].
    pose proof (split_nonempty sp r) as Hne.
    destruct (split sp r) as [|h t]; [congruence |]. exact IH.
Qed.

(** X11. A value in parentheses other than [(null)] is returned as a list:
    the empty list when there is only white space between the parentheses,
    and otherwise one element for each piece between commas, that is one more
    element than the text has commas, whether or not a comma stands between
    quotes. *)
Theorem parseSpotlightValue_list (inner : jsstring) :
  inner <> js "null" ->
  exists items,
    parseSpotlightValue (js "(" ++ inner ++ js ")") = SVArray items
    /\ (trim inner = [] -> items = [])
    /\ (trim inner <> [] ->
        List.length items = S (count_occ N.eq_dec (trim inner) 44%N)).
Proof.
  intros Hnull. unfold parseSpotlightValue.
  assert (E1 : str_eqb (js "(" ++ inner ++ js ")") (js "(null)") = false).
  { apply str_eqb_neq. intros H. apply Hnull.
    change (js "(null)") with (js "(" ++ js "null" ++ js ")") in H.
    apply app_inv_head, app_inv_tail in H. exact H. }
  rewrite E1.
  replace (startsWith (js "(" ++ inner ++ js ")") (js "(")) with true
    by (simpl; destruct (inner ++ js ")"); reflexivity).
  change (js "(" ++ inner ++ js ")") with ((40%N :: inner) ++ [41%N]).
  change (js ")") with [41%N].
  rewrite (endsWith_last (40%N :: inner) 41%N). cbn [andb].
  assert (Einner : sliceInner ((40%N :: inner) ++ [41%N]) = inner).
  { unfold sliceInner.
    change (tl ((40%N :: inner) ++ [41%N])) with (inner ++ [41%N]).
    apply removelast_last. }
  rewrite Einner.
  destruct (trim inner) as [|c r] eqn:E.
  - exists []. split; [reflexivity |]. split; [reflexivity | congruence].
  - eexists. split; [reflexivity |]. split; [discriminate |].
    intros _. rewrite length_map. apply split_length.
Qed.

Lemma parseSpotlightValue_list_witness :
  exists items,
    parseSpotlightValue (js "(" ++ quoted (js "a,b") ++ js ")") = SVArray items
    /\ List.length items = 2%nat.
Proof.
  destruct (parseSpotlightValue_list (quoted (js "a,b")))
    as (items & Hparse & _ & Hlen); [discriminate |].
  exists items. split; [exact Hparse |].
  apply Hlen. discriminate.
Defined.

(** *** getSpotlightAttributes *)

Lemma includesString_In (values : list jsval) (name : jsstring) :
  includesString values name = true -> In (JString name) values.
Proof.
  unfold includesString. intros H.
  apply existsb_exists in H as (v & Hv & E).
  destruct v; try discriminate. apply str_eqb_eq in E. subst. exact Hv.
Qed.

Lemma defineProperty_keys {V : Type} (props : list (jsstring * V))
    (name : jsstring) (value : V) :
  List.map fst (defineProperty props name value)
  = if in_dec (list_eq_dec N.eq_dec) name (List.map fst props)
    then List.map fst props
    else List.map fst props ++ [name].
Proof.
  induction props as [|[k v] rest IH]; [reflexivity |].
  simpl. destruct (str_eqb k name) eqn:E.
  - apply str_eqb_eq in E. subst.
    destruct (list_eq_dec N.eq_dec name name); [| congruence]. reflexivity.
  - apply str_eqb_neq in E.
    destruct (list_eq_dec N.eq_dec k name); [congruence |].
    simpl. rewrite IH.
    destruct (in_dec (list_eq_dec N.eq_dec) name (List.map fst rest)); reflexivity.
Qed.

Lemma assign_keys (safeAttrs : list jsval) (result : AttributeObject)
    (name : jsstring) (value : SpotlightValue) :
  KeysAmong safeAttrs result -> In (JString name) safeAttrs ->
  KeysAmong safeAttrs (assign result name value).
Proof.
  intros [Hnd Hin] Hname. unfold assign.
  destruct (str_eqb name PROTO && negb (nullPrototype result)).
  - destruct value; split; assumption.
  - unfold KeysAmong. cbn [ownProperties]. rewrite defineProperty_keys.
    destruct (in_dec (list_eq_dec N.eq_dec) name
                (List.map fst (ownProperties result))) as [Hk | Hk];
      [split; assumption |].
    split.
    + apply NoDup_app; [exact Hnd | repeat constructor; intros [] |].
      intros k Hk1 [<- | []]. exact (Hk Hk1).
    + intros k Hk'. apply in_app_or in Hk' as [Hk' | [<- | []]];
        [apply Hin, Hk' | exact Hname].
Qed.

Lemma readAttributeLine_keys (safeAttrs : list jsval)
    (result : AttributeObject) (line : jsstring) :
  KeysAmong safeAttrs result ->
  KeysAmong safeAttrs (readAttributeLine safeAttrs result line).
Proof.
  intros H. unfold readAttributeLine.
  destruct (matchAttributeLine line) as [[name value]|]; [| exact H].
  destruct (includesString safeAttrs name) eqn:E; [| exact H].
  apply assign_keys; [exact H | apply includesString_In, E].
Qed.

(** X12. The object [getSpotlightAttributes] returns has only properties
    named after attributes that passed [sanitizeAttributes], each such name
    once: every key is a requested attribute and a word of the identifier
    grammar, whatever [mdls] printed.  When no requested attribute passes,
    the object is empty and does not depend on [mdls]. *)
Theorem getSpotlightAttributes_keys
    (exec : jsstring -> list jsstring -> ExecOutcome)
    (path : jsstring) (attrs : list jsval) :
  NoDup (List.map fst (ownProperties (getSpotlightAttributes exec path attrs)))
  /\ (forall k,
         In k (List.map fst (ownProperties (getSpotlightAttributes exec path attrs))) ->
         In (JString k) attrs /\ Identifier k)
  /\ (sanitizeAttributes attrs = [] ->
      forall exec',
        getSpotlightAttributes exec' path attrs = mkObject [] false).
Proof.
  assert (Hkeys : KeysAmong (sanitizeAttributes attrs)
                    (getSpotlightAttributes exec path attrs)).
  { unfold getSpotlightAttributes. cbv zeta.
    assert (Hempty : KeysAmong (sanitizeAttributes attrs) (mkObject [] false))
      by (split; [constructor | intros k []]).
    destruct (sanitizeAttributes attrs) as [|a safe] eqn:Es; [exact Hempty |].
    destruct (exec _ _) as [stdout|message]; [| exact Hempty].
    generalize (split 10 stdout) (mkObject [] false) Hempty.
    induction l as [|line lines IH]; intros result Hr; [exact Hr |].
    simpl. apply IH, readAttributeLine_keys, Hr. }
  destruct Hkeys as [Hnd Hin]. split; [exact Hnd |]. split.
  - intros k Hk. apply Hin in Hk. unfold sanitizeAttributes in Hk.
    apply filter_In in Hk as [Hattrs Hkeep]. split; [exact Hattrs |].
    apply keepAttribute_spec in Hkeep as (s & [= <-] & _ & Hid). exact Hid.
  - intros Hnone exec'. unfold getSpotlightAttributes. rewrite Hnone.
    reflexivity.
Qed.

(** ** xattr-service.ts *)

Lemma outputLines_lines (stdout : jsstring) :
  Forall (fun line => line <> [] /\ ~ In 10%N line) (outputLines stdout).
Proof.
  unfold outputLines. apply Forall_forall. intros line H.
  apply filter_In in H as [Hin Hne]. split.
  - destruct line; [discriminate | discriminate].
  - pose proof (split_free_of_sep 10%N (trim stdout)) as Hfree.
    rewrite Forall_forall in Hfree. apply Hfree, Hin.
Qed.

(** X13. When [listXattrs] returns, the path it reports is the validated
    one and lies under a sandbox root, [count] is the number of names, no
    name is empty or holds a line feed, and exactly one entry was written to
    the operation log.  The entry says failure only in the case [xattr]
    failed with [No such xattr], which is turned into an empty list. *)
Theorem listXattrs_result (nfc : jsstring -> jsstring) (cwd : jsstring)
    (lstatSync : jsstring -> LstatOutcome) (roots : list jsstring)
    (exec : jsstring -> list jsstring -> ExecOutcome) (filePath : jsval)
    (r : ListXattrResult) :
  snd (listXattrs nfc cwd lstatSync roots exec filePath) = Return r ->
  exists p root ok,
    validatePath nfc cwd lstatSync roots filePath = Return p
    /\ listPath r = p
    /\ In root roots /\ Under p (normalize root)
    /\ listCount r = List.length (listAttributes r)
    /\ Forall (fun name => name <> [] /\ ~ In 10%N name) (listAttributes r)
    /\ fst (listXattrs nfc cwd lstatSync roots exec filePath)
       = [mkLog (js "list") p None ok]
    /\ (ok = false ->
        listAttributes r = []
        /\ exists message,
             exec (js "xattr") [p] = ExecFails message
             /\ includes message (js "No such xattr") = true).
Proof.
  unfold listXattrs.
  destruct (validatePath nfc cwd lstatSync roots filePath) as [p|e] eqn:E;
    [| discriminate].
  destruct (validatePath_under_root _ _ _ _ _ _ E) as (root & Hin & Hu).
  destruct (exec (js "xattr") [p]) as [stdout|message] eqn:Ex; cbn [fst snd].
  - intros [= <-]. exists p, root, true. cbn [listPath listCount listAttributes].
    repeat split; auto; [apply outputLines_lines | discriminate | discriminate].
  - destruct (includes message (js "No such xattr")) eqn:Em; [| discriminate].
    intros [= <-]. exists p, root, false.
    cbn [listPath listCount listAttributes].
    repeat split; auto. exists message. auto.
Qed.

Lemma listXattrs_result_witness :
  exists p root ok,
    validatePath (fun s => s) (js "/home/user") emptyFileSystem ALLOWED_ROOTS
      (JString secretFile) = Return p
    /\ In root ALLOWED_ROOTS /\ Under p (normalize root)
    /\ fst (listXattrs (fun s => s) (js "/home/user") emptyFileSystem
              ALLOWED_ROOTS
              (fun _ _ => ExecFails (js "xattr: No such xattr: com.apple.quarantine"))
              (JString secretFile))
       = [mkLog (js "list") p None ok]
    /\ ok = false.
Proof.
  destruct (listXattrs_result (fun s => s) (js "/home/user") emptyFileSystem
              ALLOWED_ROOTS
              (fun _ _ => ExecFails (js "xattr: No such xattr: com.apple.quarantine"))
              (JString secretFile) (mkList secretFile [] 0) eq_refl)
    as (p & root & ok & Hp & _ & Hin & Hu & _ & _ & Hlog & _).
  exists p, root, ok. repeat split; try assumption.
  vm_compute in Hlog. injection Hlog as _ Hok. symmetry. exact Hok.
Defined.

Section XattrConfinement.

Variable nfc : jsstring -> jsstring.
Variable cwd : jsstring.
Variable lstatSync : jsstring -> LstatOutcome.
Variable roots : list jsstring.
Variables exec1 exec2 : jsstring -> list jsstring -> ExecOutcome.
Hypothesis agree : AgreeOnValidated roots exec1 exec2.

Lemma listXattrs_confined (filePath : jsval) :
  listXattrs nfc cwd lstatSync roots exec1 filePath
  = listXattrs nfc cwd lstatSync roots exec2 filePath.
Proof.
  unfold listXattrs.
  destruct (validatePath nfc cwd lstatSync roots filePath) as [p|e] eqn:E;
    [| reflexivity].
  destruct (validatePath_under_root _ _ _ _ _ _ E) as (root & Hin & Hu).
  pose proof (agree [] p root Hin Hu) as Ha; cbn [app] in Ha; rewrite Ha; clear Ha. reflexivity.
Qed.

Lemma getXattrs_confined (J : Type) (JSON_parse : jsstring -> option J)
    (filePath : jsval) (attribute : option jsstring) (decodePlist : bool) :
  getXattrs nfc cwd lstatSync roots exec1 J JSON_parse filePath attribute decodePlist
  = getXattrs nfc cwd lstatSync roots exec2 J JSON_parse filePath attribute decodePlist.
Proof.
  unfold getXattrs.
  destruct (validatePath nfc cwd lstatSync roots filePath) as [p|e] eqn:E;
    [| reflexivity].
  destruct (validatePath_under_root _ _ _ _ _ _ E) as (root & Hin & Hu).
  rewrite listXattrs_confined.
  destruct (listXattrs nfc cwd lstatSync roots exec2 (JString p))
    as [listLog [listed|error]]; [| reflexivity].
  assert (Hfold : forall names state,
             fold_left (readAttribute exec1 J JSON_parse p attribute decodePlist)
               names state
             = fold_left (readAttribute exec2 J JSON_parse p attribute decodePlist)
                 names state).
  { induction names as [|name names IH]; intros state; [reflexivity |].
    simpl. rewrite IH. f_equal. unfold readAttribute.
    destruct state as [log attributes].
    pose proof (agree [js "-p"; name] p root Hin Hu) as Ha; cbn [app] in Ha; rewrite Ha; clear Ha. reflexivity. }
  rewrite Hfold. reflexivity.
Qed.

Lemma setXattrs_confined (O : Type)
    (JSON_stringify : O -> Completion jsstring jsstring) (filePath : jsval)
    (attrs : list (jsstring * AttrValue O)) (createOnly : bool) :
  setXattrs nfc cwd lstatSync roots exec1 O JSON_stringify filePath attrs createOnly
  = setXattrs nfc cwd lstatSync roots exec2 O JSON_stringify filePath attrs createOnly.
Proof.
  unfold setXattrs.
  destruct (validatePath nfc cwd lstatSync roots filePath) as [p|e] eqn:E;
    [| reflexivity].
  destruct (validatePath_under_root _ _ _ _ _ _ E) as (root & Hin & Hu).
  rewrite listXattrs_confined.
  destruct (if createOnly
            then listXattrs nfc cwd lstatSync roots exec2 (JString p)
            else ([], Return (mkList p [] 0)))
    as [listLog [listed|error]]; [| reflexivity].
  assert (Hfold : forall entries st,
             fold_left (writeAttribute exec1 O JSON_stringify p createOnly
                          (listAttributes listed)) entries st
             = fold_left (writeAttribute exec2 O JSON_stringify p createOnly
                            (listAttributes listed)) entries st).
  { induction entries as [|entry entries IH]; intros st; [reflexivity |].
    simpl. rewrite IH. f_equal. unfold writeAttribute.
    destruct entry as [name [|s|o]].
    - pose proof (agree [js "-d"; name] p root Hin Hu) as Ha; cbn [app] in Ha; rewrite Ha; clear Ha. reflexivity.
    - destruct (createOnly && _); [reflexivity |]. cbn [valueText].
      pose proof (agree [js "-w"; name; s] p root Hin Hu) as Ha; cbn [app] in Ha; rewrite Ha; clear Ha. reflexivity.
    - destruct (createOnly && _); [reflexivity |].
      destruct (valueText O JSON_stringify (AttrObject o)) as [text|message];
        [| reflexivity].
      pose proof (agree [js "-w"; name; text] p root Hin Hu) as Ha; cbn [app] in Ha; rewrite Ha; clear Ha. reflexivity. }
  rewrite Hfold. reflexivity.
Qed.

End XattrConfinement.

(** X14. Every [xattr] command the service runs has a validated path as
    its last argument: what [listXattrs], [getXattrs] and [setXattrs] log and
    return is the same for two child-process behaviours that agree whenever
    [xattr] is run with a path under a sandbox root in last position, however
    they differ elsewhere. *)
Theorem xattr_commands_confined (nfc : jsstring -> jsstring) (cwd : jsstring)
    (lstatSync : jsstring -> LstatOutcome) (roots : list jsstring)
    (exec1 exec2 : jsstring -> list jsstring -> ExecOutcome) :
  AgreeOnValidated roots exec1 exec2 ->
  (forall filePath,
      listXattrs nfc cwd lstatSync roots exec1 filePath
      = listXattrs nfc cwd lstatSync roots exec2 filePath)
  /\ (forall J JSON_parse filePath attribute decodePlist,
         getXattrs nfc cwd lstatSync roots exec1 J JSON_parse filePath
           attribute decodePlist
         = getXattrs nfc cwd lstatSync roots exec2 J JSON_parse filePath
             attribute decodePlist)
  /\ (forall O JSON_stringify filePath attrs createOnly,
         setXattrs nfc cwd lstatSync roots exec1 O JSON_stringify filePath
           attrs createOnly
         = setXattrs nfc cwd lstatSync roots exec2 O JSON_stringify filePath
             attrs createOnly).
Proof.
  intros Hagree. split; [| split].
  - intros. apply listXattrs_confined, Hagree.
  - intros. apply getXattrs_confined, Hagree.
  - intros. apply setXattrs_confined, Hagree.
Qed.

Lemma under_allowed_root_not_passwd (p root : jsstring) :
  In root ALLOWED_ROOTS -> Under p (normalize root) ->
  str_eqb p (js "/etc/passwd") = false.
Proof.
  intros Hin Hu. apply str_eqb_neq. intros ->.
  destruct Hin as [<- | [<- | [<- | []]]];
    destruct Hu as [H | [rest H]]; vm_compute in H; discriminate H.
Qed.

Lemma xattr_commands_confined_witness :
  leakyExec (js "xattr") [js "/etc/passwd"] <> ExecOk []
  /\ listXattrs (fun s => s) (js "/home/user") emptyFileSystem ALLOWED_ROOTS
       leakyExec (JString (js "/etc/passwd"))
     = listXattrs (fun s => s) (js "/home/user") emptyFileSystem ALLOWED_ROOTS
         (fun _ _ => ExecOk []) (JString (js "/etc/passwd")).
Proof.
  split; [discriminate |].
  refine (proj1 (xattr_commands_confined (fun s => s) (js "/home/user")
                   emptyFileSystem ALLOWED_ROOTS leakyExec
                   (fun _ _ => ExecOk []) _) _).
  intros args p root Hin Hu. unfold leakyExec.
  rewrite last_last, (under_allowed_root_not_passwd p root Hin Hu).
  reflexivity.
Defined.

(** *** setXattrs *)

Lemma Subsequence_snoc_drop {A : Type} (sub l : list A) (x : A) :
  Subsequence sub l -> Subsequence sub (l ++ [x]).
Proof.
  induction 1.
  - simpl. apply Subsequence_drop. constructor.
  - simpl. apply Subsequence_keep. assumption.
  - simpl. apply Subsequence_drop. assumption.
Qed.

Lemma Subsequence_snoc_keep {A : Type} (sub l : list A) (x : A) :
  Subsequence sub l -> Subsequence (sub ++ [x]) (l ++ [x]).
Proof.
  induction 1.
  - simpl. apply Subsequence_keep. constructor.
  - simpl. apply Subsequence_keep. assumption.
  - simpl. apply Subsequence_drop. assumption.
Qed.

Section SetXattrsLoop.

Variable exec : jsstring -> list jsstring -> ExecOutcome.
Variable O : Type.
Variable JSON_stringify : O -> Completion jsstring jsstring.
Variable validatedPath : jsstring.
Variable createOnly : bool.
Variable existingAttrs : list jsstring.

Local Abbreviation step :=
  (writeAttribute exec O JSON_stringify validatedPath createOnly existingAttrs).

Lemma Accounted_set (st : SetState) (handled : list jsstring) (name : jsstring)
    (log : list LogEntry) :
  Accounted st handled ->
  Accounted (mkSetState log (stateSet st ++ [name]) (stateDeleted st)
               (stateFailed st)) (handled ++ [name]).
Proof.
  intros (Hperm & Hs & Hd & Hf). unfold Accounted. cbn.
  repeat split.
  - rewrite <- app_assoc. cbn [app].
    eapply Permutation_trans;
      [apply Permutation_sym, Permutation_cons_append |].
    apply Permutation_cons_app, Hperm.
  - apply Subsequence_snoc_keep, Hs.
  - apply Subsequence_snoc_drop, Hd.
  - apply Subsequence_snoc_drop, Hf.
Qed.

Lemma Accounted_deleted (st : SetState) (handled : list jsstring)
    (name : jsstring) (log : list LogEntry) :
  Accounted st handled ->
  Accounted (mkSetState log (stateSet st) (stateDeleted st ++ [name])
               (stateFailed st)) (handled ++ [name]).
Proof.
  intros (Hperm & Hs & Hd & Hf). unfold Accounted. cbn.
  repeat split.
  - rewrite <- (app_assoc (stateDeleted st)). cbn [app]. rewrite app_assoc.
    eapply Permutation_trans;
      [apply Permutation_sym, Permutation_cons_append |].
    apply Permutation_cons_app. rewrite <- app_assoc. exact Hperm.
  - apply Subsequence_snoc_drop, Hs.
  - apply Subsequence_snoc_keep, Hd.
  - apply Subsequence_snoc_drop, Hf.
Qed.

Lemma Accounted_failed (st : SetState) (handled : list jsstring)
    (name error : jsstring) (log : list LogEntry) :
  Accounted st handled ->
  Accounted (mkSetState log (stateSet st) (stateDeleted st)
               (stateFailed st ++ [(name, error)])) (handled ++ [name]).
Proof.
  intros (Hperm & Hs & Hd & Hf). unfold Accounted. cbn.
  rewrite map_app. cbn [List.map fst].
  repeat split.
  - rewrite !app_assoc. apply Permutation_app_tail.
    rewrite <- app_assoc. exact Hperm.
  - apply Subsequence_snoc_drop, Hs.
  - apply Subsequence_snoc_drop, Hd.
  - apply Subsequence_snoc_keep, Hf.
Qed.

Lemma step_accounted (st : SetState) (handled : list jsstring)
    (entry : jsstring * AttrValue O) :
  Accounted st handled -> Accounted (step st entry) (handled ++ [fst entry]).
Proof.
  intros H. destruct entry as [name value]. cbn [fst].
  unfold writeAttribute, failed.
  destruct value as [|s|o].
  - destruct (exec _ _); [apply Accounted_deleted | apply Accounted_failed]; exact H.
  - destruct (createOnly && _); [apply Accounted_failed, H |].
    cbn [valueText].
    destruct (exec _ _); [apply Accounted_set | apply Accounted_failed]; exact H.
  - destruct (createOnly && _); [apply Accounted_failed, H |].
    destruct (valueText O JSON_stringify (AttrObject o));
      [| apply Accounted_failed, H].
    destruct (exec _ _); [apply Accounted_set | apply Accounted_failed]; exact H.
Qed.

Lemma loop_accounted (attrs : list (jsstring * AttrValue O)) :
  forall st handled,
    Accounted st handled ->
    Accounted (fold_left step attrs st) (handled ++ List.map fst attrs).
Proof.
  induction attrs as [|entry attrs IH]; intros st handled H.
  - simpl. rewrite app_nil_r. exact H.
  - simpl. change (fst entry :: List.map fst attrs)
      with ([fst entry] ++ List.map fst attrs).
    rewrite app_assoc. apply IH, step_accounted, H.
Qed.

Lemma existing_spec (name : jsstring) :
  existsb (str_eqb name) existingAttrs = true <-> In name existingAttrs.
Proof.
  rewrite existsb_exists. split.
  - intros (x & Hx & E). apply str_eqb_eq in E. subst. exact Hx.
  - intros H. exists name. split; [exact H | apply str_eqb_refl].
Qed.

Lemma step_sourced (attrs : list (jsstring * AttrValue O)) (st : SetState)
    (entry : jsstring * AttrValue O) :
  In entry attrs -> Sourced O createOnly existingAttrs attrs st ->
  Sourced O createOnly existingAttrs attrs (step st entry).
Proof.
  intros Hentry [Hset Hdel]. destruct entry as [name value].
  assert (Hnew : value <> AttrNull ->
                 createOnly && existsb (str_eqb name) existingAttrs = false ->
                 forall n, In n (stateSet st ++ [name]) ->
                   (createOnly = true -> ~ In n existingAttrs)
                   /\ exists v, In (n, v) attrs /\ v <> AttrNull).
  { intros Hv Hfree n Hn. apply in_app_or in Hn as [Hn | [<- | []]];
      [apply Hset, Hn |]. split.
    - intros -> Hex. apply existing_spec in Hex. simpl in Hfree. congruence.
    - exists value. auto. }
  unfold writeAttribute, failed. destruct value as [|s|o].
  - destruct (exec _ _); split; cbn; try assumption.
    intros n Hn. apply in_app_or in Hn as [Hn | [<- | []]];
      [apply Hdel, Hn | exact Hentry].
  - destruct (createOnly && _) eqn:E; [split; assumption |].
    cbn [valueText]. destruct (exec _ _); split; cbn; try assumption.
    apply Hnew; [discriminate | reflexivity].
  - destruct (createOnly && _) eqn:E; [split; assumption |].
    destruct (valueText O JSON_stringify (AttrObject o));
      [| split; assumption].
    destruct (exec _ _); split; cbn; try assumption.
    apply Hnew; [discriminate | reflexivity].
Qed.

Lemma loop_sourced (attrs todo : list (jsstring * AttrValue O)) :
  forall st,
    (forall entry, In entry todo -> In entry attrs) ->
    Sourced O createOnly existingAttrs attrs st ->
    Sourced O createOnly existingAttrs attrs (fold_left step todo st).
Proof.
  induction todo as [|entry todo IH]; intros st Hsub H; [exact H |].
  simpl. apply IH.
  - intros e He. apply Hsub. right. exact He.
  - apply step_sourced; [apply Hsub; left; reflexivity | exact H].
Qed.

(** An entry that may not be written is reported, and stays reported. *)
Lemma step_keeps_failed (st : SetState) (entry : jsstring * AttrValue O)
    (x : jsstring * jsstring) :
  In x (stateFailed st) -> In x (stateFailed (step st entry)).
Proof.
  intros H. destruct entry as [name value].
  assert (Hgrow : forall e, In x (stateFailed st ++ [e]))
    by (intros e; apply in_or_app; left; exact H).
  unfold writeAttribute, failed. destruct value as [|s|o].
  - destruct (exec _ _); cbn; auto.
  - destruct (createOnly && _); [cbn; auto |]. cbn [valueText].
    destruct (exec _ _); cbn; auto.
  - destruct (createOnly && _); [cbn; auto |]. cbn [valueText].
    destruct (JSON_stringify o) as [text|message]; [| cbn; auto].
    destruct (exec _ _); cbn; auto.
Qed.

Lemma loop_keeps_failed (todo : list (jsstring * AttrValue O)) :
  forall st x, In x (stateFailed st) -> In x (stateFailed (fold_left step todo st)).
Proof.
  induction todo as [|entry todo IH]; intros st x H; [exact H |].
  simpl. apply IH, step_keeps_failed, H.
Qed.

Lemma loop_refuses_existing (todo : list (jsstring * AttrValue O)) :
  forall st name value,
    createOnly = true -> In name existingAttrs ->
    In (name, value) todo -> value <> AttrNull ->
    In (name, js "Attribute already exists")
      (stateFailed (fold_left step todo st)).
Proof.
  induction todo as [|entry todo IH]; intros st name value Hc Hex Hin Hv;
    [destruct Hin |].
  simpl. destruct Hin as [-> | Hin]; [| eapply IH; eassumption].
  apply loop_keeps_failed. unfold writeAttribute.
  apply existing_spec in Hex. rewrite Hc, Hex.
  destruct value; [congruence | |]; cbn; apply in_or_app; right; left; reflexivity.
Qed.

Lemma step_keeps_deleted (st : SetState) (entry : jsstring * AttrValue O)
    (n : jsstring) :
  In n (stateDeleted st) -> In n (stateDeleted (step st entry)).
Proof.
  intros H. destruct entry as [name value].
  unfold writeAttribute, failed. destruct value as [|s|o].
  - destruct (exec _ _); cbn; [apply in_or_app; left |]; exact H.
  - destruct (createOnly && _); [exact H |]. cbn [valueText].
    destruct (exec _ _); exact H.
  - destruct (createOnly && _); [exact H |]. cbn [valueText].
    destruct (JSON_stringify o) as [text|message]; [| exact H].
    destruct (exec _ _); exact H.
Qed.

Lemma loop_keeps_deleted (todo : list (jsstring * AttrValue O)) :
  forall st n,
    In n (stateDeleted st) -> In n (stateDeleted (fold_left step todo st)).
Proof.
  induction todo as [|entry todo IH]; intros st n H; [exact H |].
  simpl. apply IH, step_keeps_deleted, H.
Qed.

(** A deletion [xattr] carries out is reported. *)
Lemma loop_deletes (todo : list (jsstring * AttrValue O)) :
  forall st name stdout,
    In (name, AttrNull) todo ->
    exec (js "xattr") [js "-d"; name; validatedPath] = ExecOk stdout ->
    In name (stateDeleted (fold_left step todo st)).
Proof.
  induction todo as [|entry todo IH]; intros st name stdout Hin Hexec;
    [destruct Hin |].
  simpl. destruct Hin as [-> | Hin]; [| eapply IH; eassumption].
  apply loop_keeps_deleted. unfold writeAttribute. rewrite Hexec. cbn.
  apply in_or_app. right. left. reflexivity.
Qed.

End SetXattrsLoop.

Lemma setXattrs_Return (nfc : jsstring -> jsstring) (cwd : jsstring)
    (lstatSync : jsstring -> LstatOutcome) (roots : list jsstring)
    (exec : jsstring -> list jsstring -> ExecOutcome) (O : Type)
    (JSON_stringify : O -> Completion jsstring jsstring) (filePath : jsval)
    (attrs : list (jsstring * AttrValue O)) (createOnly : bool)
    (r : SetXattrResult) :
  snd (setXattrs nfc cwd lstatSync roots exec O JSON_stringify filePath attrs
         createOnly) = Return r ->
  exists p existing st,
    validatePath nfc cwd lstatSync roots filePath = Return p
    /\ (createOnly = true ->
        exists listed,
          snd (listXattrs nfc cwd lstatSync roots exec (JString p))
          = Return listed
          /\ existing = listAttributes listed)
    /\ stateSet st = [] /\ stateDeleted st = [] /\ stateFailed st = []
    /\ r = mkSetResult p
             (stateSet (fold_left
                (writeAttribute exec O JSON_stringify p createOnly existing)
                attrs st))
             (stateDeleted (fold_left
                (writeAttribute exec O JSON_stringify p createOnly existing)
                attrs st))
             (stateFailed (fold_left
                (writeAttribute exec O JSON_stringify p createOnly existing)
                attrs st)).
Proof.
  unfold setXattrs.
  destruct (validatePath nfc cwd lstatSync roots filePath) as [p|e];
    [| discriminate].
  destruct createOnly.
  - destruct (listXattrs nfc cwd lstatSync roots exec (JString p))
      as [listLog [listed|error]] eqn:El; [| discriminate].
    cbn [snd]. intros [= <-].
    exists p, (listAttributes listed), (mkSetState listLog [] [] []).
    split; [reflexivity |]. split; [| auto].
    intros _. exists listed. rewrite El. auto.
  - cbn [snd]. intros [= <-].
    exists p, [], (mkSetState [] [] [] []).
    split; [reflexivity |]. split; [discriminate | auto].
Qed.

(** X15. When [setXattrs] returns, every requested attribute is reported
    exactly once: the names in [set], [deleted] and [failed] together are the
    requested names, each list keeps the order of the request, a name in
    [deleted] was requested with [null], and a name in [set] was requested
    with a value that is not [null]. *)
Theorem setXattrs_accounting (nfc : jsstring -> jsstring) (cwd : jsstring)
    (lstatSync : jsstring -> LstatOutcome) (roots : list jsstring)
    (exec : jsstring -> list jsstring -> ExecOutcome) (O : Type)
    (JSON_stringify : O -> Completion jsstring jsstring) (filePath : jsval)
    (attrs : list (jsstring * AttrValue O)) (createOnly : bool)
    (r : SetXattrResult) :
  snd (setXattrs nfc cwd lstatSync roots exec O JSON_stringify filePath attrs
         createOnly) = Return r ->
  Permutation (List.map fst attrs)
    (setNames r ++ deletedNames r ++ List.map fst (failedNames r))
  /\ Subsequence (setNames r) (List.map fst attrs)
  /\ Subsequence (deletedNames r) (List.map fst attrs)
  /\ Subsequence (List.map fst (failedNames r)) (List.map fst attrs)
  /\ (forall name, In name (deletedNames r) -> In (name, AttrNull) attrs)
  /\ (forall name, In name (setNames r) ->
        exists value, In (name, value) attrs /\ value <> AttrNull).
Proof.
  intros H.
  apply setXattrs_Return in H
    as (p & existing & st & _ & _ & Hs & Hd & Hf & ->).
  cbn [setNames deletedNames failedNames].
  assert (Hacc : Accounted st []).
  { unfold Accounted. rewrite Hs, Hd, Hf. simpl.
    repeat split; constructor. }
  pose proof (loop_accounted exec O JSON_stringify p createOnly existing
                attrs st [] Hacc) as (Hperm & H1 & H2 & H3).
  assert (Hsrc : Sourced O createOnly existing attrs st).
  { split; [rewrite Hs | rewrite Hd]; intros name []. }
  pose proof (loop_sourced exec O JSON_stringify p createOnly existing
                attrs attrs st (fun e He => He) Hsrc) as [Hset Hdel].
  simpl in Hperm, H1, H2, H3.
  repeat split; try assumption.
  intros name Hname. apply (Hset name Hname).
Qed.

Lemma setXattrs_accounting_witness :
  Permutation [js "a"; js "b"; js "c"]
    ([js "a"] ++ [js "b"] ++ List.map fst [(js "c", js "Attribute already exists")]).
Proof.
  refine (proj1 (setXattrs_accounting (fun s => s) (js "/home/user")
                   emptyFileSystem ALLOWED_ROOTS
                   (fun _ args => match args with
                                  | [_] => ExecOk (js "c")
                                  | _ => ExecOk []
                                  end)
                   unit (fun _ => Return (js "{}")) (JString secretFile)
                   [(js "a", AttrText (js "1")); (js "b", AttrNull);
                    (js "c", AttrObject tt)] true
                   (mkSetResult secretFile [js "a"] [js "b"]
                      [(js "c", js "Attribute already exists")]) _)).
  vm_compute. reflexivity.
Defined.

(** X16. With [createOnly], no attribute that [xattr] listed is written:
    its name is never in [set], and each request to give it a value is
    reported in [failed] as [Attribute already exists].  (A request to delete
    it, with [null], is carried out all the same.) *)
Theorem setXattrs_createOnly (nfc : jsstring -> jsstring) (cwd : jsstring)
    (lstatSync : jsstring -> LstatOutcome) (roots : list jsstring)
    (exec : jsstring -> list jsstring -> ExecOutcome) (O : Type)
    (JSON_stringify : O -> Completion jsstring jsstring) (filePath : jsval)
    (attrs : list (jsstring * AttrValue O)) (r : SetXattrResult) :
  snd (setXattrs nfc cwd lstatSync roots exec O JSON_stringify filePath attrs
         true) = Return r ->
  exists p listed,
    validatePath nfc cwd lstatSync roots filePath = Return p
    /\ snd (listXattrs nfc cwd lstatSync roots exec (JString p)) = Return listed
    /\ forall name,
         In name (listAttributes listed) ->
         ~ In name (setNames r)
         /\ (forall value,
                In (name, value) attrs -> value <> AttrNull ->
                In (name, js "Attribute already exists") (failedNames r))
         /\ (forall stdout,
                In (name, AttrNull) attrs ->
                exec (js "xattr") [js "-d"; name; p] = ExecOk stdout ->
                In name (deletedNames r)).
Proof.
  intros H.
  apply setXattrs_Return in H
    as (p & existing & st & Hp & Hlist & Hs & Hd & Hf & ->).
  destruct (Hlist eq_refl) as (listed & Hlisted & ->).
  exists p, listed. split; [exact Hp |]. split; [exact Hlisted |].
  intros name Hname. cbn [setNames deletedNames failedNames].
  assert (Hsrc : Sourced O true (listAttributes listed) attrs st).
  { split; [rewrite Hs | rewrite Hd]; intros n []. }
  pose proof (loop_sourced exec O JSON_stringify p true (listAttributes listed)
                attrs attrs st (fun e He => He) Hsrc) as [Hset _].
  split; [| split].
  - intros Hin. destruct (Hset name Hin) as [Hfree _].
    exact (Hfree eq_refl Hname).
  - intros value Hin Hv.
    apply (loop_refuses_existing exec O JSON_stringify p true
             (listAttributes listed) attrs st name value eq_refl Hname Hin Hv).
  - intros stdout Hin Hexec.
    apply (loop_deletes exec O JSON_stringify p true (listAttributes listed)
             attrs st name stdout Hin Hexec).
Qed.

Lemma setXattrs_createOnly_witness :
  exists p listed,
    validatePath (fun s => s) (js "/home/user") emptyFileSystem ALLOWED_ROOTS
      (JString secretFile) = Return p
    /\ snd (listXattrs (fun s => s) (js "/home/user") emptyFileSystem
              ALLOWED_ROOTS (fun _ _ => ExecOk (js "c")) (JString p))
       = Return listed
    /\ listAttributes listed = [js "c"].
Proof.
  destruct (setXattrs_createOnly (fun s => s) (js "/home/user")
              emptyFileSystem ALLOWED_ROOTS (fun _ _ => ExecOk (js "c"))
              unit (fun _ => Return (js "{}")) (JString secretFile)
              [(js "a", AttrText (js "1")); (js "c", AttrObject tt)]
              (mkSetResult secretFile [js "a"] []
                 [(js "c", js "Attribute already exists")]) eq_refl)
    as (p & listed & Hp & Hl & _).
  exists p, listed. split; [exact Hp |]. split; [exact Hl |].
  vm_compute in Hp. injection Hp as <-.
  vm_compute in Hl. injection Hl as <-. reflexivity.
Defined.

(** *** getXattrs *)

Section GetXattrsLoop.

Variable exec : jsstring -> list jsstring -> ExecOutcome.
Variable J : Type.
Variable JSON_parse : jsstring -> option J.
Variable validatedPath : jsstring.
Variable attribute : option jsstring.
Variable decodePlist : bool.
Variable listed : list jsstring.

Lemma readAttribute_keys (state : list LogEntry * list (jsstring * XattrValue J))
    (attrName : jsstring) :
  In attrName listed -> ReadKeys J attribute listed (snd state) ->
  ReadKeys J attribute listed (snd (readAttribute exec J JSON_parse validatedPath attribute
                   decodePlist state attrName)).
Proof.
  intros Hlisted H. destruct state as [log attributes]. unfold readAttribute.
  destruct (skipAttribute attribute attrName) eqn:Eskip; [exact H |].
  destruct (exec _ _); [| exact H]. cbn [snd] in *.
  unfold setAttribute. destruct (str_eqb attrName PROTO) eqn:Eproto; [exact H |].
  destruct H as [Hnd Hkeys]. unfold ReadKeys. rewrite defineProperty_keys.
  destruct (in_dec (list_eq_dec N.eq_dec) attrName (List.map fst attributes))
    as [Hk | Hk]; [split; assumption |].
  split.
  - apply NoDup_app; [exact Hnd | repeat constructor; intros [] |].
    intros k Hk1 [<- | []]. exact (Hk Hk1).
  - intros k Hin. apply in_app_or in Hin as [Hin | [<- | []]];
      [apply Hkeys, Hin |].
    apply str_eqb_neq in Eproto. auto.
Qed.

Lemma readLoop_keys (names : list jsstring) :
  forall state,
    (forall n, In n names -> In n listed) ->
    ReadKeys J attribute listed (snd state) ->
    ReadKeys J attribute listed (snd (fold_left (readAttribute exec J JSON_parse validatedPath
                                attribute decodePlist) names state)).
Proof.
  induction names as [|n names IH]; intros state Hsub H; [exact H |].
  simpl. apply IH.
  - intros m Hm. apply Hsub. right. exact Hm.
  - apply readAttribute_keys; [apply Hsub; left; reflexivity | exact H].
Qed.

End GetXattrsLoop.

Lemma NoDup_constant {A : Type} (l : list A) (a : A) :
  NoDup l -> (forall x, In x l -> x = a) -> (List.length l <= 1)%nat.
Proof.
  intros Hnd Hall. destruct l as [|x [|y l']]; simpl; try lia.
  inversion Hnd as [|? ? Hx _]; subst. exfalso. apply Hx.
  rewrite (Hall x), (Hall y); simpl; auto.
Qed.

(** X17. When [getXattrs] returns, [count] is the number of properties of
    [attributes], the property names are distinct names that [xattr] listed,
    and none is [__proto__].  With a non-empty [attribute] argument every
    property has that name, so there is at most one; with the empty string as
    [attribute] nothing is filtered, as with no argument. *)
Theorem getXattrs_attributes (nfc : jsstring -> jsstring) (cwd : jsstring)
    (lstatSync : jsstring -> LstatOutcome) (roots : list jsstring)
    (exec : jsstring -> list jsstring -> ExecOutcome) (J : Type)
    (JSON_parse : jsstring -> option J) (filePath : jsval)
    (attribute : option jsstring) (decodePlist : bool) (r : XattrResult J) :
  snd (getXattrs nfc cwd lstatSync roots exec J JSON_parse filePath attribute
         decodePlist) = Return r ->
  xattrCount r = List.length (xattrAttributes r)
  /\ NoDup (List.map fst (xattrAttributes r))
  /\ (exists p listed,
         validatePath nfc cwd lstatSync roots filePath = Return p
         /\ xattrPath r = p
         /\ snd (listXattrs nfc cwd lstatSync roots exec (JString p))
            = Return listed
         /\ forall k, In k (List.map fst (xattrAttributes r)) ->
                      In k (listAttributes listed) /\ k <> PROTO)
  /\ (forall a, attribute = Some a -> a <> [] ->
        (forall k, In k (List.map fst (xattrAttributes r)) -> k = a)
        /\ (xattrCount r <= 1)%nat)
  /\ getXattrs nfc cwd lstatSync roots exec J JSON_parse filePath (Some [])
       decodePlist
     = getXattrs nfc cwd lstatSync roots exec J JSON_parse filePath None
         decodePlist.
Proof.
  unfold getXattrs.
  destruct (validatePath nfc cwd lstatSync roots filePath) as [p|e];
    [| discriminate].
  destruct (listXattrs nfc cwd lstatSync roots exec (JString p))
    as [listLog [listed|error]] eqn:El; [| discriminate].
  pose proof (readLoop_keys exec J JSON_parse p attribute decodePlist
                (listAttributes listed) (listAttributes listed) (listLog, [])
                (fun n Hn => Hn)) as Hkeys.
  destruct (fold_left _ (listAttributes listed) (listLog, []))
    as [log attributes] eqn:Ef.
  cbn [snd] in *. intros [= <-].
  cbn [xattrCount xattrAttributes xattrPath].
  destruct Hkeys as [Hnd Hall]; [split; [constructor | intros k []] |].
  split; [reflexivity |]. split; [exact Hnd |]. split; [| split].
  - exists p, listed. split; [reflexivity |]. split; [reflexivity |].
    split; [rewrite El; reflexivity |]. intros k Hk. destruct (Hall k Hk) as (Hp & _ & Hl).
    auto.
  - intros a -> Ha.
    assert (Hsame : forall k, In k (List.map fst attributes) -> k = a).
    { intros k Hk. destruct (Hall k Hk) as (_ & Hskip & _).
      destruct a as [|c a']; [congruence |]. cbn in Hskip.
      apply negb_false_iff, str_eqb_eq in Hskip. exact Hskip. }
    split; [exact Hsame |].
    rewrite <- (length_map fst). apply (NoDup_constant _ a Hnd Hsame).
  - reflexivity.
Qed.

Lemma getXattrs_attributes_witness :
  exists r,
    snd (getXattrs (fun s => s) (js "/home/user") emptyFileSystem ALLOWED_ROOTS
           (fun _ args => match args with
                          | [_] => ExecOk (js "user.a" ++ [10%N] ++ js "user.b")
                          | _ => ExecOk (js "7b7d")
                          end)
           unit (fun _ => Some tt) (JString secretFile) (Some (js "user.b")) true)
    = Return r
    /\ List.map fst (xattrAttributes r) = [js "user.b"]
    /\ xattrCount r = 1%nat.
Proof.
  eexists. split; [vm_compute; reflexivity |].
  split; [reflexivity |].
  refine (proj1 (getXattrs_attributes (fun s => s) (js "/home/user")
                   emptyFileSystem ALLOWED_ROOTS
                   (fun _ args => match args with
                                  | [_] => ExecOk (js "user.a" ++ [10%N] ++ js "user.b")
                                  | _ => ExecOk (js "7b7d")
                                  end)
                   unit (fun _ => Some tt) (JString secretFile)
                   (Some (js "user.b")) true _ _)).
  vm_compute. reflexivity.
Defined.

(** X18. [getXattrs] validates twice: it hands the validated path to
    [listXattrs], which validates it again.  So the names are listed from the
    path validated twice, the values are read from the path validated once,
    and when the second validation fails, [getXattrs] logs a failed [get] and
    throws that failure for a path it had accepted. *)
Theorem getXattrs_validates_twice (nfc : jsstring -> jsstring) (cwd : jsstring)
    (lstatSync : jsstring -> LstatOutcome) (roots : list jsstring)
    (J : Type) (JSON_parse : jsstring -> option J) (filePath : jsval)
    (attribute : option jsstring) (decodePlist : bool) (q : jsstring) :
  validatePath nfc cwd lstatSync roots filePath = Return q ->
  (forall e exec,
      validatePath nfc cwd lstatSync roots (JString q) = Throw e ->
      getXattrs nfc cwd lstatSync roots exec J JSON_parse filePath attribute
        decodePlist
      = ([mkLog (js "get") q attribute false], Throw (errorMessage e)))
  /\ (forall q' exec1 exec2,
         validatePath nfc cwd lstatSync roots (JString q) = Return q' ->
         exec1 (js "xattr") [q'] = exec2 (js "xattr") [q'] ->
         (forall name,
             exec1 (js "xattr") [js "-p"; name; q]
             = exec2 (js "xattr") [js "-p"; name; q]) ->
         getXattrs nfc cwd lstatSync roots exec1 J JSON_parse filePath
           attribute decodePlist
         = getXattrs nfc cwd lstatSync roots exec2 J JSON_parse filePath
             attribute decodePlist).
Proof.
  intros Hq. split.
  - intros e exec He. unfold getXattrs, listXattrs. rewrite Hq, He. reflexivity.
  - intros q' exec1 exec2 Hq' Hlist Hread.
    unfold getXattrs. rewrite Hq.
    assert (El : listXattrs nfc cwd lstatSync roots exec1 (JString q)
                 = listXattrs nfc cwd lstatSync roots exec2 (JString q))
      by (unfold listXattrs; rewrite Hq', Hlist; reflexivity).
    rewrite El.
    destruct (listXattrs nfc cwd lstatSync roots exec2 (JString q))
      as [listLog [listed|error]]; [| reflexivity].
    assert (Hfold : forall names state,
               fold_left (readAttribute exec1 J JSON_parse q attribute decodePlist)
                 names state
               = fold_left (readAttribute exec2 J JSON_parse q attribute decodePlist)
                   names state).
    { induction names as [|name names IH]; intros state; [reflexivity |].
      simpl. rewrite IH. f_equal. unfold readAttribute.
      destruct state as [log attributes]. rewrite Hread. reflexivity. }
    rewrite Hfold. reflexivity.
Qed.

Lemma getXattrs_validates_twice_witness :
  validatePath (fun s => s) (js "/home/user") emptyFileSystem ALLOWED_ROOTS
    (JString escapedTraversal)
  = Return (js "/Users/macbook/Documents/Dropository/%2e%2e/%2e%2e/%2e%2e/etc")
  /\ getXattrs (fun s => s) (js "/home/user") emptyFileSystem ALLOWED_ROOTS
       (fun _ _ => ExecOk []) unit (fun _ => None) (JString escapedTraversal)
       None true
     = ([mkLog (js "get")
           (js "/Users/macbook/Documents/Dropository/%2e%2e/%2e%2e/%2e%2e/etc")
           None false],
        Throw (js "Path outside allowed directories")).
Proof.
  split; [vm_compute; reflexivity |].
  refine (proj1 (getXattrs_validates_twice (fun s => s) (js "/home/user")
                   emptyFileSystem ALLOWED_ROOTS unit (fun _ => None)
                   (JString escapedTraversal) None true
                   (js "/Users/macbook/Documents/Dropository/%2e%2e/%2e%2e/%2e%2e/etc")
                   _) OutsideSandbox (fun _ _ => ExecOk []) _);
    vm_compute; reflexivity.
Defined.

(** *** decodeXattrValue, in general *)

Lemma stripWhiteSpace_hex (rawValue : jsstring) :
  looksHex rawValue = true ->
  forallb isHexDigit (stripWhiteSpace rawValue) = true.
Proof.
  unfold looksHex, stripWhiteSpace. destruct rawValue as [|c r]; [discriminate |].
  generalize (c :: r). intros s H. rewrite forallb_forall in *.
  intros x Hx. apply filter_In in Hx as [Hin Hws].
  specialize (H x Hin). apply negb_true_iff in Hws. rewrite Hws in H.
  rewrite orb_false_r in H. exact H.
Qed.

(** X19. On every raw value [decodeXattrValue] tags the result [utf8] or
    [hex], never [json].  It tags [hex] exactly when the value is made of
    hexadecimal digits and white space and its bytes do not decode to a
    non-empty text free of replacement characters; the value returned is then
    a string of hexadecimal digits only.  A result tagged [utf8] has a whole
    number as size. *)
Theorem decodeXattrValue_encoding (J : Type) (JSON_parse : jsstring -> option J)
    (rawValue : jsstring) (decodePlist : bool) :
  encoding (decodeXattrValue J JSON_parse rawValue decodePlist) <> json
  /\ (encoding (decodeXattrValue J JSON_parse rawValue decodePlist) = hex
      <-> looksHex rawValue = true /\ ~ cleanText (hexText rawValue))
  /\ (encoding (decodeXattrValue J JSON_parse rawValue decodePlist) = hex ->
      exists digits,
        value (decodeXattrValue J JSON_parse rawValue decodePlist) = Text digits
        /\ forallb isHexDigit digits = true)
  /\ (encoding (decodeXattrValue J JSON_parse rawValue decodePlist) = utf8 ->
      exists n,
        size (decodeXattrValue J JSON_parse rawValue decodePlist) = sizeOfNat n).
Proof.
  destruct (looksHex rawValue) eqn:Ehex.
  - destruct (decodeXattrValue_hex_branch J JSON_parse rawValue decodePlist Ehex)
      as (Hparsed & Htext & Hraw).
    pose proof (cleanText_test J JSON_parse (hexText rawValue)) as Htest.
    destruct (negb (str_eqb (hexText rawValue) [])
              && negb (includesUnit (hexText rawValue) CHAR_REPLACEMENT)) eqn:Et.
    + assert (Hclean : cleanText (hexText rawValue)) by (apply Htest; reflexivity).
      destruct (JSON_parse (hexText rawValue)) as [parsed|] eqn:Ep.
      * rewrite (Hparsed Hclean parsed eq_refl). cbn.
        repeat split; try discriminate; try tauto. intros _. eexists. reflexivity.
      * rewrite (Htext Hclean eq_refl). cbn.
        repeat split; try discriminate; try tauto. intros _. eexists. reflexivity.
    + assert (Hdirty : ~ cleanText (hexText rawValue))
        by (intros Hc; apply Htest in Hc; discriminate).
      rewrite (Hraw Hdirty). cbn.
      repeat split; try discriminate; try tauto.
      intros _. eexists. split; [reflexivity |].
      apply stripWhiteSpace_hex, Ehex.
  - unfold decodeXattrValue. rewrite Ehex.
    destruct (JSON_parse rawValue); cbn;
      (repeat split; try discriminate; try tauto;
       try (intros [H _]; discriminate H); intros _; eexists; reflexivity).
Qed.

Lemma hexValue_hexDigitOf (n : N) : n < 16 -> hexValue (hexDigitOf n) = Some n.
Proof.
  intros H. unfold hexDigitOf, hexValue, isDigit, inRange.
  destruct (N.ltb_spec n 10) as [Hl | Hl].
  - replace (48 <=? 48 + n) with true by (symmetry; apply N.leb_le; lia).
    replace (48 + n <=? 57) with true by (symmetry; apply N.leb_le; lia).
    cbn [andb]. f_equal. lia.
  - replace (87 + n <=? 57) with false by (symmetry; apply N.leb_gt; lia).
    rewrite andb_false_r.
    replace (97 <=? 87 + n) with true by (symmetry; apply N.leb_le; lia).
    replace (87 + n <=? 102) with true by (symmetry; apply N.leb_le; lia).
    cbn [andb]. f_equal. lia.
Qed.

Lemma hexDigitOf_class (n : N) :
  n < 16 ->
  isHexDigit (hexDigitOf n) = true /\ isWhiteSpace (hexDigitOf n) = false.
Proof.
  intros H.
  assert (Hcases : In n [0; 1; 2; 3; 4; 5; 6; 7; 8; 9; 10; 11; 12; 13; 14; 15]).
  { simpl. lia. }
  simpl in Hcases.
  repeat (destruct Hcases as [<- | Hcases]; [split; reflexivity |]).
  destruct Hcases.
Qed.

Lemma byte_nibbles (b : N) : b < 256 -> b / 16 < 16 /\ b mod 16 < 16.
Proof.
  intros H. split.
  - apply N.Div0.div_lt_upper_bound. lia.
  - apply N.mod_lt. discriminate.
Qed.

Lemma bufferFromHex_toHex (bytes : list N) :
  Forall (fun b => b < 256) bytes -> bufferFromHex (toHex bytes) = bytes.
Proof.
  induction 1 as [|b rest Hb _ IH]; [reflexivity |].
  destruct (byte_nibbles b Hb) as [Hhi Hlo].
  cbn [toHex flat_map app bufferFromHex].
  rewrite (hexValue_hexDigitOf _ Hhi), (hexValue_hexDigitOf _ Hlo).
  fold (toHex rest). rewrite IH. f_equal.
  symmetry. apply N.div_mod. discriminate.
Qed.

Lemma toHex_digits (bytes : list N) :
  Forall (fun b => b < 256) bytes ->
  forallb (fun c => isHexDigit c || isWhiteSpace c) (toHex bytes) = true
  /\ stripWhiteSpace (toHex bytes) = toHex bytes.
Proof.
  induction 1 as [|b rest Hb _ [IH1 IH2]]; [split; reflexivity |].
  destruct (byte_nibbles b Hb) as [Hhi Hlo].
  destruct (hexDigitOf_class _ Hhi) as [Hh1 Hh2].
  destruct (hexDigitOf_class _ Hlo) as [Hl1 Hl2].
  cbn [toHex flat_map app forallb stripWhiteSpace filter].
  fold (toHex rest). fold (stripWhiteSpace (toHex rest)).
  rewrite Hh1, Hl1, Hh2, Hl2, IH2. cbn [orb andb negb].
  split; [exact IH1 | reflexivity].
Qed.

Lemma bufferToString_ascii (bytes : list N) :
  Forall (fun b => b < 128) bytes -> bufferToString bytes = bytes.
Proof.
  unfold bufferToString.
  induction 1 as [|b rest Hb _ IH]; [reflexivity |].
  cbn [utf8Decode utf8Idle needed]. unfold utf8Lead.
  apply N.ltb_lt in Hb. rewrite Hb. cbn [app]. fold utf8Idle. rewrite IH.
  reflexivity.
Qed.

(** X20. Hexadecimal digits that spell ASCII text are read as that text:
    for a non-empty sequence of bytes below 128, [decodeXattrValue] on its
    hexadecimal form returns the text (or what [JSON.parse] makes of it),
    tagged [utf8], with the number of bytes as size.  So a text value that
    happens to consist of hexadecimal digits, such as [4142], does not come
    back as itself but as the text its digits spell, [AB]. *)
Theorem decodeXattrValue_hex_text (J : Type) (JSON_parse : jsstring -> option J)
    (bytes : list N) (decodePlist : bool) :
  bytes <> [] ->
  Forall (fun b => b < 128) bytes ->
  decodeXattrValue J JSON_parse (toHex bytes) decodePlist
  = mkXattr
      match JSON_parse bytes with
      | Some parsed => Parsed parsed
      | None => Text bytes
      end
      (sizeOfNat (List.length bytes)) utf8.
Proof.
  intros Hne Hascii.
  assert (Hbytes : Forall (fun b => b < 256) bytes)
    by (eapply Forall_impl; [| exact Hascii]; cbn; intros; lia).
  destruct (toHex_digits bytes Hbytes) as [Hdigits Hstrip].
  assert (Hlooks : looksHex (toHex bytes) = true).
  { unfold looksHex. destruct (toHex bytes) eqn:E; [| exact Hdigits].
    destruct bytes; [congruence | discriminate E]. }
  assert (Htext : hexText (toHex bytes) = bytes).
  { unfold hexText. rewrite Hstrip, (bufferFromHex_toHex _ Hbytes).
    apply bufferToString_ascii, Hascii. }
  assert (Hcount : hexByteCount (toHex bytes) = List.length bytes).
  { unfold hexByteCount. rewrite Hstrip, (bufferFromHex_toHex _ Hbytes).
    reflexivity. }
  assert (Hclean : cleanText (hexText (toHex bytes))).
  { rewrite Htext. split; [exact Hne |]. intros Hin.
    rewrite Forall_forall in Hascii. specialize (Hascii _ Hin).
    unfold CHAR_REPLACEMENT in Hascii. lia. }
  destruct (decodeXattrValue_hex_branch J JSON_parse (toHex bytes) decodePlist
              Hlooks) as (Hparsed & Hplain & _).
  rewrite Htext, Hcount in *.
  destruct (JSON_parse bytes) as [parsed|] eqn:Ep.
  - apply (Hparsed Hclean parsed eq_refl).
  - apply (Hplain Hclean eq_refl).
Qed.

Lemma decodeXattrValue_hex_text_witness :
  decodeXattrValue unit (fun _ => None) (js "4142") true
  = mkXattr (Text (js "AB")) (sizeOfNat 2) utf8.
Proof.
  apply (decodeXattrValue_hex_text unit (fun _ => None) (js "AB") true).
  - discriminate.
  - repeat constructor.
Defined.

(** ** The HTTP server's rate limiter *)

Lemma mapSet_same (k : jsstring) (v : RateEntry) (m : RateLimitMap) :
  mapSet k v m k = Some v.
Proof. unfold mapSet. rewrite str_eqb_refl. reflexivity. Qed.

Lemma mapSet_other (k k' : jsstring) (v : RateEntry) (m : RateLimitMap) :
  str_eqb k' k = false -> mapSet k v m k' = m k'.
Proof. unfold mapSet. intros ->. reflexivity. Qed.

(** What one request does to the entry of a client: nothing when the
    request is not counted or is another client's. *)
Lemma handleRequest_other (req : Request) (m : RateLimitMap)
  (clientIp : jsstring) :
  limited req && str_eqb (clientOf req) clientIp = false ->
  snd (handleRequest req m) clientIp = m clientIp.
Proof.
  unfold limited, clientOf, handleRequest. intros H.
  destruct (str_eqb (orDefault (method req) (js "GET")) (js "OPTIONS"));
    [reflexivity |].
  destruct (startsWith (orDefault (url req) (js "/")) (js "/health"));
    [reflexivity |].
  cbn [negb andb] in H.
  assert (Hk : str_eqb clientIp (orDefault (remoteAddress req) (js "unknown"))
               = false).
  { apply str_eqb_neq. apply str_eqb_neq in H. congruence. }
  cbn [negb].
  destruct (m (orDefault (remoteAddress req) (js "unknown"))) as [entry|];
    [| cbn [snd]; apply mapSet_other; exact Hk].
  destruct (now req >? resetTime entry)%Z;
    [cbn [snd]; apply mapSet_other; exact Hk |].
  destruct (entryCount entry >=? RATE_LIMIT_MAX)%Z; [reflexivity |].
  cbn [snd]. apply mapSet_other. exact Hk.
Qed.

(** What a counted request does at its own client's entry. *)
Lemma handleRequest_own (req : Request) (m : RateLimitMap) :
  limited req = true ->
  handleRequest req m =
    match m (clientOf req) with
    | None =>
        (Dispatch,
         mapSet (clientOf req) (mkEntry 1 (now req + RATE_LIMIT_WINDOW)) m)
    | Some entry =>
        if (now req >? resetTime entry)%Z then
          (Dispatch,
           mapSet (clientOf req) (mkEntry 1 (now req + RATE_LIMIT_WINDOW)) m)
        else if (entryCount entry >=? RATE_LIMIT_MAX)%Z then
          (TooManyRequests (ceilSeconds (resetTime entry - now req)), m)
        else
          (Dispatch,
           mapSet (clientOf req)
             (mkEntry (entryCount entry + 1) (resetTime entry)) m)
    end.
Proof.
  unfold limited, clientOf, handleRequest. intros H.
  apply andb_true_iff in H. destruct H as [H1 H2].
  apply negb_true_iff in H1. apply negb_true_iff in H2.
  rewrite H1, H2. reflexivity.
Qed.

Section Quota.

Variable clientIp : jsstring.

(** While no clock reading passes the [resetTime] of the client's entry, the
    client gets through what is left of its hundred. *)
Lemma dispatched_quota (reqs : list Request) :
  forall (m : RateLimitMap) (entry : RateEntry),
    m clientIp = Some entry ->
    (forall req, In req reqs -> (now req <= resetTime entry)%Z) ->
    (Z.of_nat (dispatched clientIp reqs m)
     <= Z.max 0 (RATE_LIMIT_MAX - entryCount entry))%Z.
Proof.
  induction reqs as [|req rest IH]; intros m entry Hm Hnow.
  - cbn [dispatched]. lia.
  - cbn [dispatched].
    assert (Hrest : forall r, In r rest -> (now r <= resetTime entry)%Z)
      by (intros r Hr; apply Hnow; right; exact Hr).
    destruct (limited req && str_eqb (clientOf req) clientIp) eqn:Hmine.
    + apply andb_true_iff in Hmine. destruct Hmine as [Hlim Hip].
      apply str_eqb_eq in Hip.
      rewrite (handleRequest_own req m Hlim), Hip, Hm.
      pose proof (Hnow req (or_introl eq_refl)) as Hle.
      destruct (now req >? resetTime entry)%Z eqn:Hgt; [lia |].
      destruct (entryCount entry >=? RATE_LIMIT_MAX)%Z eqn:Hfull.
      * cbn [fst snd isDispatch andb]. cbn [Nat.add].
        apply (IH m entry Hm Hrest).
      * cbn [fst snd isDispatch andb].
        pose proof (IH (mapSet clientIp
                          (mkEntry (entryCount entry + 1) (resetTime entry)) m)
                      (mkEntry (entryCount entry + 1) (resetTime entry))
                      (mapSet_same _ _ _) Hrest) as IH'.
        cbn [entryCount resetTime] in IH'.
        unfold RATE_LIMIT_MAX in *. lia.
    + cbn [andb Nat.add].
      apply (IH (snd (handleRequest req m)) entry); [| exact Hrest].
      rewrite (handleRequest_other req m clientIp Hmine). exact Hm.
Qed.

(** From the request that starts a window on. *)
Lemma dispatched_window (req : Request) (rest : list Request)
  (m : RateLimitMap) :
  limited req = true -> clientOf req = clientIp ->
  opensWindow req m = true ->
  (forall r, In r rest -> (now r <= now req + RATE_LIMIT_WINDOW)%Z) ->
  (dispatched clientIp (req :: rest) m <= 100)%nat.
Proof.
  intros Hlim Hip Hopen Hnow. cbn [dispatched].
  rewrite (handleRequest_own req m Hlim).
  unfold opensWindow in Hopen. rewrite Hip in *.
  assert (Hq : (Z.of_nat
                  (dispatched clientIp rest
                     (mapSet clientIp
                        (mkEntry 1 (now req + RATE_LIMIT_WINDOW)) m)) <= 99)%Z).
  { pose proof (dispatched_quota rest
                  (mapSet clientIp (mkEntry 1 (now req + RATE_LIMIT_WINDOW)) m)
                  (mkEntry 1 (now req + RATE_LIMIT_WINDOW))
                  (mapSet_same _ _ _) Hnow) as Hq.
    cbn [entryCount] in Hq. unfold RATE_LIMIT_MAX in Hq. lia. }
  destruct (m clientIp) as [entry|].
  - rewrite Hopen. cbn [fst snd]. destruct (_ && _); lia.
  - cbn [fst snd]. destruct (_ && _); lia.
Qed.

(** In an interval no longer than the window, from a map in which the client
    has an entry. *)
Lemma dispatched_interval_entry (t0 : Z) (reqs : list Request) :
  forall (m : RateLimitMap) (entry : RateEntry),
    m clientIp = Some entry ->
    (forall req, In req reqs ->
       (t0 <= now req <= t0 + RATE_LIMIT_WINDOW)%Z) ->
    (Z.of_nat (dispatched clientIp reqs m)
     <= Z.max 0 (RATE_LIMIT_MAX - entryCount entry) + 100)%Z.
Proof.
  induction reqs as [|req rest IH]; intros m entry Hm Hnow.
  - cbn [dispatched]. lia.
  - assert (Hrest : forall r, In r rest ->
                      (t0 <= now r <= t0 + RATE_LIMIT_WINDOW)%Z)
      by (intros r Hr; apply Hnow; right; exact Hr).
    pose proof (Hnow req (or_introl eq_refl)) as Hreq.
    destruct (limited req && str_eqb (clientOf req) clientIp) eqn:Hmine.
    + apply andb_true_iff in Hmine. destruct Hmine as [Hlim Hip].
      apply str_eqb_eq in Hip.
      destruct (now req >? resetTime entry)%Z eqn:Hgt.
      * assert (Hw : (dispatched clientIp (req :: rest) m <= 100)%nat).
        { apply dispatched_window; auto.
          - unfold opensWindow. rewrite Hip, Hm. exact Hgt.
          - intros r Hr. specialize (Hrest r Hr). lia. }
        lia.
      * cbn [dispatched].
        rewrite (handleRequest_own req m Hlim), Hip, Hm, Hgt.
        rewrite Hlim, str_eqb_refl.
        destruct (entryCount entry >=? RATE_LIMIT_MAX)%Z eqn:Hfull.
        -- cbn [fst snd isDispatch andb Nat.add].
           apply (IH m entry Hm Hrest).
        -- cbn [fst snd isDispatch andb].
           pose proof (IH (mapSet clientIp
                             (mkEntry (entryCount entry + 1) (resetTime entry))
                             m)
                         (mkEntry (entryCount entry + 1) (resetTime entry))
                         (mapSet_same _ _ _) Hrest) as IH'.
           cbn [entryCount resetTime] in IH'.
           unfold RATE_LIMIT_MAX in *. lia.
    + cbn [dispatched]. rewrite Hmine. cbn [andb Nat.add].
      apply (IH (snd (handleRequest req m)) entry); [| exact Hrest].
      rewrite (handleRequest_other req m clientIp Hmine). exact Hm.
Qed.

(** The same from a map in which the client has no entry. *)
Lemma dispatched_interval_fresh (t0 : Z) (reqs : list Request) :
  forall (m : RateLimitMap),
    m clientIp = None ->
    (forall req, In req reqs ->
       (t0 <= now req <= t0 + RATE_LIMIT_WINDOW)%Z) ->
    (dispatched clientIp reqs m <= 100)%nat.
Proof.
  induction reqs as [|req rest IH]; intros m Hm Hnow.
  - cbn [dispatched]. lia.
  - assert (Hrest : forall r, In r rest ->
                      (t0 <= now r <= t0 + RATE_LIMIT_WINDOW)%Z)
      by (intros r Hr; apply Hnow; right; exact Hr).
    pose proof (Hnow req (or_introl eq_refl)) as Hreq.
    destruct (limited req && str_eqb (clientOf req) clientIp) eqn:Hmine.
    + apply andb_true_iff in Hmine. destruct Hmine as [Hlim Hip].
      apply str_eqb_eq in Hip.
      apply dispatched_window; auto.
      * unfold opensWindow. rewrite Hip, Hm. reflexivity.
      * intros r Hr. specialize (Hrest r Hr). lia.
    + cbn [dispatched]. rewrite Hmine. cbn [andb Nat.add].
      apply IH; [| exact Hrest].
      rewrite (handleRequest_other req m clientIp Hmine). exact Hm.
Qed.

End Quota.

Lemma handleRequest_counted (req : Request) (m : RateLimitMap) :
  Counted m -> Counted (snd (handleRequest req m)).
Proof.
  intros Hm clientIp entry.
  destruct (limited req && str_eqb (clientOf req) clientIp) eqn:Hmine.
  - apply andb_true_iff in Hmine. destruct Hmine as [Hlim Hip].
    apply str_eqb_eq in Hip.
    rewrite (handleRequest_own req m Hlim), Hip.
    destruct (m clientIp) as [e|] eqn:He.
    + destruct (now req >? resetTime e)%Z.
      * cbn [snd]. rewrite mapSet_same. intros [= <-]. cbn. lia.
      * destruct (entryCount e >=? RATE_LIMIT_MAX)%Z.
        -- cbn [snd]. rewrite He. intros [= <-]. exact (Hm _ _ He).
        -- cbn [snd]. rewrite mapSet_same. intros [= <-]. cbn.
           pose proof (Hm _ _ He). lia.
    + cbn [snd]. rewrite mapSet_same. intros [= <-]. cbn. lia.
  - rewrite (handleRequest_other req m clientIp Hmine). apply Hm.
Qed.

Lemma serve_counted (reqs : list Request) :
  forall m, Counted m -> Counted (serve reqs m).
Proof.
  induction reqs as [|req rest IH]; intros m Hm; [exact Hm |].
  apply (IH (snd (handleRequest req m))). apply handleRequest_counted.
  exact Hm.
Qed.

(** X21. From the request of a client that starts a window of the rate
    limiter (the map has no entry for the client's address, or the clock has
    passed the entry's [resetTime]) and while the clock reads at most 60000
    ms more than at that request, at most 100 of the client's counted
    requests reach the routes, whatever other clients send in between and
    whatever the map held for them. *)
Theorem handleRequest_window (m : RateLimitMap) (req : Request)
  (rest : list Request) :
  limited req = true ->
  opensWindow req m = true ->
  (forall r, In r rest -> (now r <= now req + RATE_LIMIT_WINDOW)%Z) ->
  (dispatched (clientOf req) (req :: rest) m <= 100)%nat.
Proof.
  intros Hlim Hopen Hnow.
  apply dispatched_window; auto.
Qed.

Lemma handleRequest_window_witness :
  (dispatched (js "10.0.0.1")
     [apiRequest "10.0.0.1" 0; apiRequest "10.0.0.1" 5] emptyMap <= 100)%nat.
Proof.
  apply (handleRequest_window emptyMap (apiRequest "10.0.0.1" 0)
           [apiRequest "10.0.0.1" 5]).
  - reflexivity.
  - reflexivity.
  - intros r [<- | []]. cbn. unfold RATE_LIMIT_WINDOW. lia.
Defined.

(** X22. After any requests handled since the server started, among
    requests whose clock readings lie in one interval of 60000 ms at most 199
    counted requests of one client reach the routes: what is left of the
    hundred of the window that is open, and the hundred of the window that a
    request in the interval opens. *)
Theorem handleRequest_interval (before during : list Request)
  (clientIp : jsstring) (t0 : Z) :
  (forall req, In req during ->
     (t0 <= now req <= t0 + RATE_LIMIT_WINDOW)%Z) ->
  (dispatched clientIp during (serve before emptyMap) <= 199)%nat.
Proof.
  intros Hnow.
  assert (Hc : Counted (serve before emptyMap)).
  { apply serve_counted. intros ip entry. discriminate. }
  destruct (serve before emptyMap clientIp) as [entry|] eqn:Hm.
  - pose proof (dispatched_interval_entry clientIp t0 during _ entry Hm Hnow)
      as Hb.
    pose proof (Hc _ _ Hm). unfold RATE_LIMIT_MAX in Hb. lia.
  - pose proof (dispatched_interval_fresh clientIp t0 during _ Hm Hnow). lia.
Qed.

Lemma handleRequest_interval_witness :
  (dispatched (js "10.0.0.1")
     [apiRequest "10.0.0.1" 60001; apiRequest "10.0.0.1" 60002]
     (serve [apiRequest "10.0.0.1" 0] emptyMap) <= 199)%nat.
Proof.
  apply (handleRequest_interval [apiRequest "10.0.0.1" 0]
           [apiRequest "10.0.0.1" 60001; apiRequest "10.0.0.1" 60002]
           (js "10.0.0.1") 60000).
  intros r [<- | [<- | []]]; cbn; unfold RATE_LIMIT_WINDOW; lia.
Defined.

Lemma handleRequest_within_window (req : Request) (m : RateLimitMap) (t : Z) :
  WithinWindow m t -> (t <= now req)%Z ->
  WithinWindow (snd (handleRequest req m)) (now req).
Proof.
  intros Hm Ht clientIp entry.
  destruct (limited req && str_eqb (clientOf req) clientIp) eqn:Hmine.
  - apply andb_true_iff in Hmine. destruct Hmine as [Hlim Hip].
    apply str_eqb_eq in Hip.
    rewrite (handleRequest_own req m Hlim), Hip.
    destruct (m clientIp) as [e|] eqn:He.
    + pose proof (Hm _ _ He) as Hb.
      destruct (now req >? resetTime e)%Z.
      * cbn [snd]. rewrite mapSet_same. intros [= <-]. cbn. lia.
      * destruct (entryCount e >=? RATE_LIMIT_MAX)%Z.
        -- cbn [snd]. rewrite He. intros [= <-]. lia.
        -- cbn [snd]. rewrite mapSet_same. intros [= <-]. cbn. lia.
    + cbn [snd]. rewrite mapSet_same. intros [= <-]. cbn. lia.
  - rewrite (handleRequest_other req m clientIp Hmine). intros He.
    pose proof (Hm _ _ He). lia.
Qed.

Lemma handleRequest_retry (req : Request) (m : RateLimitMap) (t : Z) :
  WithinWindow m t -> (t <= now req)%Z ->
  retryWithinMinute (fst (handleRequest req m)).
Proof.
  intros Hm Ht.
  destruct (limited req) eqn:Hlim.
  - rewrite (handleRequest_own req m Hlim).
    destruct (m (clientOf req)) as [e|] eqn:He; [| exact I].
    pose proof (Hm _ _ He) as Hb.
    destruct (now req >? resetTime e)%Z eqn:Hgt; [exact I |].
    destruct (entryCount e >=? RATE_LIMIT_MAX)%Z; [| exact I].
    cbn [fst retryWithinMinute]. unfold ceilSeconds, RATE_LIMIT_WINDOW in *.
    pose proof (Z.div_mod (- (resetTime e - now req)) 1000) as Hdiv.
    pose proof (Z.mod_pos_bound (- (resetTime e - now req)) 1000) as Hmod.
    lia.
  - unfold limited in Hlim. unfold handleRequest.
    destruct (str_eqb (orDefault (method req) (js "GET")) (js "OPTIONS"));
      [exact I |].
    cbn [negb andb] in Hlim. rewrite Hlim. exact I.
Qed.

Lemma outcomes_retry (reqs : list Request) :
  forall (m : RateLimitMap) (t : Z),
    WithinWindow m t -> clockFrom t reqs ->
    Forall retryWithinMinute (outcomes reqs m).
Proof.
  induction reqs as [|req rest IH]; intros m t Hm Hclock; [constructor |].
  destruct Hclock as [Ht Hrest]. cbn [outcomes]. constructor.
  - apply (handleRequest_retry req m t Hm Ht).
  - apply (IH _ (now req)); [| exact Hrest].
    apply (handleRequest_within_window req m t Hm Ht).
Qed.

(** X23. When the clock readings of the requests handled since the server
    started never go back, every 429 answer carries a [retryAfter] between 0
    and 60 seconds. *)
Theorem handleRequest_retryAfter (reqs : list Request) :
  monotoneClock reqs ->
  Forall retryWithinMinute (outcomes reqs emptyMap).
Proof.
  destruct reqs as [|req rest]; intros Hclock; [constructor |].
  apply (outcomes_retry (req :: rest) emptyMap (now req)).
  - intros clientIp entry. discriminate.
  - split; [lia | exact Hclock].
Qed.

Lemma handleRequest_retryAfter_witness :
  outcomes (burst "10.0.0.1" 0 101) emptyMap
  = repeat Dispatch 100 ++ [TooManyRequests 60]
  /\ Forall retryWithinMinute (outcomes (burst "10.0.0.1" 0 101) emptyMap).
Proof.
  split; [vm_compute; reflexivity |].
  apply (handleRequest_retryAfter (burst "10.0.0.1" 0 101)).
  unfold burst, monotoneClock. cbn [repeat clockFrom apiRequest now].
  repeat (split; [lia |]). exact I.
Defined.

(** The bound of 199 is reached: a client whose first request opened a
    window sends 99 more one millisecond later and 100 when the window is
    over, all 199 within 60000 ms and all passed on. *)
Lemma handleRequest_interval_reached :
  dispatched (js "10.0.0.1")
    (burst "10.0.0.1" 1 99 ++ burst "10.0.0.1" 60001 100)
    (serve [apiRequest "10.0.0.1" 0] emptyMap) = 199%nat.
Proof. vm_compute. reflexivity. Qed.

(** ** Signal types *)

Lemma js_injective (a b : string) : js a = js b -> a = b.
Proof.
  unfold js. intros H.
  apply (f_equal (List.map ascii_of_N)) in H.
  rewrite !map_map in H.
  rewrite (map_ext _ (fun x => x) ascii_N_embedding) in H.
  rewrite (map_ext _ (fun x => x) ascii_N_embedding) in H.
  rewrite !map_id in H.
  apply (f_equal string_of_list_ascii) in H.
  rewrite !string_of_list_ascii_of_string in H. exact H.
Qed.

Lemma numberKey_injective (a b : N) : numberKey a = numberKey b -> a = b.
Proof.
  unfold numberKey. intros H. apply js_injective in H.
  apply (f_equal DecimalString.NilEmpty.uint_of_string) in H.
  rewrite !DecimalString.NilEmpty.usu in H. injection H as H.
  apply (f_equal N.of_uint) in H.
  rewrite !DecimalN.Unsigned.of_to in H. exact H.
Qed.

Lemma getOwnProperty_defineProperty {V : Type} (o : list (jsstring * V))
  (k : jsstring) (v : V) (k' : jsstring) :
  getOwnProperty (defineProperty o k v) k'
  = if str_eqb k k' then Some v else getOwnProperty o k'.
Proof.
  induction o as [|[k0 v0] rest IH]; cbn [defineProperty getOwnProperty].
  - reflexivity.
  - destruct (str_eqb k0 k) eqn:E0.
    + apply str_eqb_eq in E0. subst k0. cbn [getOwnProperty].
      destruct (str_eqb k k'); reflexivity.
    + cbn [getOwnProperty]. destruct (str_eqb k0 k') eqn:E1.
      * apply str_eqb_eq in E1. subst k'.
        assert (E2 : str_eqb k k0 = false).
        { apply str_eqb_neq. apply str_eqb_neq in E0. congruence. }
        rewrite E2. reflexivity.
      * exact IH.
Qed.

Lemma getOwnProperty_In {V : Type} (props : list (jsstring * V))
  (k : jsstring) (v : V) :
  getOwnProperty props k = Some v -> In (k, v) props.
Proof.
  induction props as [|[k0 v0] rest IH]; cbn [getOwnProperty];
    [discriminate |].
  destruct (str_eqb k0 k) eqn:E.
  - apply str_eqb_eq in E. intros [= <-]. left. subst. reflexivity.
  - intros H. right. exact (IH H).
Qed.

Lemma fromEntries_Some {V : Type} (entries : list (jsstring * V)) :
  forall (o : list (jsstring * V)) (k : jsstring) (v : V),
    getOwnProperty
      (fold_left (fun o entry => defineProperty o (fst entry) (snd entry))
         entries o) k = Some v ->
    In (k, v) entries \/ getOwnProperty o k = Some v.
Proof.
  induction entries as [|[k0 v0] rest IH]; intros o k v H; cbn [fold_left] in H.
  - right. exact H.
  - apply IH in H. destruct H as [H | H]; [left; right; exact H |].
    rewrite getOwnProperty_defineProperty in H. cbn [fst snd] in H.
    destruct (str_eqb k0 k) eqn:E.
    + apply str_eqb_eq in E. subst k0. injection H as <-.
      left. left. reflexivity.
    + right. exact H.
Qed.

Lemma fromEntries_None {V : Type} (entries : list (jsstring * V)) :
  forall (o : list (jsstring * V)) (k : jsstring),
    getOwnProperty
      (fold_left (fun o entry => defineProperty o (fst entry) (snd entry))
         entries o) k = None ->
    ~ In k (List.map fst entries) /\ getOwnProperty o k = None.
Proof.
  induction entries as [|[k0 v0] rest IH]; intros o k H; cbn [fold_left] in H.
  - split; [intros [] | exact H].
  - apply IH in H. destruct H as [Hrest Ho].
    rewrite getOwnProperty_defineProperty in Ho. cbn [fst snd] in Ho.
    destruct (str_eqb k0 k) eqn:E; [discriminate |].
    split; [| exact Ho].
    cbn [List.map fst In]. intros [-> | Hin]; [| exact (Hrest Hin)].
    rewrite str_eqb_refl in E. discriminate.
Qed.

(** A table whose keys are distinct and that a function inverts has
    distinct values. *)
Lemma inverted_values_NoDup {K V : Type} (g : V -> K) (l : list (K * V)) :
  NoDup (List.map fst l) ->
  (forall e, In e l -> g (snd e) = fst e) ->
  NoDup (List.map snd l).
Proof.
  induction l as [|e rest IH]; intros Hk Hg; cbn [List.map]; [constructor |].
  cbn [List.map] in Hk. inversion Hk as [|? ? Hnot Hrest]; subst.
  constructor.
  - intros Hin. apply Hnot. apply in_map_iff in Hin.
    destruct Hin as [e' [Hsnd He']]. apply in_map_iff. exists e'.
    split; [| exact He'].
    rewrite <- (Hg e' (or_intror He')), <- (Hg e (or_introl eq_refl)).
    rewrite Hsnd. reflexivity.
  - apply IH; [exact Hrest |]. intros e' He'. apply Hg. right. exact He'.
Qed.

Lemma distinct_values_key {K V : Type} (l : list (K * V)) (k k' : K) (v : V) :
  NoDup (List.map snd l) -> In (k, v) l -> In (k', v) l -> k = k'.
Proof.
  induction l as [|e rest IH]; intros Hnd H1 H2; [destruct H1 |].
  cbn [List.map] in Hnd. inversion Hnd as [|? ? Hnot Hrest]; subst.
  destruct H1 as [-> | H1], H2 as [E2 | H2].
  - injection E2 as <-. reflexivity.
  - exfalso. apply Hnot. cbn [snd].
    apply in_map_iff. exists (k', v). auto.
  - subst e. exfalso. apply Hnot. cbn [snd].
    apply in_map_iff. exists (k, v). auto.
  - exact (IH Hrest H1 H2).
Qed.

Section SignalTypeProperties.

Variable SignalTypes : SignalTypesOf.

Local Abbreviation table := (STRING_TO_NUMERIC SignalTypes).

Lemma STRING_TO_NUMERIC_own (k : jsstring) (n : N) :
  In (k, n) table -> getOwnProperty table k = Some n.
Proof.
  intros Hin. unfold STRING_TO_NUMERIC in Hin. cbn [In] in Hin.
  repeat (destruct Hin as [Hin | Hin];
          [injection Hin as <- <-; reflexivity |]).
  destruct Hin.
Qed.

Lemma STRING_TO_NUMERIC_keys : NoDup (List.map fst table).
Proof.
  unfold STRING_TO_NUMERIC. cbn [List.map fst].
  repeat (constructor;
          [intros Hin; cbn [In] in Hin;
           repeat (destruct Hin as [Hin | Hin];
                   [vm_compute in Hin; discriminate Hin |]);
           exact Hin |]).
  constructor.
Qed.

Lemma NUMERIC_TO_STRING_Some (n : N) (k : jsstring) :
  getOwnProperty (NUMERIC_TO_STRING SignalTypes) (numberKey n) = Some k ->
  In (k, n) table.
Proof.
  unfold NUMERIC_TO_STRING, fromEntries. intros H.
  apply fromEntries_Some in H. destruct H as [H | H]; [| discriminate].
  apply in_map_iff in H. destruct H as [[k' n'] [Heq Hin]].
  cbn [fst snd] in Heq. injection Heq as Hkey ->.
  apply numberKey_injective in Hkey. subst n'. exact Hin.
Qed.

Lemma NUMERIC_TO_STRING_None (n : N) :
  getOwnProperty (NUMERIC_TO_STRING SignalTypes) (numberKey n) = None ->
  ~ In n (List.map snd table).
Proof.
  unfold NUMERIC_TO_STRING, fromEntries. intros H.
  apply fromEntries_None in H. destruct H as [H _].
  intros Hin. apply H. apply in_map_iff in Hin.
  destruct Hin as [[k n'] [Heq Hin]]. cbn [snd] in Heq. subst n'.
  rewrite map_map. apply in_map_iff. exists (k, n). auto.
Qed.

Lemma getSignalType_own (k : jsstring) (n : N) :
  In (k, n) table -> getSignalType SignalTypes k = Numeric n.
Proof.
  intros Hin. unfold getSignalType.
  rewrite (STRING_TO_NUMERIC_own k n Hin). reflexivity.
Qed.

End SignalTypeProperties.

(** X24. [getSignalType] undoes [getSignalName] on the signal types of
    [STRING_TO_NUMERIC]: the name [getSignalName] gives to one of them is
    read back as the same number, and the name it gives to any other
    number, which starts with [unknown_0x], is read back as
    [SignalTypes.PING]. *)
Theorem getSignalType_getSignalName (SignalTypes : SignalTypesOf)
  (numericType : N) :
  getSignalType SignalTypes (getSignalName SignalTypes numericType)
  = Numeric
      (if existsb (N.eqb numericType)
            (List.map snd (STRING_TO_NUMERIC SignalTypes))
       then numericType else PING SignalTypes).
Proof.
  unfold getSignalName.
  destruct (getOwnProperty (NUMERIC_TO_STRING SignalTypes)
              (numberKey numericType)) as [name|] eqn:E.
  - apply NUMERIC_TO_STRING_Some in E.
    rewrite (getSignalType_own SignalTypes name numericType E).
    replace (existsb _ _) with true; [reflexivity |].
    symmetry. apply existsb_exists. exists numericType. split.
    + apply in_map_iff. exists (name, numericType). auto.
    + apply N.eqb_refl.
  - apply NUMERIC_TO_STRING_None in E.
    replace (existsb _ _) with false; [reflexivity |].
    symmetry. apply not_true_is_false. intros Hex.
    apply existsb_exists in Hex. destruct Hex as [x [Hx Heq]].
    apply N.eqb_eq in Heq. subst x. exact (E Hx).
Qed.

(** X25. [getSignalName] undoes [getSignalType] on every name of
    [STRING_TO_NUMERIC] exactly when the eleven numbers of the table are
    pairwise distinct, that is, when the five members of [SignalTypes] differ
    from each other and from the six signals of [FG_SIGNALS] in the table. *)
Theorem getSignalName_getSignalType (SignalTypes : SignalTypesOf) :
  (forall stringType,
     In stringType (List.map fst (STRING_TO_NUMERIC SignalTypes)) ->
     exists n, getSignalType SignalTypes stringType = Numeric n
               /\ getSignalName SignalTypes n = stringType)
  <-> NoDup (List.map snd (STRING_TO_NUMERIC SignalTypes)).
Proof.
  split.
  - intros Hback.
    apply (inverted_values_NoDup (getSignalName SignalTypes)).
    + apply STRING_TO_NUMERIC_keys.
    + intros [k n] Hin. cbn [fst snd].
      destruct (Hback k) as [n' [Htype Hname]].
      { apply in_map_iff. exists (k, n). auto. }
      rewrite (getSignalType_own SignalTypes k n Hin) in Htype.
      injection Htype as ->. exact Hname.
  - intros Hnd k Hk. apply in_map_iff in Hk.
    destruct Hk as [[k' n] [Heq Hin]]. cbn [fst] in Heq. subst k'.
    exists n. split; [apply getSignalType_own; exact Hin |].
    unfold getSignalName.
    destruct (getOwnProperty (NUMERIC_TO_STRING SignalTypes) (numberKey n))
      as [name|] eqn:E.
    + apply NUMERIC_TO_STRING_Some in E.
      apply (distinct_values_key _ name k n Hnd E Hin).
    + apply NUMERIC_TO_STRING_None in E. exfalso. apply E.
      apply in_map_iff. exists (k, n). auto.
Qed.
